(** * The compilation database of arduino-cli, and the IDE lookup of [compile]

    A shallow embedding of

    - [internal/arduino/builder/internal/compilation/database.go]: the
      [Database] that records one [Command] per compiler run and is stored
      as a clangd-compatible [compile_commands.json];
    - the part of [commands/compile/compile.go] that looks up the hardware
      path of the last Arduino IDE in its [preferences.txt].

    Go strings and byte slices are sequences of bytes ([list ascii]); a Go
    slice keeps the difference between [nil] and an empty slice; [*Database]
    is a location in a heap of databases; the file system, the working
    directory and the standard output are fields of the program state.

    The functions of the Go standard library that the code calls
    ([unicode/utf8], [encoding/json], [os]) are embedded in modules of their
    own, function by function, under the names they have in Go. *)

From Stdlib Require Import ZArith NArith Ascii String List Lia Bool.
From stdpp Require Import base gmap strings list.

Local Open Scope Z_scope.
Set Warnings "-register-all,-clear-no-such-hyp".

(** ** Bytes, strings and slices *)

Abbreviation bytes := (list ascii).

(** A string literal of the source. *)
Definition str (s : string) : bytes := list_ascii_of_string s.
Arguments str : simpl never.

(** The value of a byte, and the conversion [byte(x)], which keeps the low
    eight bits. *)
Definition byte_val (c : ascii) : Z := Z.of_N (N_of_ascii c).
Definition byte_of (z : Z) : ascii := ascii_of_N (Z.to_N (z mod 256)).

(** The byte [0x22], the double quote. *)
Definition dquote : ascii := ascii_of_nat 34%nat.
(** The byte [0x5C], the backslash. *)
Definition bslash : ascii := ascii_of_nat 92%nat.
(** The byte [0x0A], the line feed. *)
Definition newline : ascii := ascii_of_nat 10%nat.

(** A Go slice: [nil], or a sequence of elements (possibly empty). *)
Inductive slice (A : Type) : Type :=
| nil_slice
| mk_slice (l : list A).
Arguments nil_slice {A}.
Arguments mk_slice {A} l.

Definition elems {A} (s : slice A) : list A :=
  match s with nil_slice => [] | mk_slice l => l end.

(** [len(s)] *)
Definition len {A} (s : slice A) : nat := length (elems s).

(** [append(s, x)]: the result is never [nil]. *)
Definition append {A} (s : slice A) (x : A) : slice A := mk_slice (elems s ++ [x]).

(** ** Package [unicode/utf8] *)

Module utf8.

Definition RuneError : Z := 0xFFFD.
Definition RuneSelf : Z := 0x80.
Definition MaxRune : Z := 0x10FFFF.
Definition UTFMax : nat := 4%nat.

Definition surrogateMin : Z := 0xD800.
Definition surrogateMax : Z := 0xDFFF.

Definition tx : Z := 0x80.
Definition t2 : Z := 0xC0.
Definition t3 : Z := 0xE0.
Definition t4 : Z := 0xF0.

Definition maskx : Z := 0x3F.
Definition mask2 : Z := 0x1F.
Definition mask3 : Z := 0x0F.
Definition mask4 : Z := 0x07.

Definition rune1Max : Z := 0x7F.
Definition rune2Max : Z := 0x7FF.
Definition rune3Max : Z := 0xFFFF.

Definition locb : Z := 0x80.
Definition hicb : Z := 0xBF.

(** The entries of the table [first]: the low three bits are the size of
    the encoding, the high four bits index [acceptRanges]. *)
Definition xx : Z := 0xF1.
Definition as_ : Z := 0xF0.
Definition s1 : Z := 0x02.
Definition s2 : Z := 0x13.
Definition s3 : Z := 0x03.
Definition s4 : Z := 0x23.
Definition s5 : Z := 0x34.
Definition s6 : Z := 0x04.
Definition s7 : Z := 0x44.

(** The table [first], by the ranges of its 256 entries. *)
Definition first (p0 : Z) : Z :=
  if (p0 <? 0x80)%Z then as_
  else if (p0 <? 0xC2)%Z then xx
  else if (p0 <? 0xE0)%Z then s1
  else if (p0 =? 0xE0)%Z then s2
  else if (p0 <? 0xED)%Z then s3
  else if (p0 =? 0xED)%Z then s4
  else if (p0 <? 0xF0)%Z then s3
  else if (p0 =? 0xF0)%Z then s5
  else if (p0 <? 0xF4)%Z then s6
  else if (p0 =? 0xF4)%Z then s7
  else xx.

(** The table [acceptRanges]: the range [(lo, hi)] of the second byte. *)
Definition acceptRanges (i : Z) : Z * Z :=
  if (i =? 0)%Z then (locb, hicb)
  else if (i =? 1)%Z then (0xA0, hicb)
  else if (i =? 2)%Z then (locb, 0x9F)
  else if (i =? 3)%Z then (0x90, hicb)
  else if (i =? 4)%Z then (locb, 0x8F)
  else (0, 0)%Z.

Definition is_cont (b : Z) : bool := (locb <=? b)%Z && (b <=? hicb)%Z.

(** [DecodeRune(p)] and [DecodeRuneInString(s)]: the first rune of [p] and
    its width in bytes; [(RuneError, 1%nat)] on an invalid encoding. *)
Definition DecodeRune (p : bytes) : Z * nat :=
  match p with
  | [] => (RuneError, 0%nat)
  | c0 :: p1 =>
    let p0 := byte_val c0 in
    let x := first p0 in
    if (as_ <=? x)%Z then
      (* the mask built from the lowest bit of [x]: RuneError for [xx] *)
      (if Z.testbit x 0 then RuneError else p0, 1%nat)
    else
      let sz := Z.to_nat (Z.land x 7) in
      let accept := acceptRanges (Z.shiftr x 4) in
      if (length p <? sz)%nat then (RuneError, 1%nat)
      else
        match p1 with
        | [] => (RuneError, 1%nat)
        | c1 :: p2 =>
          let b1 := byte_val c1 in
          if (b1 <? fst accept)%Z || (snd accept <? b1)%Z then (RuneError, 1%nat)
          else if (sz <=? 2)%nat then
            (Z.lor (Z.shiftl (Z.land p0 mask2) 6) (Z.land b1 maskx), 2%nat)
          else
            match p2 with
            | [] => (RuneError, 1%nat)
            | c2 :: p3 =>
              let b2 := byte_val c2 in
              if negb (is_cont b2) then (RuneError, 1%nat)
              else if (sz <=? 3)%nat then
                (Z.lor (Z.lor (Z.shiftl (Z.land p0 mask3) 12)
                              (Z.shiftl (Z.land b1 maskx) 6))
                       (Z.land b2 maskx), 3%nat)
              else
                match p3 with
                | [] => (RuneError, 1%nat)
                | c3 :: _ =>
                  let b3 := byte_val c3 in
                  if negb (is_cont b3) then (RuneError, 1%nat)
                  else
                    (Z.lor (Z.lor (Z.lor (Z.shiftl (Z.land p0 mask4) 18)
                                         (Z.shiftl (Z.land b1 maskx) 12))
                                  (Z.shiftl (Z.land b2 maskx) 6))
                           (Z.land b3 maskx), 4%nat)
                end
            end
        end
  end.

Definition encode3 (r : Z) : bytes :=
  [ byte_of (Z.lor t3 (Z.shiftr r 12 mod 256));
    byte_of (Z.lor tx (Z.land (Z.shiftr r 6 mod 256) maskx));
    byte_of (Z.lor tx (Z.land (r mod 256) maskx)) ].

Definition encode4 (r : Z) : bytes :=
  [ byte_of (Z.lor t4 (Z.shiftr r 18 mod 256));
    byte_of (Z.lor tx (Z.land (Z.shiftr r 12 mod 256) maskx));
    byte_of (Z.lor tx (Z.land (Z.shiftr r 6 mod 256) maskx));
    byte_of (Z.lor tx (Z.land (r mod 256) maskx)) ].

(** [EncodeRune(p, r)]: the bytes written to [p]. The switch is on
    [uint32(r)]; a rune out of range or a surrogate half is written as
    [RuneError]. *)
Definition EncodeRune (r : Z) : bytes :=
  let i := (r mod 2 ^ 32)%Z in
  if (i <=? rune1Max)%Z then [byte_of r]
  else if (i <=? rune2Max)%Z then
    [ byte_of (Z.lor t2 (Z.shiftr r 6 mod 256));
      byte_of (Z.lor tx (Z.land (r mod 256) maskx)) ]
  else if (MaxRune <? i)%Z || ((surrogateMin <=? i)%Z && (i <=? surrogateMax)%Z)
  then encode3 RuneError
  else if (i <=? rune3Max)%Z then encode3 r
  else encode4 r.

(** [ValidString(s)]: no position of [s] decodes to [(RuneError, 1%nat)].
    [fuel] bounds the number of runes. *)
Fixpoint valid_loop (fuel : nat) (s : bytes) : bool :=
  match fuel with
  | O => match s with [] => true | _ => false end
  | S fuel' =>
    match s with
    | [] => true
    | _ :: _ =>
      let '(r, size) := DecodeRune s in
      if (r =? RuneError)%Z && (size =? 1)%nat then false
      else valid_loop fuel' (drop size s)
    end
  end.

Definition ValidString (s : bytes) : bool := valid_loop (length s) s.

End utf8.

(** ** Package [unicode/utf16] *)

Module utf16.

Definition surr1 : Z := 0xD800.
Definition surr2 : Z := 0xDC00.
Definition surr3 : Z := 0xE000.
Definition surrSelf : Z := 0x10000.
Definition replacementChar : Z := 0xFFFD.

(** [IsSurrogate(r)] *)
Definition IsSurrogate (r : Z) : bool := (surr1 <=? r)%Z && (r <? surr3)%Z.

(** [DecodeRune(r1, r2)]: the rune of a surrogate pair, or U+FFFD. *)
Definition DecodeRune (r1 r2 : Z) : Z :=
  if (surr1 <=? r1)%Z && (r1 <? surr2)%Z && (surr2 <=? r2)%Z && (r2 <? surr3)%Z
  then (Z.lor (Z.shiftl (r1 - surr1) 10) (r2 - surr2) + surrSelf)%Z
  else replacementChar.

End utf16.

(** ** Errors *)

(** The kinds of JSON value that an [UnmarshalTypeError] names. *)
Inductive json_kind : Type :=
| KArray | KObject | KString | KNumber | KBool.

(** Go [error] values, by the failure they report. *)
Inductive error : Type :=
| ErrReadFile                               (* [*fs.PathError] of [os.ReadFile] *)
| ErrOpenFile                               (* [*fs.PathError] of [os.OpenFile] *)
| ErrWrite                                  (* [*fs.PathError] of [File.Write] or [File.Close] *)
| ErrGetwd                                  (* the error of [os.Getwd] *)
| SyntaxError                               (* [*json.SyntaxError] *)
| UnmarshalTypeError (Value : json_kind)    (* [*json.UnmarshalTypeError] *)
| ErrMarshal.                               (* an error of [json.Marshal] *)

(** ** Package [encoding/json] *)

Module json.

(** *** Encoding: [encode.go], [tables.go] *)

Definition hex : bytes := str "0123456789abcdef".
Definition hex_at (n : Z) : ascii := nth (Z.to_nat n) hex "0"%char.

(** [safeSet[b]]: the ASCII bytes that need no escape in a JSON string. *)
Definition safeSet (b : Z) : bool :=
  (0x20 <=? b) && (b <? 0x80) && negb (b =? 0x22) && negb (b =? 0x5C).

(** [htmlSafeSet[b]]: [safeSet] without [<], [>] and [&]. *)
Definition htmlSafeSet (b : Z) : bool :=
  safeSet b && negb (b =? 0x26) && negb (b =? 0x3C) && negb (b =? 0x3E).

(** The [switch b] of [appendString], for an ASCII byte that is not safe. *)
Definition escape_byte (c : ascii) : bytes :=
  let b := byte_val c in
  if (b =? 0x5C) || (b =? 0x22) then [bslash; c]
  else if b =? 0x08 then [bslash; "b"%char]
  else if b =? 0x0C then [bslash; "f"%char]
  else if b =? 0x0A then [bslash; "n"%char]
  else if b =? 0x0D then [bslash; "r"%char]
  else if b =? 0x09 then [bslash; "t"%char]
  else [bslash; "u"%char; "0"%char; "0"%char;
        hex_at (Z.shiftr b 4); hex_at (Z.land b 0xF)].

(** The loop of [appendString] from index [i], as the bytes appended to
    [dst]; [src] is [src[i:]]. Every iteration consumes at least one byte,
    so [length src] iterations are enough. *)
Fixpoint appendString_loop (fuel : nat) (escapeHTML : bool) (src : bytes) : bytes :=
  match fuel with
  | O => []
  | S fuel' =>
    match src with
    | [] => []
    | c :: rest =>
      let b := byte_val c in
      if b <? utf8.RuneSelf then
        if htmlSafeSet b || (negb escapeHTML && safeSet b)
        then c :: appendString_loop fuel' escapeHTML rest
        else escape_byte c ++ appendString_loop fuel' escapeHTML rest
      else
        let '(r, size) := utf8.DecodeRune (take utf8.UTFMax src) in
        if (r =? utf8.RuneError) && (size =? 1)%nat then
          bslash :: str "ufffd" ++ appendString_loop fuel' escapeHTML (drop size src)
        else if (r =? 0x2028) || (r =? 0x2029) then
          bslash :: str "u202" ++ hex_at (Z.land r 0xF)
                 :: appendString_loop fuel' escapeHTML (drop size src)
        else take size src ++ appendString_loop fuel' escapeHTML (drop size src)
    end
  end.

(** [appendString(dst, src, escapeHTML)]: the JSON string literal of [src]. *)
Definition appendString (src : bytes) (escapeHTML : bool) : bytes :=
  dquote :: appendString_loop (length src) escapeHTML src ++ [dquote].

(** [stringEncoder], with the options of [Marshal] ([escapeHTML: true]). *)
Definition stringEncoder (s : bytes) : bytes := appendString s true.

(** [arrayEncoder], on the already encoded elements. *)
Fixpoint join_comma (l : list bytes) : bytes :=
  match l with
  | [] => []
  | [x] => x
  | x :: l' => x ++ ","%char :: join_comma l'
  end.

Definition arrayEncoder (encoded : list bytes) : bytes :=
  "["%char :: join_comma encoded ++ ["]"%char].

(** [sliceEncoder]: a nil slice is [null]. *)
Definition sliceEncoder {A} (enc : A → bytes) (s : slice A) : bytes :=
  match s with
  | nil_slice => str "null"
  | mk_slice l => arrayEncoder (map enc l)
  end.

(** A field of a struct as [structEncoder] sees it: the name of its tag,
    [omitEmpty], [isEmptyValue] of its value, and the encoding of its
    value. *)
Record field := mkField {
  name : bytes;
  omitEmpty : bool;
  isEmptyValue : bool;
  encoded : bytes;
}.

(** The field loop of [structEncoder.encode]; [next] is the byte written
    before the next field. The name is written as [nameEscHTML]. *)
Fixpoint structEncoder_loop (next : ascii) (fs : list field) : bytes * ascii :=
  match fs with
  | [] => ([], next)
  | f :: fs' =>
    if omitEmpty f && isEmptyValue f then structEncoder_loop next fs'
    else
      let '(out, next') := structEncoder_loop ","%char fs' in
      (next :: appendString (name f) true ++ ":"%char :: encoded f ++ out, next')
  end.

Definition structEncoder (fs : list field) : bytes :=
  let '(out, next) := structEncoder_loop "{"%char fs in
  if Ascii.eqb next "{"%char then str "{}" else out ++ ["}"%char].

(** *** The scanner: [scanner.go] *)

Inductive opcode : Type :=
| scanContinue | scanBeginLiteral | scanBeginObject | scanObjectKey
| scanObjectValue | scanEndObject | scanBeginArray | scanArrayValue
| scanEndArray | scanSkipSpace | scanEnd | scanError.

Inductive parseKind : Type :=
| parseObjectKey | parseObjectValue | parseArrayValue.

(** The state functions that the field [step] ranges over. *)
Inductive stepFn : Type :=
| stateBeginValueOrEmpty | stateBeginValue | stateBeginStringOrEmpty
| stateBeginString | stateEndValue | stateEndTop
| stateInString | stateInStringEsc | stateInStringEscU | stateInStringEscU1
| stateInStringEscU12 | stateInStringEscU123
| stateNeg | state1 | state0 | stateDot | stateDot0 | stateE | stateESign | stateE0
| stateT | stateTr | stateTru | stateF | stateFa | stateFal | stateFals
| stateN | stateNu | stateNul | stateError.

(** The scanner. [parseState] is a stack whose top is the head of the
    list; [err] records that [s.err] is set. *)
Record scanner := mkScanner {
  step : stepFn;
  endTop : bool;
  parseState : list parseKind;
  err : bool;
}.

Definition maxNestingDepth : Z := 10000.

Definition set_step (s : scanner) (f : stepFn) : scanner :=
  mkScanner f (endTop s) (parseState s) (err s).

(** [s.reset()] *)
Definition reset : scanner := mkScanner stateBeginValue false [] false.

(** [s.error(c, context)] *)
Definition error_ (s : scanner) : scanner * opcode :=
  (mkScanner stateError (endTop s) (parseState s) true, scanError).

Definition isSpace (c : ascii) : bool :=
  Ascii.eqb c " "%char || Ascii.eqb c (ascii_of_nat 9) ||
  Ascii.eqb c (ascii_of_nat 13) || Ascii.eqb c (ascii_of_nat 10).

Definition isDigit (c : ascii) : bool :=
  (0x30 <=? byte_val c) && (byte_val c <=? 0x39).

Definition isDigit19 (c : ascii) : bool :=
  (0x31 <=? byte_val c) && (byte_val c <=? 0x39).

Definition isHex (c : ascii) : bool :=
  isDigit c
  || ((0x61 <=? byte_val c) && (byte_val c <=? 0x66))
  || ((0x41 <=? byte_val c) && (byte_val c <=? 0x46)).

(** [s.pushParseState(c, newParseState, successState)] *)
Definition pushParseState (s : scanner) (newParseState : parseKind)
    (successState : opcode) : scanner * opcode :=
  let s' := mkScanner (step s) (endTop s) (newParseState :: parseState s) (err s) in
  if Z.of_nat (length (parseState s')) <=? maxNestingDepth then (s', successState)
  else error_ s'.

(** [s.popParseState()] *)
Definition popParseState (s : scanner) : scanner :=
  match parseState s with
  | [] => s
  | _ :: rest =>
    match rest with
    | [] => mkScanner stateEndTop true rest (err s)
    | _ => mkScanner stateEndValue (endTop s) rest (err s)
    end
  end.

Definition replace_top (s : scanner) (k : parseKind) : scanner :=
  mkScanner (step s) (endTop s) (k :: tail (parseState s)) (err s).

Definition do_stateEndTop (s : scanner) (c : ascii) : scanner * opcode :=
  if isSpace c then (s, scanEnd) else (fst (error_ s), scanEnd).

Definition do_stateEndValue (s : scanner) (c : ascii) : scanner * opcode :=
  match parseState s with
  | [] => do_stateEndTop (mkScanner stateEndTop true [] (err s)) c
  | ps :: _ =>
    if isSpace c then (set_step s stateEndValue, scanSkipSpace)
    else
      match ps with
      | parseObjectKey =>
        if Ascii.eqb c ":"%char
        then (set_step (replace_top s parseObjectValue) stateBeginValue, scanObjectKey)
        else error_ s
      | parseObjectValue =>
        if Ascii.eqb c ","%char
        then (set_step (replace_top s parseObjectKey) stateBeginString, scanObjectValue)
        else if Ascii.eqb c "}"%char then (popParseState s, scanEndObject)
        else error_ s
      | parseArrayValue =>
        if Ascii.eqb c ","%char then (set_step s stateBeginValue, scanArrayValue)
        else if Ascii.eqb c "]"%char then (popParseState s, scanEndArray)
        else error_ s
      end
  end.

Definition do_stateBeginValue (s : scanner) (c : ascii) : scanner * opcode :=
  if isSpace c then (s, scanSkipSpace)
  else if Ascii.eqb c "{"%char
  then pushParseState (set_step s stateBeginStringOrEmpty) parseObjectKey scanBeginObject
  else if Ascii.eqb c "["%char
  then pushParseState (set_step s stateBeginValueOrEmpty) parseArrayValue scanBeginArray
  else if Ascii.eqb c dquote then (set_step s stateInString, scanBeginLiteral)
  else if Ascii.eqb c "-"%char then (set_step s stateNeg, scanBeginLiteral)
  else if Ascii.eqb c "0"%char then (set_step s state0, scanBeginLiteral)
  else if Ascii.eqb c "t"%char then (set_step s stateT, scanBeginLiteral)
  else if Ascii.eqb c "f"%char then (set_step s stateF, scanBeginLiteral)
  else if Ascii.eqb c "n"%char then (set_step s stateN, scanBeginLiteral)
  else if isDigit19 c then (set_step s state1, scanBeginLiteral)
  else error_ s.

Definition do_stateBeginValueOrEmpty (s : scanner) (c : ascii) : scanner * opcode :=
  if isSpace c then (s, scanSkipSpace)
  else if Ascii.eqb c "]"%char then do_stateEndValue s c
  else do_stateBeginValue s c.

Definition do_stateBeginString (s : scanner) (c : ascii) : scanner * opcode :=
  if isSpace c then (s, scanSkipSpace)
  else if Ascii.eqb c dquote then (set_step s stateInString, scanBeginLiteral)
  else error_ s.

Definition do_stateBeginStringOrEmpty (s : scanner) (c : ascii) : scanner * opcode :=
  if isSpace c then (s, scanSkipSpace)
  else if Ascii.eqb c "}"%char
  then do_stateEndValue (replace_top s parseObjectValue) c
  else do_stateBeginString s c.

Definition do_stateInString (s : scanner) (c : ascii) : scanner * opcode :=
  if Ascii.eqb c dquote then (set_step s stateEndValue, scanContinue)
  else if Ascii.eqb c bslash then (set_step s stateInStringEsc, scanContinue)
  else if byte_val c <? 0x20 then error_ s
  else (s, scanContinue).

Definition do_stateInStringEsc (s : scanner) (c : ascii) : scanner * opcode :=
  if Ascii.eqb c "b"%char || Ascii.eqb c "f"%char || Ascii.eqb c "n"%char
     || Ascii.eqb c "r"%char || Ascii.eqb c "t"%char || Ascii.eqb c bslash
     || Ascii.eqb c "/"%char || Ascii.eqb c dquote
  then (set_step s stateInString, scanContinue)
  else if Ascii.eqb c "u"%char then (set_step s stateInStringEscU, scanContinue)
  else error_ s.

(** [stateInStringEscU], [...U1], [...U12], [...U123]: a hexadecimal digit
    leads to [next]. *)
Definition do_hex (next : stepFn) (s : scanner) (c : ascii) : scanner * opcode :=
  if isHex c then (set_step s next, scanContinue) else error_ s.

Definition do_state0 (s : scanner) (c : ascii) : scanner * opcode :=
  if Ascii.eqb c "."%char then (set_step s stateDot, scanContinue)
  else if Ascii.eqb c "e"%char || Ascii.eqb c "E"%char then (set_step s stateE, scanContinue)
  else do_stateEndValue s c.

Definition do_state1 (s : scanner) (c : ascii) : scanner * opcode :=
  if isDigit c then (set_step s state1, scanContinue) else do_state0 s c.

Definition do_stateNeg (s : scanner) (c : ascii) : scanner * opcode :=
  if Ascii.eqb c "0"%char then (set_step s state0, scanContinue)
  else if isDigit19 c then (set_step s state1, scanContinue)
  else error_ s.

Definition do_stateDot (s : scanner) (c : ascii) : scanner * opcode :=
  if isDigit c then (set_step s stateDot0, scanContinue) else error_ s.

Definition do_stateDot0 (s : scanner) (c : ascii) : scanner * opcode :=
  if isDigit c then (s, scanContinue)
  else if Ascii.eqb c "e"%char || Ascii.eqb c "E"%char then (set_step s stateE, scanContinue)
  else do_stateEndValue s c.

Definition do_stateESign (s : scanner) (c : ascii) : scanner * opcode :=
  if isDigit c then (set_step s stateE0, scanContinue) else error_ s.

Definition do_stateE (s : scanner) (c : ascii) : scanner * opcode :=
  if Ascii.eqb c "+"%char || Ascii.eqb c "-"%char then (set_step s stateESign, scanContinue)
  else do_stateESign s c.

Definition do_stateE0 (s : scanner) (c : ascii) : scanner * opcode :=
  if isDigit c then (s, scanContinue) else do_stateEndValue s c.

(** The states inside [true], [false] and [null]: the byte [want] leads
    to [next]. *)
Definition do_lit (want : ascii) (next : stepFn) (s : scanner) (c : ascii)
    : scanner * opcode :=
  if Ascii.eqb c want then (set_step s next, scanContinue) else error_ s.

(** [s.step(s, c)] *)
Definition scan_step (s : scanner) (c : ascii) : scanner * opcode :=
  match step s with
  | stateBeginValueOrEmpty => do_stateBeginValueOrEmpty s c
  | stateBeginValue => do_stateBeginValue s c
  | stateBeginStringOrEmpty => do_stateBeginStringOrEmpty s c
  | stateBeginString => do_stateBeginString s c
  | stateEndValue => do_stateEndValue s c
  | stateEndTop => do_stateEndTop s c
  | stateInString => do_stateInString s c
  | stateInStringEsc => do_stateInStringEsc s c
  | stateInStringEscU => do_hex stateInStringEscU1 s c
  | stateInStringEscU1 => do_hex stateInStringEscU12 s c
  | stateInStringEscU12 => do_hex stateInStringEscU123 s c
  | stateInStringEscU123 => do_hex stateInString s c
  | stateNeg => do_stateNeg s c
  | state1 => do_state1 s c
  | state0 => do_state0 s c
  | stateDot => do_stateDot s c
  | stateDot0 => do_stateDot0 s c
  | stateE => do_stateE s c
  | stateESign => do_stateESign s c
  | stateE0 => do_stateE0 s c
  | stateT => do_lit "r"%char stateTr s c
  | stateTr => do_lit "u"%char stateTru s c
  | stateTru => do_lit "e"%char stateEndValue s c
  | stateF => do_lit "a"%char stateFa s c
  | stateFa => do_lit "l"%char stateFal s c
  | stateFal => do_lit "s"%char stateFals s c
  | stateFals => do_lit "e"%char stateEndValue s c
  | stateN => do_lit "u"%char stateNu s c
  | stateNu => do_lit "l"%char stateNul s c
  | stateNul => do_lit "l"%char stateEndValue s c
  | stateError => (s, scanError)
  end.

(** [s.eof()] *)
Definition eof (s : scanner) : scanner * opcode :=
  if err s then (s, scanError)
  else if endTop s then (s, scanEnd)
  else
    let s' := fst (scan_step s " "%char) in
    if endTop s' then (s', scanEnd)
    else (mkScanner (step s') (endTop s') (parseState s') true, scanError).

Definition is_scanError (v : opcode) : bool :=
  match v with scanError => true | _ => false end.

(** The loop of [checkValid]: [None] when a step returns [scanError]. *)
Fixpoint checkValid_loop (s : scanner) (data : bytes) : option scanner :=
  match data with
  | [] => Some s
  | c :: data' =>
    let '(s', v) := scan_step s c in
    if is_scanError v then None else checkValid_loop s' data'
  end.

(** [checkValid(data, scan)]: [true] when [data] is one JSON value. *)
Definition checkValid (data : bytes) : bool :=
  match checkValid_loop reset data with
  | None => false
  | Some s => negb (is_scanError (snd (eof s)))
  end.

(** *** [indent.go] *)

(** [appendNewline(dst, prefix, indent, depth)] *)
Definition appendNewline (prefix indent : bytes) (depth : Z) : bytes :=
  newline :: prefix ++ concat (replicate (Z.to_nat depth) indent).

(** The variables of the loop of [appendIndent]. *)
Record indenter := mkIndenter {
  iscan : scanner;
  needIndent : bool;
  depth : Z;
}.

Definition is_end (v : opcode) : bool :=
  match v with scanEndObject | scanEndArray => true | _ => false end.

(** One iteration of the loop of [appendIndent] on the byte [c]: the bytes
    appended to [dst], the variables after it, and whether the loop
    breaks. *)
Definition appendIndent_byte (prefix indent : bytes) (st : indenter) (c : ascii)
    : bytes * indenter * bool :=
  let '(scan, v) := scan_step (iscan st) c in
  match v with
  | scanSkipSpace => ([], mkIndenter scan (needIndent st) (depth st), false)
  | scanError => ([], mkIndenter scan (needIndent st) (depth st), true)
  | _ =>
    let opening := needIndent st && negb (is_end v) in
    let need := if opening then false else needIndent st in
    let d := if opening then depth st + 1 else depth st in
    let pre := if opening then appendNewline prefix indent d else [] in
    match v with
    | scanContinue => (pre ++ [c], mkIndenter scan need d, false)
    | _ =>
      if Ascii.eqb c "{"%char || Ascii.eqb c "["%char then
        (pre ++ [c], mkIndenter scan true d, false)
      else if Ascii.eqb c ","%char then
        (pre ++ c :: appendNewline prefix indent d, mkIndenter scan need d, false)
      else if Ascii.eqb c ":"%char then
        (pre ++ [c; " "%char], mkIndenter scan need d, false)
      else if Ascii.eqb c "}"%char || Ascii.eqb c "]"%char then
        if need then (pre ++ [c], mkIndenter scan false d, false)
        else (pre ++ appendNewline prefix indent (d - 1) ++ [c],
              mkIndenter scan need (d - 1), false)
      else (pre ++ [c], mkIndenter scan need d, false)
    end
  end.

Fixpoint appendIndent_loop (prefix indent : bytes) (st : indenter) (src : bytes)
    : bytes * indenter :=
  match src with
  | [] => ([], st)
  | c :: src' =>
    let '(out, st', stop) := appendIndent_byte prefix indent st c in
    if stop then (out, st')
    else
      let '(out', st'') := appendIndent_loop prefix indent st' src' in
      (out ++ out', st'')
  end.

(** [appendIndent(dst, src, prefix, indent)] on an empty [dst]. *)
Definition appendIndent (src prefix indent : bytes) : bytes * option error :=
  let '(out, st) := appendIndent_loop prefix indent (mkIndenter reset false 0) src in
  if is_scanError (snd (eof (iscan st))) then ([], Some SyntaxError)
  else (out, None).

(** [MarshalIndent(v, prefix, indent)], given [Marshal(v)]. *)
Definition MarshalIndent_of (marshalled : bytes * option error) (prefix indent : bytes)
    : bytes * option error :=
  match marshalled with
  | (_, Some e) => ([], Some e)
  | (b, None) =>
    match appendIndent b prefix indent with
    | (_, Some e) => ([], Some e)
    | (b2, None) => (b2, None)
    end
  end.

(** *** Decoding: [decode.go], [fold.go] *)

Definition hexval (c : ascii) : option Z :=
  let b := byte_val c in
  if (0x30 <=? b) && (b <=? 0x39) then Some (b - 0x30)
  else if (0x61 <=? b) && (b <=? 0x66) then Some (b - 0x61 + 10)
  else if (0x41 <=? b) && (b <=? 0x46) then Some (b - 0x41 + 10)
  else None.

(** [getu4(s)]: the rune of a leading [\uXXXX], or [-1]. *)
Definition getu4 (s : bytes) : Z :=
  match s with
  | c0 :: c1 :: h0 :: h1 :: h2 :: h3 :: _ =>
    if Ascii.eqb c0 bslash && Ascii.eqb c1 "u"%char then
      match hexval h0, hexval h1, hexval h2, hexval h3 with
      | Some a, Some b, Some c, Some d => ((a * 16 + b) * 16 + c) * 16 + d
      | _, _, _, _ => -1
      end
    else -1
  | _ => -1
  end.

(** The first loop of [unquoteBytes]: the index of the first byte that
    needs work (a backslash, a quote, a control character or an invalid
    encoding), or the length of [s]. *)
Fixpoint unquote_scan (fuel : nat) (s : bytes) : nat :=
  match fuel with
  | O => O
  | S fuel' =>
    match s with
    | [] => O
    | c :: rest =>
      if Ascii.eqb c bslash || Ascii.eqb c dquote || (byte_val c <? 0x20) then O
      else if byte_val c <? utf8.RuneSelf then S (unquote_scan fuel' rest)
      else
        let '(rr, size) := utf8.DecodeRune s in
        if (rr =? utf8.RuneError) && (size =? 1)%nat then O
        else (size + unquote_scan fuel' (drop size s))%nat
    end
  end.

(** The second loop of [unquoteBytes], from its index [r]: the bytes
    written to [b], or [None] where the source returns [ok = false]. *)
Fixpoint unquote_loop (fuel : nat) (s : bytes) : option bytes :=
  match fuel with
  | O => match s with [] => Some [] | _ => None end
  | S fuel' =>
    match s with
    | [] => Some []
    | c :: rest =>
      if Ascii.eqb c bslash then
        match rest with
        | [] => None
        | e :: rest' =>
          if Ascii.eqb e dquote || Ascii.eqb e bslash || Ascii.eqb e "/"%char
             || Ascii.eqb e "'"%char
          then cons e <$> unquote_loop fuel' rest'
          else if Ascii.eqb e "b"%char then cons (ascii_of_nat 8) <$> unquote_loop fuel' rest'
          else if Ascii.eqb e "f"%char then cons (ascii_of_nat 12) <$> unquote_loop fuel' rest'
          else if Ascii.eqb e "n"%char then cons (ascii_of_nat 10) <$> unquote_loop fuel' rest'
          else if Ascii.eqb e "r"%char then cons (ascii_of_nat 13) <$> unquote_loop fuel' rest'
          else if Ascii.eqb e "t"%char then cons (ascii_of_nat 9) <$> unquote_loop fuel' rest'
          else if Ascii.eqb e "u"%char then
            let rr := getu4 s in
            if rr <? 0 then None
            else
              let s6 := drop 6 s in
              if utf16.IsSurrogate rr then
                let dec := utf16.DecodeRune rr (getu4 s6) in
                if negb (dec =? utf16.replacementChar) then
                  app (utf8.EncodeRune dec) <$> unquote_loop fuel' (drop 6 s6)
                else
                  app (utf8.EncodeRune utf16.replacementChar) <$> unquote_loop fuel' s6
              else app (utf8.EncodeRune rr) <$> unquote_loop fuel' s6
          else None
        end
      else if Ascii.eqb c dquote || (byte_val c <? 0x20) then None
      else if byte_val c <? utf8.RuneSelf then cons c <$> unquote_loop fuel' rest
      else
        let '(rr, size) := utf8.DecodeRune s in
        app (utf8.EncodeRune rr) <$> unquote_loop fuel' (drop size s)
    end
  end.

(** [unquoteBytes(s)]: the string that the literal [s], with its quotes,
    denotes. *)
Definition unquoteBytes (lit : bytes) : option bytes :=
  match lit with
  | q :: body_q =>
    if (length lit <? 2)%nat || negb (Ascii.eqb q dquote)
       || negb (Ascii.eqb (List.last lit "0"%char) dquote)
    then None
    else
      let s := take (length body_q - 1) body_q in
      let r := unquote_scan (length s) s in
      if (r =? length s)%nat then Some s
      else app (take r s) <$> unquote_loop (length s) (drop r s)
  | [] => None
  end.

(** A JSON value as the decoder walks it; a string is held unquoted, a
    number as its literal, the members of an object in their order. *)
Inductive value : Type :=
| JNull
| JBool (b : bool)
| JNumber (lit : bytes)
| JString (s : bytes)
| JArray (l : list value)
| JObject (members : list (bytes * value)).

(** The value of a literal, by its first byte as in [literalStore]. *)
Definition literal_value (lit : bytes) : option value :=
  match lit with
  | [] => None
  | c :: _ =>
    if Ascii.eqb c "n"%char then Some JNull
    else if Ascii.eqb c "t"%char then Some (JBool true)
    else if Ascii.eqb c "f"%char then Some (JBool false)
    else if Ascii.eqb c dquote then JString <$> unquoteBytes lit
    else Some (JNumber lit)
  end.

(** An array or an object that the decoder is inside of, with the values
    read so far (last first) and, in an object, the key that waits for its
    value. *)
Inductive frame : Type :=
| FArray (done : list value)
| FObject (done : list (bytes * value)) (key : option bytes).

(** The decoder while it walks the input: the scanner, the literal that is
    being read ([d.data[start:d.readIndex()]]), the enclosing arrays and
    objects, and the top-level value once it is complete. [None] stands
    for the decoder's [panic(phasePanicMsg)]. *)
Record walker := mkWalker {
  wscan : scanner;
  wlit : option bytes;
  wstack : list frame;
  wresult : option value;
}.

Definition deliver (v : value) (stack : list frame) (result : option value)
    : option (list frame * option value) :=
  match stack with
  | [] => Some ([], Some v)
  | FArray done :: st => Some (FArray (v :: done) :: st, result)
  | FObject done None :: st =>
    match v with
    | JString k => Some (FObject done (Some k) :: st, result)
    | _ => None
    end
  | FObject done (Some k) :: st => Some (FObject ((k, v) :: done) None :: st, result)
  end.

(** The literal in progress ends: its value goes to the enclosing
    array or object. *)
Definition close_literal (w : walker) : option walker :=
  match wlit w with
  | None => Some w
  | Some lit =>
    v ← literal_value lit;
    '(st, res) ← deliver v (wstack w) (wresult w);
    Some (mkWalker (wscan w) None st res)
  end.

(** One byte of the input. *)
Definition walk_byte (w : walker) (c : ascii) : option walker :=
  let '(scan, v) := scan_step (wscan w) c in
  match v with
  | scanError => None
  | scanContinue =>
    match wlit w with
    | Some lit => Some (mkWalker scan (Some (lit ++ [c])) (wstack w) (wresult w))
    | None => None
    end
  | _ =>
    w1 ← close_literal w;
    match v with
    | scanBeginLiteral => Some (mkWalker scan (Some [c]) (wstack w1) (wresult w1))
    | scanBeginObject =>
      Some (mkWalker scan None (FObject [] None :: wstack w1) (wresult w1))
    | scanBeginArray =>
      Some (mkWalker scan None (FArray [] :: wstack w1) (wresult w1))
    | scanEndObject =>
      match wstack w1 with
      | FObject done None :: st =>
        '(st', res) ← deliver (JObject (rev done)) st (wresult w1);
        Some (mkWalker scan None st' res)
      | _ => None
      end
    | scanEndArray =>
      match wstack w1 with
      | FArray done :: st =>
        '(st', res) ← deliver (JArray (rev done)) st (wresult w1);
        Some (mkWalker scan None st' res)
      | _ => None
      end
    | _ => Some (mkWalker scan None (wstack w1) (wresult w1))
    end
  end.

Fixpoint walk (w : walker) (data : bytes) : option walker :=
  match data with
  | [] => Some w
  | c :: data' => w' ← walk_byte w c; walk w' data'
  end.

(** The value that the decoder walks over in [data]; the input ends as in
    [s.eof()], with a space. *)
Definition parse (data : bytes) : option value :=
  w ← walk (mkWalker reset None [] None) data;
  w' ← (if endTop (wscan w) then Some w else walk_byte w " "%char);
  wresult w'.

(** [foldRune(r)], on the orbits of [unicode.SimpleFold] that hold an ASCII
    letter: those of [K] (with U+212A) and [S] (with U+017F). Any other
    rune outside ASCII folds to a rune outside ASCII and is left as it
    is. *)
Definition foldRune (r : Z) : Z :=
  if r =? 0x17F then 0x53
  else if r =? 0x212A then 0x4B
  else r.

(** [appendFoldedName(out, in)] *)
Fixpoint foldName_loop (fuel : nat) (s : bytes) : bytes :=
  match fuel with
  | O => []
  | S fuel' =>
    match s with
    | [] => []
    | c :: rest =>
      let b := byte_val c in
      if b <? utf8.RuneSelf then
        (if (0x61 <=? b) && (b <=? 0x7A) then byte_of (b - 0x20) else c)
          :: foldName_loop fuel' rest
      else
        let '(r, n) := utf8.DecodeRune s in
        utf8.EncodeRune (foldRune r) ++ foldName_loop fuel' (drop n s)
    end
  end.

Definition foldName (s : bytes) : bytes := foldName_loop (length s) s.

(** The field that the key of an object member names: the field with
    exactly that name, or else the field with the same folded name. *)
Definition find_field {F} (names : list (bytes * F)) (key : bytes) : option F :=
  match List.find (λ nf, bool_decide (fst nf = key)) names with
  | Some nf => Some (snd nf)
  | None =>
    snd <$> List.find (λ nf, bool_decide (foldName (fst nf) = foldName key)) names
  end.

(** [d.saveError(err)]: the first error is kept. *)
Definition saveError (saved : option error) (e : error) : option error :=
  match saved with Some _ => saved | None => Some e end.

(** The kind that an [UnmarshalTypeError] reports for a value that is not
    [null]. *)
Definition kind_of (v : value) : json_kind :=
  match v with
  | JNull => KString
  | JBool _ => KBool
  | JNumber _ => KNumber
  | JString _ => KString
  | JArray _ => KArray
  | JObject _ => KObject
  end.

(** [d.value(v)] for [v] of kind [string] holding [old]. *)
Definition store_string (v : value) (old : bytes) (saved : option error)
    : bytes * option error :=
  match v with
  | JString s => (s, saved)
  | JNull => (old, saved)
  | _ => (old, saveError saved (UnmarshalTypeError (kind_of v)))
  end.

(** The element loop of [d.array(v)] for [v] of type [[]string]: element
    [i] is decoded into the element that the backing array holds at [i],
    or into a zero element past its capacity. *)
Fixpoint store_strings (l : list value) (backing : list bytes) (saved : option error)
    : list bytes * option error :=
  match l with
  | [] => ([], saved)
  | v :: l' =>
    let '(x, saved1) := store_string v (hd [] backing) saved in
    let '(xs, saved2) := store_strings l' (tl backing) saved1 in
    (x :: xs, saved2)
  end.

(** [d.value(v)] for [v] of type [[]string]. The slice is held with the
    elements of its backing array past its length ([hidden]). *)
Definition store_string_slice (v : value) (old : slice bytes) (hidden : list bytes)
    (saved : option error) : slice bytes * list bytes * option error :=
  match v with
  | JNull => (nil_slice, [], saved)
  | JArray [] => (mk_slice [], [], saved)
  | JArray l =>
    let backing := elems old ++ hidden in
    let '(xs, saved') := store_strings l backing saved in
    (mk_slice xs, drop (length l) backing, saved')
  | _ => (old, hidden, saveError saved (UnmarshalTypeError (kind_of v)))
  end.

End json.

(** ** What a call does: it returns, or it panics *)

Inductive outcome (A : Type) : Type :=
| Returns (a : A)
| Panics.
Arguments Returns {A} a.
Arguments Panics {A}.

(** ** Package [os], [fmt] and the world outside the program *)

Module os.

(** What the next [os.WriteFile] meets: no failure; a failure of
    [OpenFile], before the file is touched; or a failure of [Write] or
    [Close], after the file was truncated and [written] bytes went in. *)
Inductive write_fault : Type :=
| WriteOK
| OpenFails
| WriteFails (written : nat).

(** The world: the files that can be read, with their contents; the
    working directory of the process, when it can be determined; the
    fault that a write meets; the lines printed to the standard output,
    each the format given to [tr] and its argument. *)
Record World := mkWorld {
  files : gmap bytes bytes;
  cwd : option bytes;
  fault : write_fault;
  stdout : list (bytes * error);
}.

(** [os.ReadFile(name)] *)
Definition ReadFile (w : World) (name : bytes) : bytes * option error :=
  match files w !! name with
  | Some data => (data, None)
  | None => ([], Some ErrReadFile)
  end.

(** [os.WriteFile(name, data, perm)]: [OpenFile] with
    [O_WRONLY|O_CREATE|O_TRUNC], then [Write], then [Close]. *)
Definition WriteFile (w : World) (name data : bytes) : World * option error :=
  match fault w with
  | WriteOK =>
    (mkWorld (<[name := data]> (files w)) (cwd w) (fault w) (stdout w), None)
  | OpenFails => (w, Some ErrOpenFile)
  | WriteFails n =>
    (mkWorld (<[name := take n data]> (files w)) (cwd w) (fault w) (stdout w),
     Some ErrWrite)
  end.

(** [os.Getwd()] *)
Definition Getwd (w : World) : bytes * option error :=
  match cwd w with
  | Some dir => (dir, None)
  | None => ([], Some ErrGetwd)
  end.

(** [fmt.Println(tr(format, err))] *)
Definition Println (w : World) (format : bytes) (e : error) : World :=
  mkWorld (files w) (cwd w) (fault w) (stdout w ++ [(format, e)]).

End os.

(** ** Package [paths] ([go-paths-helper]) *)

Module paths.

(** [*paths.Path]: a path, held as a string. *)
Definition Path : Type := bytes.

(** [p.String()] *)
Definition String (p : Path) : bytes := p.

(** [*paths.Process]: a command that is run, with the directory and the
    arguments of its [exec.Cmd]. *)
Record Process := mkProcess {
  Dir : bytes;
  Args : slice bytes;
}.

(** [p.GetDir()] *)
Definition GetDir (p : Process) : bytes := Dir p.

(** [p.GetArgs()] *)
Definition GetArgs (p : Process) : slice bytes := Args p.

End paths.

(** ** Package [compilation]: [database.go] *)

Module compilation.

(** [Command] keeps track of a single run of a compile command. *)
Module Command.
Record t := mk {
  Directory : bytes;      (* `json:"directory"` *)
  Command : bytes;        (* `json:"command,omitempty"` *)
  Arguments : slice bytes; (* `json:"arguments,omitempty"` *)
  File : bytes;           (* `json:"file"` *)
}.

(** The zero value. *)
Definition zero : t := mk [] [] nil_slice [].
End Command.

(** [Database] keeps track of all the compile commands run by the
    builder. *)
Record Database := mkDatabase {
  Contents : slice Command.t;
  File : paths.Path;
}.

(** A [*Database] is the index of a database in the heap. *)
Definition ptr : Type := nat.

Record State := mkState {
  heap : list Database;
  world : os.World;
}.

(** A computation on the state that returns an [A], or panics. *)
Definition M (A : Type) : Type := State → outcome (A * State).

Definition ret {A} (a : A) : M A := λ s, Returns (a, s).

Definition bind {A B} (m : M A) (k : A → M B) : M B :=
  λ s, match m s with
       | Returns (a, s') => k a s'
       | Panics => Panics
       end.

Notation "x <- m ;; k" := (bind m (λ x, k))
  (at level 62, m at next level, right associativity).

(** [&Database{...}] *)
Definition new (d : Database) : M ptr :=
  λ s, Returns (length (heap s), mkState (heap s ++ [d]) (world s)).

(** [*db]; a pointer that holds no database is [nil]. *)
Definition load (db : ptr) : M Database :=
  λ s, match heap s !! db with
       | Some d => Returns (d, s)
       | None => Panics
       end.

(** [db.Contents = c] *)
Definition store_Contents (db : ptr) (c : slice Command.t) : M unit :=
  λ s, match heap s !! db with
       | Some d =>
         Returns (tt, mkState (<[db := mkDatabase c (File d)]> (heap s)) (world s))
       | None => Panics
       end.

Definition ReadFile (p : paths.Path) : M (bytes * option error) :=
  λ s, Returns (os.ReadFile (world s) p, s).

Definition WriteFile (p : paths.Path) (data : bytes) : M (option error) :=
  λ s, let '(w, e) := os.WriteFile (world s) p data in
       Returns (e, mkState (heap s) w).

Definition Getwd : M (bytes * option error) :=
  λ s, Returns (os.Getwd (world s), s).

Definition Println (format : bytes) (e : error) : M unit :=
  λ s, Returns (tt, mkState (heap s) (os.Println (world s) format e)).

(** *** [encoding/json] at the type [[]Command] *)

(** The fields of [Command] as [structEncoder] visits them. *)
Definition Command_fields (c : Command.t) : list json.field :=
  [ json.mkField (str "directory") false
      (bool_decide (Command.Directory c = []))
      (json.stringEncoder (Command.Directory c));
    json.mkField (str "command") true
      (bool_decide (Command.Command c = []))
      (json.stringEncoder (Command.Command c));
    json.mkField (str "arguments") true
      (bool_decide (len (Command.Arguments c) = 0%nat))
      (json.sliceEncoder json.stringEncoder (Command.Arguments c));
    json.mkField (str "file") false
      (bool_decide (Command.File c = []))
      (json.stringEncoder (Command.File c)) ].

Definition encode_Command (c : Command.t) : bytes :=
  json.structEncoder (Command_fields c).

(** [json.Marshal(v)] for [v] of type [[]Command]. *)
Definition Marshal (v : slice Command.t) : bytes * option error :=
  (json.sliceEncoder encode_Command v, None).

(** [json.MarshalIndent(v, prefix, indent)] for [v] of type [[]Command]. *)
Definition MarshalIndent (v : slice Command.t) (prefix indent : bytes)
    : bytes * option error :=
  json.MarshalIndent_of (Marshal v) prefix indent.

Inductive Command_field : Type :=
| fDirectory | fCommand | fArguments | fFile.

(** The fields of [Command] by the names of their tags. *)
Definition Command_names : list (bytes * Command_field) :=
  [ (str "directory", fDirectory); (str "command", fCommand);
    (str "arguments", fArguments); (str "file", fFile) ].

(** One member of an object that is decoded into a [Command]; [hidden]
    holds the elements of the backing array of [Arguments] past its
    length. A key that names no field is skipped. *)
Definition store_member (acc : Command.t * list bytes * option error)
    (kv : bytes * json.value) : Command.t * list bytes * option error :=
  let '(c, hidden, saved) := acc in
  match json.find_field Command_names (fst kv) with
  | None => acc
  | Some fDirectory =>
    let '(x, saved') := json.store_string (snd kv) (Command.Directory c) saved in
    (Command.mk x (Command.Command c) (Command.Arguments c) (Command.File c),
     hidden, saved')
  | Some fCommand =>
    let '(x, saved') := json.store_string (snd kv) (Command.Command c) saved in
    (Command.mk (Command.Directory c) x (Command.Arguments c) (Command.File c),
     hidden, saved')
  | Some fArguments =>
    let '(x, hidden', saved') :=
      json.store_string_slice (snd kv) (Command.Arguments c) hidden saved in
    (Command.mk (Command.Directory c) (Command.Command c) x (Command.File c),
     hidden', saved')
  | Some fFile =>
    let '(x, saved') := json.store_string (snd kv) (Command.File c) saved in
    (Command.mk (Command.Directory c) (Command.Command c) (Command.Arguments c) x,
     hidden, saved')
  end.

(** [d.value(v)] for [v] of type [Command] holding [old]. *)
Definition store_Command (v : json.value) (old : Command.t) (saved : option error)
    : Command.t * option error :=
  match v with
  | json.JObject members =>
    let '(c, _, saved') := fold_left store_member members (old, [], saved) in
    (c, saved')
  | json.JNull => (old, saved)
  | _ => (old, json.saveError saved (UnmarshalTypeError (json.kind_of v)))
  end.

(** The element loop of [d.array(v)] for [v] of type [[]Command] with no
    capacity: every element is decoded into a zero [Command]. *)
Fixpoint store_Commands (l : list json.value) (saved : option error)
    : list Command.t * option error :=
  match l with
  | [] => ([], saved)
  | v :: l' =>
    let '(c, saved1) := store_Command v Command.zero saved in
    let '(cs, saved2) := store_Commands l' saved1 in
    (c :: cs, saved2)
  end.

(** [d.value(v)] for [v] of type [[]Command] holding [old], a slice with
    no capacity. *)
Definition store_slice (v : json.value) (old : slice Command.t)
    : slice Command.t * option error :=
  match v with
  | json.JNull => (nil_slice, None)
  | json.JArray l =>
    let '(cs, saved) := store_Commands l None in (mk_slice cs, saved)
  | _ => (old, Some (UnmarshalTypeError (json.kind_of v)))
  end.

(** [json.Unmarshal(data, &v)] for [v] of type [[]Command] holding [old],
    a slice with no capacity: the new [v] and the error. *)
Definition Unmarshal (data : bytes) (old : slice Command.t)
    : outcome (slice Command.t * option error) :=
  if negb (json.checkValid data) then Returns (old, Some SyntaxError)
  else
    match json.parse data with
    | Some v => Returns (store_slice v old)
    | None => Panics
    end.

(** *** The four operations *)

(** [NewDatabase] creates an empty CompilationDatabase. *)
Definition NewDatabase (filename : paths.Path) : M ptr :=
  new (mkDatabase (mk_slice []) filename).

(** [LoadDatabase] reads a compilation database from a file. *)
Definition LoadDatabase (file : paths.Path) : M (option ptr * option error) :=
  r <- ReadFile file ;;
  match r with
  | (_, Some e) => ret (None, Some e)
  | (f, None) =>
    res <- NewDatabase file ;;
    d <- load res ;;
    match Unmarshal f (Contents d) with
    | Returns (c, e) => _ <- store_Contents res c ;; ret (Some res, e)
    | Panics => λ _, Panics
    end
  end.

(** [SaveToFile], over the function that serializes the contents. *)
Definition SaveToFile_with
    (marshalIndent : slice Command.t → bytes → bytes → bytes * option error)
    (db : ptr) : M unit :=
  d <- load db ;;
  match marshalIndent (Contents d) [] (str " ") with
  | (_, Some e) => Println (str "Error serializing compilation database: %s") e
  | (jsonContents, None) =>
    e <- WriteFile (File d) jsonContents ;;
    match e with
    | Some e => Println (str "Error writing compilation database: %s") e
    | None => ret tt
    end
  end.

(** [SaveToFile] saves the CompilationDatabase to file as a
    clangd-compatible compile_commands.json. *)
Definition SaveToFile (db : ptr) : M unit := SaveToFile_with MarshalIndent db.

(** [Add] adds a new CompilationDatabase entry. *)
Definition Add (db : ptr) (target : paths.Path) (command : paths.Process) : M unit :=
  commandDir <-
    (if bool_decide (paths.GetDir command = []) then
       r <- Getwd ;;
       _ <- (match snd r with
        | Some e =>
          Println (str "Error getting current directory for compilation database: %s") e
        | None => ret tt
        end) ;;
       ret (fst r)
     else ret (paths.GetDir command)) ;;
  let entry := Command.mk commandDir [] (paths.GetArgs command) (paths.String target) in
  d <- load db ;;
  store_Contents db (append (Contents d) entry).

End compilation.

(** ** Package [properties] ([go-properties-map]) *)

Module properties.

(** [properties.Map] is a [map[string]string]; a nil map reads as the
    empty map. *)
Abbreviation Map := (gmap bytes bytes).

(** [strings.SplitN(key, ".", 2)] when [key] has a dot: the part before
    the first dot and the part after it. *)
Fixpoint split_dot (key : bytes) : option (bytes * bytes) :=
  match key with
  | [] => None
  | c :: rest =>
    if Ascii.eqb c "."%char then Some ([], rest)
    else
      match split_dot rest with
      | Some (a, b) => Some (c :: a, b)
      | None => None
      end
  end.

(** [m.FirstLevelOf()] *)
Definition FirstLevelOf (m : Map) : gmap bytes Map :=
  map_fold
    (λ key value (newMap : gmap bytes Map),
       match split_dot key with
       | None => newMap
       | Some (k0, k1) => <[k0 := <[k1 := value]> (default ∅ (newMap !! k0))]> newMap
       end)
    ∅ m.

(** [m.SubTree(rootKey)] *)
Definition SubTree (m : Map) (rootKey : bytes) : Map :=
  default ∅ (FirstLevelOf m !! rootKey).

End properties.

(** ** Package [compile]: [compile.go] *)

Module compile.

(** [strings.HasSuffix(s, suffix)] *)
Definition HasSuffix (s suffix : bytes) : bool :=
  (length suffix <=? length s)%nat
  && bool_decide (drop (length s - length suffix) s = suffix).

(** The order [<] of Go strings. *)
Fixpoint string_lt (a b : bytes) : bool :=
  match a, b with
  | [], [] => false
  | [], _ :: _ => true
  | _ :: _, [] => false
  | x :: a', y :: b' =>
    if byte_val x <? byte_val y then true
    else if byte_val y <? byte_val x then false
    else string_lt a' b'
  end.

Fixpoint insert_sorted (x : bytes) (l : list bytes) : list bytes :=
  match l with
  | [] => [x]
  | y :: l' => if string_lt x y then x :: l else y :: insert_sorted x l'
  end.

(** [sort.Strings(a)] *)
Definition sort_Strings (a : list bytes) : list bytes := foldr insert_sorted [] a.

(** The index expression [a[i]], with its bounds check. *)
Definition index {A} (a : list A) (i : Z) : outcome A :=
  if (i <? 0) || (Z.of_nat (length a) <=? i) then Panics
  else
    match a !! Z.to_nat i with
    | Some x => Returns x
    | None => Panics
    end.

(** The keys that [for k := range m] visits. *)
Definition keys (m : properties.Map) : list bytes := (map_to_list m).*1.

(** The part of [run] that follows [properties.Load], given what [Load]
    returned: [ideHardwarePath] when the preferences were loaded. *)
Definition run_ide_lookup (loaded : properties.Map * option error)
    : outcome (option bytes) :=
  let '(ideProperties, err) := loaded in
  match err with
  | Some _ => Returns None
  | None =>
    let lastIdeSubProperties :=
      properties.SubTree (properties.SubTree ideProperties (str "last")) (str "ide") in
    let pathVariants :=
      List.filter (λ k, HasSuffix k (str ".hardwarepath")) (keys lastIdeSubProperties) in
    let pathVariants := sort_Strings pathVariants in
    match index pathVariants (Z.of_nat (length pathVariants) - 1) with
    | Returns k => Returns (Some (default [] (lastIdeSubProperties !! k)))
    | Panics => Panics
    end
  end.

End compile.

(** * Specification *)

(** ** Definitions that the statements use *)

Import compilation.

(** The entry that [Add] builds in the world [w]. *)
Definition entry_of (w : os.World) (target : paths.Path) (command : paths.Process)
    : Command.t :=
  Command.mk
    (if bool_decide (paths.GetDir command = []) then fst (os.Getwd w)
     else paths.GetDir command)
    [] (paths.GetArgs command) (paths.String target).

(** The world after [Add]: a line is printed when the working directory is
    looked up and the lookup fails. *)
Definition world_after_Add (w : os.World) (command : paths.Process) : os.World :=
  if bool_decide (paths.GetDir command = []) then
    match snd (os.Getwd w) with
    | Some e =>
      os.Println w (str "Error getting current directory for compilation database: %s") e
    | None => w
    end
  else w.

(** A sequence of calls of [Add] on one database, in the order of the list. *)
Fixpoint Add_all (db : ptr) (calls : list (paths.Path * paths.Process)) : M unit :=
  match calls with
  | [] => ret tt
  | call :: calls' => _ <- Add db call.1 call.2 ;; Add_all db calls'
  end.

(** The claim that [SaveToFile] leaves its file either with the whole
    serialization or as it was. *)
Definition SaveToFile_is_atomic : Prop :=
  ∀ s db d s',
    heap s !! db = Some d →
    SaveToFile db s = Returns (tt, s') →
    os.files (world s') !! File d = Some (MarshalIndent (Contents d) [] (str " ")).1
    ∨ os.files (world s') !! File d = os.files (world s) !! File d.

(** *** The layout of the file *)

(** A line break followed by [d] spaces. *)
Definition nl (d : nat) : bytes := newline :: replicate d " "%char.

(** The items [xs], each on a line of its own at depth [d], with a comma
    after every item but the last. *)
Fixpoint lines (d : nat) (xs : list bytes) : bytes :=
  match xs with
  | [] => []
  | [x] => nl d ++ x
  | x :: xs' => nl d ++ x ++ ","%char :: lines d xs'
  end.

(** A key and its value: the key in quotes, a colon, a space, the value. *)
Definition member (key : string) (v : bytes) : bytes :=
  dquote :: str key ++ dquote :: ":"%char :: " "%char :: v.

(** The argument vector: one string per line. *)
Definition layout_Arguments (d : nat) (args : list bytes) : bytes :=
  "["%char :: lines (S d) (map json.stringEncoder args) ++ nl d ++ ["]"%char].

(** An entry: the keys [directory], [command], [arguments], [file] in this
    order, without [command] when it is empty and without [arguments] when
    there are none. *)
Definition layout_Command (d : nat) (c : Command.t) : bytes :=
  "{"%char ::
    lines (S d)
      ([member "directory" (json.stringEncoder (Command.Directory c))]
       ++ (if bool_decide (Command.Command c = []) then []
           else [member "command" (json.stringEncoder (Command.Command c))])
       ++ (if bool_decide (len (Command.Arguments c) = 0%nat) then []
           else [member "arguments"
                   (layout_Arguments (S d) (elems (Command.Arguments c)))])
       ++ [member "file" (json.stringEncoder (Command.File c))])
    ++ nl d ++ ["}"%char].

(** The file: a JSON array with one entry after the other. *)
Definition layout_Contents (l : list Command.t) : bytes :=
  match l with
  | [] => str "[]"
  | _ => "["%char :: lines 1 (map (layout_Command 1) l) ++ nl 0 ++ ["]"%char]
  end.

(** *** The claims that fail *)

(** Exactly one of the command string and the argument vector is
    populated. *)
Definition well_formed (c : Command.t) : Prop :=
  (Command.Command c ≠ [] ∧ len (Command.Arguments c) = 0%nat)
  ∨ (Command.Command c = [] ∧ len (Command.Arguments c) ≠ 0%nat).

(** The fields of two entries have the same values. *)
Definition same_fields (c c' : Command.t) : Prop :=
  Command.Directory c = Command.Directory c'
  ∧ Command.Command c = Command.Command c'
  ∧ elems (Command.Arguments c) = elems (Command.Arguments c')
  ∧ Command.File c = Command.File c'.

(** The claim that [SaveToFile] and then [LoadDatabase] give back the
    entries of every database whose entries are well formed (when the write
    meets no failure). *)
Definition round_trip_of_well_formed : Prop :=
  ∀ s db d,
    heap s !! db = Some d →
    Forall well_formed (elems (Contents d)) →
    os.fault (world s) = os.WriteOK →
    ∃ s1 db' s2 d',
      SaveToFile db s = Returns (tt, s1) ∧
      LoadDatabase (File d) s1 = Returns ((Some db', None), s2) ∧
      heap s2 !! db' = Some d' ∧
      Forall2 same_fields (elems (Contents d)) (elems (Contents d')).

(** The claim that [SaveToFile] writes a JSON array for every database. *)
Definition SaveToFile_writes_an_array : Prop :=
  ∀ s db d s',
    heap s !! db = Some d →
    os.fault (world s) = os.WriteOK →
    SaveToFile db s = Returns (tt, s') →
    ∃ data l,
      os.files (world s') !! File d = Some data ∧ json.parse data = Some (json.JArray l).

(** The schema of the file, as the specification gives it: an object with
    the keys [directory] and [file], both strings, and at most the keys
    [command], a string, and [arguments], an array of strings. *)
Definition is_string (v : json.value) : bool :=
  match v with json.JString _ => true | _ => false end.

Definition is_string_array (v : json.value) : bool :=
  match v with json.JArray l => forallb is_string l | _ => false end.

Definition schema_member (kv : bytes * json.value) : bool :=
  if bool_decide (kv.1 = str "directory") then is_string kv.2
  else if bool_decide (kv.1 = str "command") then is_string kv.2
  else if bool_decide (kv.1 = str "arguments") then is_string_array kv.2
  else if bool_decide (kv.1 = str "file") then is_string kv.2
  else false.

Definition schema_record (v : json.value) : bool :=
  match v with
  | json.JObject members =>
    forallb schema_member members
    && bool_decide (str "directory" ∈ members.*1)
    && bool_decide (str "file" ∈ members.*1)
  | _ => false
  end.

(** [data] is a well-formed JSON array that matches the schema. *)
Definition matches_schema (data : bytes) : bool :=
  json.checkValid data &&
  match json.parse data with
  | Some (json.JArray l) => forallb schema_record l
  | _ => false
  end.

(** The claim that [LoadDatabase] returns an error exactly when the file
    cannot be read or is not an array that matches the schema. *)
Definition LoadDatabase_error_exactly : Prop :=
  ∀ s file r s',
    LoadDatabase file s = Returns (r, s') →
    (r.2 ≠ None ↔
     (os.files (world s) !! file = None
      ∨ ∃ data, os.files (world s) !! file = Some data ∧ matches_schema data = false)).

(** The claim that every entry of a database that [LoadDatabase] returns
    is well formed. *)
Definition LoadDatabase_keeps_well_formed : Prop :=
  ∀ s file db e s' d,
    LoadDatabase file s = Returns ((Some db, e), s') →
    heap s' !! db = Some d →
    Forall well_formed (elems (Contents d)).

(** *** Runs of the encoder, of the indenter and of the decoder *)

(** [p] begins with the UTF-8 encoding of the rune [r], which is [size]
    bytes long. *)
Inductive decoded : bytes → Z → nat → Prop :=
| decoded_1 c0 t :
    byte_val c0 < 0x80 → decoded (c0 :: t) (byte_val c0) 1
| decoded_2 c0 c1 t r :
    0xC2 <= byte_val c0 <= 0xDF → 0x80 <= byte_val c1 <= 0xBF →
    r = (byte_val c0 - 0xC0) * 64 + (byte_val c1 - 0x80) →
    decoded (c0 :: c1 :: t) r 2
| decoded_3 c0 c1 c2 t r :
    0xE0 <= byte_val c0 <= 0xEF → 0x80 <= byte_val c1 <= 0xBF →
    0x80 <= byte_val c2 <= 0xBF →
    r = (byte_val c0 - 0xE0) * 4096 + (byte_val c1 - 0x80) * 64 + (byte_val c2 - 0x80) →
    0x800 <= r → ¬ (0xD800 <= r <= 0xDFFF) →
    decoded (c0 :: c1 :: c2 :: t) r 3
| decoded_4 c0 c1 c2 c3 t r :
    0xF0 <= byte_val c0 <= 0xF4 → 0x80 <= byte_val c1 <= 0xBF →
    0x80 <= byte_val c2 <= 0xBF → 0x80 <= byte_val c3 <= 0xBF →
    r = (byte_val c0 - 0xF0) * 262144 + (byte_val c1 - 0x80) * 4096
        + (byte_val c2 - 0x80) * 64 + (byte_val c3 - 0x80) →
    0x10000 <= r <= 0x10FFFF →
    decoded (c0 :: c1 :: c2 :: c3 :: t) r 4.

(** The escapes of one byte that [stateInStringEsc] accepts. *)
Definition simple_escape (c : ascii) : bool :=
  Ascii.eqb c "b"%char || Ascii.eqb c "f"%char || Ascii.eqb c "n"%char
  || Ascii.eqb c "r"%char || Ascii.eqb c "t"%char || Ascii.eqb c bslash
  || Ascii.eqb c "/"%char || Ascii.eqb c dquote.

(** The bytes between the quotes of a string literal that the scanner
    accepts. *)
Inductive string_body : bytes → Prop :=
| string_body_nil : string_body []
| string_body_plain c l :
    Ascii.eqb c dquote = false → Ascii.eqb c bslash = false →
    (byte_val c <? 0x20) = false →
    string_body l → string_body (c :: l)
| string_body_escape e l :
    simple_escape e = true → string_body l → string_body (bslash :: e :: l)
| string_body_u h0 h1 h2 h3 l :
    json.isHex h0 = true → json.isHex h1 = true → json.isHex h2 = true →
    json.isHex h3 = true →
    string_body l → string_body (bslash :: "u"%char :: h0 :: h1 :: h2 :: h3 :: l).

(** A run of the loop of [appendIndent] that does not break, with no prefix
    and an indent of one space: from the variables [st], the bytes [src]
    append [out] and leave the variables [st']. *)
Inductive irun : json.indenter → bytes → bytes → json.indenter → Prop :=
| irun_nil st : irun st [] [] st
| irun_cons st c src out st1 out' st' :
    json.appendIndent_byte [] (str " ") st c = (out, st1, false) →
    irun st1 src out' st' →
    irun st (c :: src) (out ++ out') st'.

(** The scanner reads [l] from [s] to [s'] and every step returns
    [scanContinue]. *)
Inductive cont_run : json.scanner → bytes → json.scanner → Prop :=
| cont_run_nil s : cont_run s [] s
| cont_run_cons s c s1 l s' :
    json.scan_step s c = (s1, json.scanContinue) →
    cont_run s1 l s' → cont_run s (c :: l) s'.

(** A scanner that has met no error and is not past the top-level value,
    and the variables of [appendIndent] with such a scanner. *)
Definition Sc (f : json.stepFn) (ps : list json.parseKind) : json.scanner :=
  json.mkScanner f false ps false.

Definition Ind (f : json.stepFn) (ps : list json.parseKind) (need : bool) (d : Z)
    : json.indenter :=
  json.mkIndenter (Sc f ps) need d.

(** A key in quotes. *)
Definition quoted (k : string) : bytes := dquote :: str k ++ [dquote].

(** The elements after the first, each after a comma: in [Marshal], and
    in the layout at depth [d]. *)
Definition more (xs : list bytes) : bytes := concat (map (cons ","%char) xs).

Definition more_lines (d : nat) (xs : list bytes) : bytes :=
  concat (map (λ x, ","%char :: nl d ++ x) xs).

(** A string literal where a value or a key may begin. *)
Definition begins (f : json.stepFn) : Prop :=
  f = json.stateBeginValue ∨ f = json.stateBeginValueOrEmpty
  ∨ f = json.stateBeginString ∨ f = json.stateBeginStringOrEmpty.

(** The members of an entry after [directory], in [Marshal] and in the
    layout. *)
Definition compact_command (c : Command.t) : bytes :=
  if bool_decide (Command.Command c = []) then []
  else ","%char :: quoted "command" ++ ":"%char :: json.stringEncoder (Command.Command c).

Definition compact_arguments (c : Command.t) : bytes :=
  if bool_decide (len (Command.Arguments c) = 0%nat) then []
  else ","%char :: quoted "arguments" ++ ":"%char
         :: json.sliceEncoder json.stringEncoder (Command.Arguments c).

Definition layout_command (c : Command.t) : bytes :=
  if bool_decide (Command.Command c = []) then []
  else ","%char :: nl 2 ++ member "command" (json.stringEncoder (Command.Command c)).

Definition layout_arguments (c : Command.t) : bytes :=
  if bool_decide (len (Command.Arguments c) = 0%nat) then []
  else ","%char :: nl 2
         ++ member "arguments" (layout_Arguments 2 (elems (Command.Arguments c))).

(** The variables of [appendIndent] after the top-level value. *)
Definition Ind_end : json.indenter :=
  json.mkIndenter (json.mkScanner json.stateEndTop true [] false) false 0.

(** The decoder walks [src] from [w] and, once the literal that it may be
    reading is closed, is at [w']. *)
Definition wrun (w : json.walker) (src : bytes) (w' : json.walker) : Prop :=
  ∃ w1, json.walk w src = Some w1 ∧ json.close_literal w1 = Some w'.

(** The scanner does not continue a literal with the first byte of [b]. *)
Definition starts_nc (s : json.scanner) (b : bytes) : Prop :=
  match b with
  | [] => True
  | c :: _ => snd (json.scan_step s c) ≠ json.scanContinue
  end.

(** Every string of the entry is valid UTF-8. *)
Definition valid_Command (c : Command.t) : Prop :=
  utf8.ValidString (Command.Directory c) = true
  ∧ utf8.ValidString (Command.Command c) = true
  ∧ Forall (λ x, utf8.ValidString x = true) (elems (Command.Arguments c))
  ∧ utf8.ValidString (Command.File c) = true.

(** The JSON value that [SaveToFile] writes for an entry. *)
Definition value_of_Command (c : Command.t) : json.value :=
  json.JObject
    ([(str "directory", json.JString (Command.Directory c))]
     ++ (if bool_decide (Command.Command c = []) then []
         else [(str "command", json.JString (Command.Command c))])
     ++ (if bool_decide (len (Command.Arguments c) = 0%nat) then []
         else [(str "arguments",
                json.JArray (map json.JString (elems (Command.Arguments c))))])
     ++ [(str "file", json.JString (Command.File c))]).

(** The entry that [LoadDatabase] reads back: arguments that are empty come
    back as nil. *)
Definition reloaded (c : Command.t) : Command.t :=
  Command.mk (Command.Directory c) (Command.Command c)
    (if bool_decide (len (Command.Arguments c) = 0%nat) then nil_slice
     else Command.Arguments c)
    (Command.File c).

Definition reloaded_slice (v : slice Command.t) : slice Command.t :=
  match v with
  | nil_slice => nil_slice
  | mk_slice l => mk_slice (map reloaded l)
  end.

(** The decoder after the top-level value [v]. *)
Definition W_end (v : json.value) : json.walker :=
  json.mkWalker (json.mkScanner json.stateEndTop true [] false) None [] (Some v).

Definition W (f : json.stepFn) (ps : list json.parseKind) (stk : list json.frame)
    (res : option json.value) : json.walker :=
  json.mkWalker (Sc f ps) None stk res.

(** Short names for the states of the scanner that the runs below name
    most. *)
Abbreviation A_ := json.parseArrayValue.
Abbreviation OK_ := json.parseObjectKey.
Abbreviation OV_ := json.parseObjectValue.
Abbreviation EV_ := json.stateEndValue.
Abbreviation BV_ := json.stateBeginValue.

(** *** What [SaveToFile] writes, and the invariant of the entries *)

(** The serialization of the contents of a database. *)
Definition serialized (v : slice Command.t) : bytes :=
  match v with
  | nil_slice => str "null"
  | mk_slice l => layout_Contents l
  end.

(** Every entry of every database is well formed. *)
Definition all_well_formed (s : State) : Prop :=
  Forall (λ d, Forall well_formed (elems (Contents d))) (heap s).

(** *** The decoder on an input that the scanner accepts *)

(** An array or an object of the decoder that waits for a value, with the
    state that the scanner holds for it. *)
Definition waits (fr : json.frame) (k : json.parseKind) : Prop :=
  match fr, k with
  | json.FArray _, json.parseArrayValue => True
  | json.FObject _ (Some _), json.parseObjectValue => True
  | _, _ => False
  end.

(** The same once the value, or the key, has come. *)
Definition settled (fr : json.frame) (k : json.parseKind) : Prop :=
  match fr, k with
  | json.FArray _, json.parseArrayValue => True
  | json.FObject _ None, json.parseObjectValue => True
  | json.FObject _ (Some _), json.parseObjectKey => True
  | _, _ => False
  end.

(** The stack of the decoder against the stack of the scanner: where a
    value begins, where a key begins, and after a value or a key. *)
Definition before_value (stk : list json.frame) (ps : list json.parseKind) : Prop :=
  Forall2 waits stk ps.

Definition before_key (stk : list json.frame) (ps : list json.parseKind) : Prop :=
  match stk, ps with
  | json.FObject _ None :: stk', json.parseObjectKey :: ps' => before_value stk' ps'
  | _, _ => False
  end.

Definition after_value (stk : list json.frame) (ps : list json.parseKind)
    (res : option json.value) : Prop :=
  match stk, ps with
  | [], [] => is_Some res
  | fr :: stk', k :: ps' => settled fr k ∧ before_value stk' ps'
  | _, _ => False
  end.

(** The bytes of a string literal after its first quote, while the scanner
    is at [f] inside the literal: whole characters and escapes, then the
    part of an escape that [f] stands for. *)
Definition in_string (f : json.stepFn) (body : bytes) : Prop :=
  ∃ b0 tail, body = b0 ++ tail ∧ string_body b0 ∧
    match f with
    | json.stateInString => tail = []
    | json.stateInStringEsc => tail = [bslash]
    | json.stateInStringEscU => tail = [bslash; "u"%char]
    | json.stateInStringEscU1 =>
      ∃ h0, tail = [bslash; "u"%char; h0] ∧ json.isHex h0 = true
    | json.stateInStringEscU12 =>
      ∃ h0 h1, tail = [bslash; "u"%char; h0; h1]
               ∧ json.isHex h0 = true ∧ json.isHex h1 = true
    | json.stateInStringEscU123 =>
      ∃ h0 h1 h2, tail = [bslash; "u"%char; h0; h1; h2]
                  ∧ json.isHex h0 = true ∧ json.isHex h1 = true ∧ json.isHex h2 = true
    | _ => False
    end.

(** What holds of the decoder at every byte of an input that the scanner
    accepts. *)
Definition walker_ok (w : json.walker) : Prop :=
  let s := json.wscan w in
  (json.endTop s = true →
   json.step s = json.stateEndTop ∨ json.step s = json.stateError)
  ∧ match json.step s with
    | json.stateBeginValue =>
      json.wlit w = None ∧ before_value (json.wstack w) (json.parseState s)
    | json.stateBeginValueOrEmpty =>
      json.wlit w = None ∧ before_value (json.wstack w) (json.parseState s)
      ∧ ∃ ps', json.parseState s = json.parseArrayValue :: ps'
    | json.stateBeginString | json.stateBeginStringOrEmpty =>
      json.wlit w = None ∧ before_key (json.wstack w) (json.parseState s)
    | json.stateEndValue =>
      ∃ w0, json.close_literal w = Some w0
            ∧ after_value (json.wstack w0) (json.parseState s) (json.wresult w0)
    | json.stateEndTop =>
      json.wlit w = None ∧ json.wstack w = [] ∧ is_Some (json.wresult w)
    | json.stateError => json.endTop s = true → is_Some (json.wresult w)
    | json.stateInString | json.stateInStringEsc | json.stateInStringEscU
    | json.stateInStringEscU1 | json.stateInStringEscU12 | json.stateInStringEscU123 =>
      ∃ body, json.wlit w = Some (dquote :: body) ∧ in_string (json.step s) body
              ∧ (before_value (json.wstack w) (json.parseState s)
                 ∨ before_key (json.wstack w) (json.parseState s))
    | _ =>
      ∃ c l, json.wlit w = Some (c :: l) ∧ Ascii.eqb c dquote = false
             ∧ before_value (json.wstack w) (json.parseState s)
    end.

(** *** The values that [Unmarshal] takes *)

(** The JSON values that [Unmarshal] stores without an error: in a
    string, a string or [null]; in [Arguments], [null] or an array of
    such; in a [Command], [null] or an object whose members that name a
    field fit the field; in the contents, [null] or an array of such. *)
Definition fits_string (v : json.value) : bool :=
  match v with json.JString _ | json.JNull => true | _ => false end.

Definition fits_strings (v : json.value) : bool :=
  match v with
  | json.JNull => true
  | json.JArray l => forallb fits_string l
  | _ => false
  end.

Definition fits_member (kv : bytes * json.value) : bool :=
  match json.find_field Command_names kv.1 with
  | None => true
  | Some fArguments => fits_strings kv.2
  | Some _ => fits_string kv.2
  end.

Definition fits_Command (v : json.value) : bool :=
  match v with
  | json.JNull => true
  | json.JObject members => forallb fits_member members
  | _ => false
  end.

Definition fits_Commands (v : json.value) : bool :=
  match v with
  | json.JNull => true
  | json.JArray l => forallb fits_Command l
  | _ => false
  end.

(** No error, or an [UnmarshalTypeError]. *)
Definition type_error_or_none (e : option error) : Prop :=
  match e with
  | None => True
  | Some (UnmarshalTypeError _) => True
  | Some _ => False
  end.

(** ** Examples *)

Definition ex_path : paths.Path := str "/out/compile_commands.json".

Definition ex_process : paths.Process :=
  paths.mkProcess [] (mk_slice [str "gcc"; str "-c"; str "main.c"]).

Definition ex_entry : Command.t :=
  Command.mk (str "/work") [] (mk_slice [str "gcc"; str "-c"; str "main.c"])
    (str "/src/main.c").

Definition ex_world : os.World :=
  os.mkWorld {[ ex_path := str "[]" ]} (Some (str "/work")) os.WriteOK [].

(** A state with one empty database. *)
Definition ex_state : State := mkState [mkDatabase (mk_slice []) ex_path] ex_world.

(** A state with a database of one entry, where the disk takes five bytes
    and then fails. *)
Definition ex_state_short_write : State :=
  mkState [mkDatabase (mk_slice [ex_entry]) ex_path]
    (os.mkWorld {[ ex_path := str "[]" ]} (Some (str "/work")) (os.WriteFails 5) []).

(** A state where the working directory cannot be determined. *)
Definition ex_state_no_cwd : State :=
  mkState [mkDatabase (mk_slice []) ex_path]
    (os.mkWorld ∅ None os.OpenFails []).

(** An entry whose directory is the single byte [0xFF]: a name that is
    not UTF-8. *)
Definition ex_entry_not_utf8 : Command.t :=
  Command.mk [byte_of 0xFF] [] (mk_slice [str "gcc"]) (str "/src/main.c").

Definition ex_state_not_utf8 : State :=
  mkState [mkDatabase (mk_slice [ex_entry_not_utf8]) ex_path] ex_world.

(** States where the file holds [null], and an array with an empty
    object. *)
Definition ex_state_null : State :=
  mkState [] (os.mkWorld {[ ex_path := str "null" ]} (Some (str "/work")) os.WriteOK []).

Definition ex_state_empty_object : State :=
  mkState [] (os.mkWorld {[ ex_path := str "[{}]" ]} (Some (str "/work")) os.WriteOK []).

(** A [preferences.txt] that was never written by an IDE. *)
Definition ex_preferences : properties.Map :=
  {[ str "editor.font" := str "Monospaced" ]}.

(** A state with a database of one entry. *)
Definition ex_state_one : State :=
  mkState [mkDatabase (mk_slice [ex_entry]) ex_path] ex_world.

(** * Properties *)

(** ** The library *)

Section utf8_facts.

Lemma byte_val_range c : 0 <= byte_val c < 256.
Proof. unfold byte_val. pose proof (N_ascii_bounded c). lia. Qed.

Lemma byte_of_val c : byte_of (byte_val c) = c.
Proof.
  unfold byte_of, byte_val. pose proof (N_ascii_bounded c).
  rewrite Z.mod_small by lia. rewrite N2Z.id. apply ascii_N_embedding.
Qed.

Lemma byte_val_of z : 0 <= z < 256 → byte_val (byte_of z) = z.
Proof.
  intros H. unfold byte_of, byte_val. rewrite Z.mod_small by lia.
  rewrite N_ascii_embedding by lia. lia.
Qed.

Lemma lor_add hi lo n :
  0 <= n → 0 <= lo < 2 ^ n → hi mod 2 ^ n = 0 → Z.lor hi lo = hi + lo.
Proof.
  intros Hn Hlo Hhi.
  rewrite <- Z.lxor_lor, Z.add_nocarry_lxor; try reflexivity.
  all: apply Z.bits_inj'; intros i Hi; rewrite Z.land_spec, Z.bits_0.
  all: destruct (Z.lt_ge_cases i n) as [Hlt|Hge].
  all: try (rewrite <- (Z.mod_pow2_bits_low hi n i) by lia; rewrite Hhi, Z.bits_0; reflexivity).
  all: rewrite <- (Z.mod_small lo (2 ^ n)) by lia; rewrite (Z.mod_pow2_bits_high lo n i) by lia; apply andb_false_r.
Qed.

Lemma land_mask a n : 0 <= n → Z.land a (2 ^ n - 1) = a mod 2 ^ n.
Proof.
  intros. replace (2 ^ n - 1) with (Z.ones n) by (rewrite Z.ones_equiv; lia).
  by apply Z.land_ones.
Qed.

Lemma land_63 a : Z.land a 0x3F = a mod 64.
Proof. apply (land_mask a 6). lia. Qed.
Lemma land_31 a : Z.land a 0x1F = a mod 32.
Proof. apply (land_mask a 5). lia. Qed.
Lemma land_15 a : Z.land a 0x0F = a mod 16.
Proof. apply (land_mask a 4). lia. Qed.
Lemma land_7 a : Z.land a 0x07 = a mod 8.
Proof. apply (land_mask a 3). lia. Qed.

Lemma first_cases p0 :
  0 <= p0 < 256 →
  (p0 < 0x80 ∧ utf8.first p0 = utf8.as_)
  ∨ ((0x80 <= p0 < 0xC2 ∨ 0xF5 <= p0) ∧ utf8.first p0 = utf8.xx)
  ∨ (0xC2 <= p0 <= 0xDF ∧ utf8.first p0 = utf8.s1)
  ∨ (p0 = 0xE0 ∧ utf8.first p0 = utf8.s2)
  ∨ ((0xE1 <= p0 <= 0xEC ∨ 0xEE <= p0 <= 0xEF) ∧ utf8.first p0 = utf8.s3)
  ∨ (p0 = 0xED ∧ utf8.first p0 = utf8.s4)
  ∨ (p0 = 0xF0 ∧ utf8.first p0 = utf8.s5)
  ∨ (0xF1 <= p0 <= 0xF3 ∧ utf8.first p0 = utf8.s6)
  ∨ (p0 = 0xF4 ∧ utf8.first p0 = utf8.s7).
Proof.
  intros H. unfold utf8.first.
  repeat (match goal with
          | |- context [?a <? ?b] => destruct (Z.ltb_spec a b)
          | |- context [?a =? ?b] => destruct (Z.eqb_spec a b)
          end); lia.
Qed.

(** The rune of a continuation-based formula, in arithmetic. *)
Lemma rune2_arith b0 b1 :
  0xC2 <= b0 <= 0xDF → 0x80 <= b1 <= 0xBF →
  Z.lor (Z.shiftl (Z.land b0 utf8.mask2) 6) (Z.land b1 utf8.maskx)
  = (b0 - 0xC0) * 64 + (b1 - 0x80).
Proof.
  intros H0 H1. unfold utf8.mask2, utf8.maskx.
  rewrite land_31, land_63, Z.shiftl_mul_pow2 by lia.
  rewrite (lor_add _ _ 6); [| lia | Z.div_mod_to_equations; lia | Z.div_mod_to_equations; lia].
  Z.div_mod_to_equations; lia.
Qed.

Lemma rune3_arith b0 b1 b2 :
  0xE0 <= b0 <= 0xEF → 0x80 <= b1 <= 0xBF → 0x80 <= b2 <= 0xBF →
  Z.lor (Z.lor (Z.shiftl (Z.land b0 utf8.mask3) 12) (Z.shiftl (Z.land b1 utf8.maskx) 6))
        (Z.land b2 utf8.maskx)
  = (b0 - 0xE0) * 4096 + (b1 - 0x80) * 64 + (b2 - 0x80).
Proof.
  intros H0 H1 H2. unfold utf8.mask3, utf8.maskx.
  rewrite land_15, !land_63, !Z.shiftl_mul_pow2 by lia.
  rewrite (lor_add (_ * 2 ^ 12) _ 12); [| lia | Z.div_mod_to_equations; lia | Z.div_mod_to_equations; lia].
  rewrite (lor_add _ _ 6); [| lia | Z.div_mod_to_equations; lia | Z.div_mod_to_equations; lia].
  Z.div_mod_to_equations; lia.
Qed.

Lemma rune4_arith b0 b1 b2 b3 :
  0xF0 <= b0 <= 0xF4 → 0x80 <= b1 <= 0xBF → 0x80 <= b2 <= 0xBF → 0x80 <= b3 <= 0xBF →
  Z.lor (Z.lor (Z.lor (Z.shiftl (Z.land b0 utf8.mask4) 18) (Z.shiftl (Z.land b1 utf8.maskx) 12))
               (Z.shiftl (Z.land b2 utf8.maskx) 6))
        (Z.land b3 utf8.maskx)
  = (b0 - 0xF0) * 262144 + (b1 - 0x80) * 4096 + (b2 - 0x80) * 64 + (b3 - 0x80).
Proof.
  intros H0 H1 H2 H3. unfold utf8.mask4, utf8.maskx.
  rewrite land_7, !land_63, !Z.shiftl_mul_pow2 by lia.
  rewrite (lor_add (_ * 2 ^ 18) _ 18); [| lia | Z.div_mod_to_equations; lia | Z.div_mod_to_equations; lia].
  rewrite (lor_add _ (_ * 2 ^ 6) 12); [| lia | Z.div_mod_to_equations; lia | Z.div_mod_to_equations; lia].
  rewrite (lor_add _ _ 6); [| lia | Z.div_mod_to_equations; lia | Z.div_mod_to_equations; lia].
  Z.div_mod_to_equations; lia.
Qed.

Arguments byte_val : simpl never.

Ltac decode_fail := let Heq := fresh in intros Heq; inversion Heq; left; split; reflexivity.

Ltac decode_if :=
  match goal with
  | |- (if ?b then _ else _) = _ → _ =>
    let E := fresh "E" in
    destruct b eqn:E; [decode_fail|];
    unfold utf8.is_cont, utf8.locb, utf8.hicb in E;
    rewrite ?negb_false_iff, ?orb_false_iff, ?andb_true_iff, ?Z.ltb_ge, ?Z.leb_le in E
  end.

Ltac decode_done lem :=
  intros Heq; inversion Heq; clear Heq; right; rewrite lem by lia;
  econstructor; eauto; lia.

Lemma DecodeRune_decoded c0 t r size :
  utf8.DecodeRune (c0 :: t) = (r, size) →
  (r = utf8.RuneError ∧ size = 1%nat) ∨ decoded (c0 :: t) r size.
Proof.
  pose proof (byte_val_range c0) as R0.
  unfold utf8.DecodeRune.
  destruct (first_cases (byte_val c0) R0)
    as [[H0 ->]|[[H0 ->]|[[H0 ->]|[[H0 ->]|[[H0 ->]|[[H0 ->]|[[H0 ->]|[[H0 ->]|[H0 ->]]]]]]]]];
    unfold utf8.as_, utf8.xx, utf8.s1, utf8.s2, utf8.s3, utf8.s4, utf8.s5, utf8.s6, utf8.s7;
    simpl.
  - intros [= <- <-]. right. by constructor.
  - decode_fail.
  - destruct t as [|c1 t]; simpl; [decode_fail|].
    decode_if. decode_done rune2_arith.
  - destruct t as [|c1 [|c2 t]]; simpl; try decode_fail.
    repeat decode_if. decode_done rune3_arith.
  - destruct t as [|c1 [|c2 t]]; simpl; try decode_fail.
    repeat decode_if. decode_done rune3_arith.
  - destruct t as [|c1 [|c2 t]]; simpl; try decode_fail.
    repeat decode_if. decode_done rune3_arith.
  - destruct t as [|c1 [|c2 [|c3 t]]]; simpl; try decode_fail.
    repeat decode_if. decode_done rune4_arith.
  - destruct t as [|c1 [|c2 [|c3 t]]]; simpl; try decode_fail.
    repeat decode_if. decode_done rune4_arith.
  - destruct t as [|c1 [|c2 [|c3 t]]]; simpl; try decode_fail.
    repeat decode_if. decode_done rune4_arith.
Qed.

Lemma DecodeRune_take4 p : utf8.DecodeRune (take utf8.UTFMax p) = utf8.DecodeRune p.
Proof.
  destruct p as [|c0 [|c1 [|c2 [|c3 [|c4 t]]]]]; try reflexivity.
  pose proof (byte_val_range c0) as R0.
  unfold utf8.UTFMax, utf8.DecodeRune. simpl take.
  destruct (first_cases (byte_val c0) R0)
    as [[H0 ->]|[[H0 ->]|[[H0 ->]|[[H0 ->]|[[H0 ->]|[[H0 ->]|[[H0 ->]|[[H0 ->]|[H0 ->]]]]]]]]];
    unfold utf8.as_, utf8.xx, utf8.s1, utf8.s2, utf8.s3, utf8.s4, utf8.s5, utf8.s6, utf8.s7;
    reflexivity.
Qed.

Ltac encode_ifs :=
  repeat match goal with
         | |- context [(?a <=? ?b)%Z] => destruct (Z.leb_spec a b); try lia
         | |- context [(?a <? ?b)%Z] => destruct (Z.ltb_spec a b); try lia
         end.

Ltac encode_byte c n :=
  rewrite <- (byte_of_val c) at 2; f_equal;
  unfold utf8.maskx, utf8.tx, utf8.t2, utf8.t3, utf8.t4;
  rewrite ?land_63, ?Z.shiftr_div_pow2 by lia;
  rewrite (lor_add _ _ n);
  [Z.div_mod_to_equations; lia | lia | Z.div_mod_to_equations; lia
   | Z.div_mod_to_equations; lia].

Lemma decoded_EncodeRune p r size :
  decoded p r size → utf8.EncodeRune r = take size p.
Proof.
  intros [c0 t H0|c0 c1 t r' H0 H1 ->|c0 c1 c2 t r' H0 H1 H2 -> Hlo Hsur
         |c0 c1 c2 c3 t r' H0 H1 H2 H3 -> Hr];
    pose proof (byte_val_range c0); unfold utf8.EncodeRune;
    rewrite Z.mod_small by lia;
    unfold utf8.rune1Max, utf8.rune2Max, utf8.rune3Max, utf8.MaxRune,
      utf8.surrogateMin, utf8.surrogateMax.
  - encode_ifs. simpl. by rewrite byte_of_val.
  - encode_ifs. simpl. f_equal; [|f_equal].
    + encode_byte c0 6.
    + encode_byte c1 7.
  - encode_ifs; simpl; unfold utf8.encode3; (f_equal; [|f_equal; [|f_equal]]).
    all: first [encode_byte c0 5 | encode_byte c1 7 | encode_byte c2 7].
  - encode_ifs; simpl; unfold utf8.encode4; (f_equal; [|f_equal; [|f_equal; [|f_equal]]]).
    all: first [encode_byte c0 4 | encode_byte c1 7 | encode_byte c2 7 | encode_byte c3 7].
Qed.

Lemma decoded_multibyte p r size c0 t :
  decoded p r size → p = c0 :: t → 0x80 <= byte_val c0 →
  (2 <= size <= 4)%nat ∧ (size <= length p)%nat
  ∧ Forall (λ c, 0x80 <= byte_val c) (take size p) ∧ 0x80 <= r.
Proof.
  intros [c0' t' H0|c0' c1 t' r' H0 H1 ->|c0' c1 c2 t' r' H0 H1 H2 -> Hlo Hsur
         |c0' c1 c2 c3 t' r' H0 H1 H2 H3 -> Hr] [= <- <-] Hhigh; simpl.
  - lia.
  - repeat split; try lia. repeat constructor; lia.
  - repeat split; try lia. repeat constructor; lia.
  - repeat split; try lia. repeat constructor; lia.
Qed.

End utf8_facts.

Arguments byte_val : simpl never.

Lemma DecodeRune_size c0 t r size :
  utf8.DecodeRune (c0 :: t) = (r, size) → (1 <= size <= 4)%nat ∧ (size <= length (c0 :: t))%nat.
Proof.
  intros H. destruct (DecodeRune_decoded _ _ _ _ H) as [[_ ->]|Hd].
  - simpl. lia.
  - inversion Hd; subst; simpl; lia.
Qed.

(** Per-byte facts, by going through the 256 bytes. *)
Ltac each_byte c := destruct c as [[] [] [] [] [] [] [] []].

Lemma safe_byte_plain c :
  json.htmlSafeSet (byte_val c) = true →
  Ascii.eqb c bslash = false ∧ Ascii.eqb c dquote = false
  ∧ (byte_val c <? 0x20) = false ∧ (byte_val c <? utf8.RuneSelf) = true.
Proof. each_byte c; vm_compute; intros; try discriminate; repeat split. Qed.

Lemma high_byte_plain c :
  0x80 <= byte_val c →
  Ascii.eqb c bslash = false ∧ Ascii.eqb c dquote = false
  ∧ (byte_val c <? 0x20) = false ∧ (byte_val c <? utf8.RuneSelf) = false.
Proof.
  intros H. assert (Hb : (0x80 <=? byte_val c) = true) by (apply Z.leb_le; lia).
  clear H. revert Hb.
  each_byte c; vm_compute; intros; try discriminate; repeat split.
Qed.

Arguments utf8.DecodeRune : simpl never.
Arguments utf8.EncodeRune : simpl never.
Arguments json.getu4 : simpl never.
Arguments json.escape_byte : simpl never.
Arguments utf16.IsSurrogate : simpl never.
Arguments utf16.DecodeRune : simpl never.

Lemma getu4_length s : 0 <= json.getu4 s → (6 <= length s)%nat.
Proof.
  destruct s as [|c0 [|c1 [|h0 [|h1 [|h2 [|h3 s]]]]]]; unfold json.getu4; simpl; lia.
Qed.

Lemma unquote_loop_fuel fuel : ∀ fuel' s,
  (length s <= fuel)%nat → (length s <= fuel')%nat →
  json.unquote_loop fuel s = json.unquote_loop fuel' s.
Proof.
  induction fuel as [|fuel IH]; intros fuel' s H1 H2.
  - destruct s; [|simpl in H1; lia]. by destruct fuel'.
  - destruct s as [|c rest]; [by destruct fuel'|].
    destruct fuel' as [|fuel']; [simpl in H2; lia|].
    simpl in H1, H2. simpl.
    destruct (Ascii.eqb c bslash).
    + destruct rest as [|e rest']; [done|]. simpl in H1, H2.
      repeat (match goal with
              | |- (if ?b then _ else _) = (if ?b then _ else _) => destruct b
              end; [f_equal; apply IH; lia|]).
      destruct (Ascii.eqb e "u"); [|done].
      destruct (json.getu4 (c :: e :: rest') <? 0) eqn:Eu; [done|].
      apply Z.ltb_ge, getu4_length in Eu.
      assert (Hd1 : (length (drop 6 (c :: e :: rest')) <= length rest' - 4)%nat)
        by (rewrite length_drop; simpl; lia).
      assert (Hd2 : (length (drop 6 (drop 6 (c :: e :: rest'))) <= length rest' - 4)%nat)
        by (rewrite !length_drop; simpl; lia).
      simpl in Eu.
      repeat (match goal with
              | |- (if ?b then _ else _) = (if ?b then _ else _) => destruct b
              end); f_equal; apply IH; rewrite ?length_drop; simpl; lia.
    + destruct (_ || _); [done|].
      destruct (_ <? _); [f_equal; apply IH; lia|].
      destruct (utf8.DecodeRune (c :: rest)) as [rr size] eqn:Ed.
      apply DecodeRune_size in Ed. f_equal. apply IH; rewrite length_drop; simpl in *; lia.
Qed.

Lemma DecodeRune_ascii c t :
  byte_val c < 0x80 → utf8.DecodeRune (c :: t) = (byte_val c, 1%nat).
Proof.
  intros H. pose proof (byte_val_range c) as R0. unfold utf8.DecodeRune.
  destruct (first_cases (byte_val c) R0)
    as [[H0 ->]|[[H0 ->]|[[H0 ->]|[[H0 ->]|[[H0 ->]|[[H0 ->]|[[H0 ->]|[[H0 ->]|[H0 ->]]]]]]]]];
    try lia.
  reflexivity.
Qed.

Ltac decode_ok :=
  repeat match goal with
         | |- (if ?b then _ else _) = _ =>
           let E := fresh "E" in
           destruct b eqn:E;
           [exfalso; unfold utf8.is_cont, utf8.locb, utf8.hicb in E;
            rewrite ?negb_true_iff, ?orb_true_iff, ?andb_false_iff, ?Z.ltb_lt, ?Z.leb_gt in E;
            lia|]
         end.

Lemma decoded_DecodeRune p r size : decoded p r size → utf8.DecodeRune p = (r, size).
Proof.
  intros [c0 t H0|c0 c1 t r' H0 H1 ->|c0 c1 c2 t r' H0 H1 H2 -> Hlo Hsur
         |c0 c1 c2 c3 t r' H0 H1 H2 H3 -> Hr].
  - by apply DecodeRune_ascii.
  - pose proof (byte_val_range c0) as R0. unfold utf8.DecodeRune.
    destruct (first_cases (byte_val c0) R0)
      as [[G0 ->]|[[G0 ->]|[[G0 ->]|[[G0 ->]|[[G0 ->]|[[G0 ->]|[[G0 ->]|[[G0 ->]|[G0 ->]]]]]]]]];
      try lia.
    unfold utf8.s1; simpl. decode_ok. by rewrite rune2_arith by lia.
  - pose proof (byte_val_range c0) as R0. unfold utf8.DecodeRune.
    destruct (first_cases (byte_val c0) R0)
      as [[G0 ->]|[[G0 ->]|[[G0 ->]|[[G0 ->]|[[G0 ->]|[[G0 ->]|[[G0 ->]|[[G0 ->]|[G0 ->]]]]]]]]];
      try lia; unfold utf8.s2, utf8.s3, utf8.s4; simpl; decode_ok;
      by rewrite rune3_arith by lia.
  - pose proof (byte_val_range c0) as R0. unfold utf8.DecodeRune.
    destruct (first_cases (byte_val c0) R0)
      as [[G0 ->]|[[G0 ->]|[[G0 ->]|[[G0 ->]|[[G0 ->]|[[G0 ->]|[[G0 ->]|[[G0 ->]|[G0 ->]]]]]]]]];
      try lia; unfold utf8.s5, utf8.s6, utf8.s7; simpl; decode_ok;
      by rewrite rune4_arith by lia.
Qed.

Lemma decoded_prefix p r size q :
  decoded p r size → decoded (take size p ++ q) r size.
Proof.
  intros [c0 t H0|c0 c1 t r' H0 H1 ->|c0 c1 c2 t r' H0 H1 H2 -> Hlo Hsur
         |c0 c1 c2 c3 t r' H0 H1 H2 H3 -> Hr]; simpl; econstructor; eauto.
Qed.

Lemma unquote_loop_bslash fuel e rest' :
  json.unquote_loop (S fuel) (bslash :: e :: rest') =
    if Ascii.eqb e dquote || Ascii.eqb e bslash || Ascii.eqb e "/"%char
       || Ascii.eqb e "'"%char
    then cons e <$> json.unquote_loop fuel rest'
    else if Ascii.eqb e "b"%char then cons (ascii_of_nat 8) <$> json.unquote_loop fuel rest'
    else if Ascii.eqb e "f"%char then cons (ascii_of_nat 12) <$> json.unquote_loop fuel rest'
    else if Ascii.eqb e "n"%char then cons (ascii_of_nat 10) <$> json.unquote_loop fuel rest'
    else if Ascii.eqb e "r"%char then cons (ascii_of_nat 13) <$> json.unquote_loop fuel rest'
    else if Ascii.eqb e "t"%char then cons (ascii_of_nat 9) <$> json.unquote_loop fuel rest'
    else if Ascii.eqb e "u"%char then
      let s := bslash :: e :: rest' in
      let rr := json.getu4 s in
      if rr <? 0 then None
      else
        let s6 := drop 6 s in
        if utf16.IsSurrogate rr then
          let dec := utf16.DecodeRune rr (json.getu4 s6) in
          if negb (dec =? utf16.replacementChar) then
            app (utf8.EncodeRune dec) <$> json.unquote_loop fuel (drop 6 s6)
          else
            app (utf8.EncodeRune utf16.replacementChar) <$> json.unquote_loop fuel s6
        else app (utf8.EncodeRune rr) <$> json.unquote_loop fuel s6
    else None.
Proof. reflexivity. Qed.

Lemma unquote_loop_plain fuel c rest :
  Ascii.eqb c bslash = false → Ascii.eqb c dquote = false → (byte_val c <? 0x20) = false →
  json.unquote_loop (S fuel) (c :: rest) =
    if byte_val c <? utf8.RuneSelf then cons c <$> json.unquote_loop fuel rest
    else
      let '(rr, size) := utf8.DecodeRune (c :: rest) in
      app (utf8.EncodeRune rr) <$> json.unquote_loop fuel (drop size (c :: rest)).
Proof. intros H1 H2 H3. simpl. by rewrite H1, H2, H3. Qed.

Lemma unquote_loop_u_bmp fuel h0 h1 h2 h3 rest rr :
  json.getu4 [bslash; "u"%char; h0; h1; h2; h3] = rr → 0 <= rr →
  utf16.IsSurrogate rr = false →
  json.unquote_loop (S fuel) (bslash :: "u"%char :: h0 :: h1 :: h2 :: h3 :: rest) =
    app (utf8.EncodeRune rr) <$> json.unquote_loop fuel rest.
Proof.
  intros Hu Hpos Hsur. rewrite unquote_loop_bslash. cbv zeta.
  change (json.getu4 (bslash :: "u"%char :: h0 :: h1 :: h2 :: h3 :: rest))
    with (json.getu4 [bslash; "u"%char; h0; h1; h2; h3]).
  rewrite Hu, Hsur. destruct (Z.ltb_spec rr 0); [lia|]. reflexivity.
Qed.

Lemma unquote_escape_byte c fuel rest :
  (byte_val c <? utf8.RuneSelf) = true → json.htmlSafeSet (byte_val c) = false →
  json.unquote_loop (S fuel) (json.escape_byte c ++ rest) = cons c <$> json.unquote_loop fuel rest.
Proof.
  each_byte c; intros H1 H2; try (vm_compute in H1; discriminate H1);
    try (vm_compute in H2; discriminate H2); clear H1 H2;
    match goal with
    | |- context [json.escape_byte ?x] =>
      let y := eval vm_compute in (json.escape_byte x) in
      change (json.escape_byte x) with y
    end;
    cbn [app]; change (Ascii false false true true true false true false) with bslash;
    rewrite unquote_loop_bslash; generalize (json.unquote_loop fuel); intros f;
    vm_compute; reflexivity.
Qed.

Lemma appendString_loop_eq fuel c rest :
  json.appendString_loop (S fuel) true (c :: rest) =
    if byte_val c <? utf8.RuneSelf then
      if json.htmlSafeSet (byte_val c)
      then c :: json.appendString_loop fuel true rest
      else json.escape_byte c ++ json.appendString_loop fuel true rest
    else
      let '(r, size) := utf8.DecodeRune (take utf8.UTFMax (c :: rest)) in
      if (r =? utf8.RuneError) && (size =? 1)%nat then
        bslash :: str "ufffd" ++ json.appendString_loop fuel true (drop size (c :: rest))
      else if (r =? 0x2028) || (r =? 0x2029) then
        bslash :: str "u202" ++ json.hex_at (Z.land r 0xF)
               :: json.appendString_loop fuel true (drop size (c :: rest))
      else take size (c :: rest) ++ json.appendString_loop fuel true (drop size (c :: rest)).
Proof.
  cbn [json.appendString_loop]. cbn [negb andb]. rewrite orb_false_r. reflexivity.
Qed.

Lemma valid_loop_eq fuel c rest :
  utf8.valid_loop (S fuel) (c :: rest) =
    let '(r, size) := utf8.DecodeRune (c :: rest) in
    if (r =? utf8.RuneError) && (size =? 1)%nat then false
    else utf8.valid_loop fuel (drop size (c :: rest)).
Proof. reflexivity. Qed.

Lemma unquote_appendString_loop fuel : ∀ s fuel2,
  (length s <= fuel)%nat → utf8.valid_loop fuel s = true →
  (length (json.appendString_loop fuel true s) <= fuel2)%nat →
  json.unquote_loop fuel2 (json.appendString_loop fuel true s) = Some s.
Proof.
  induction fuel as [|fuel IH]; intros s fuel2 Hlen Hvalid Hf2.
  - destruct s; [|simpl in Hlen; lia]. by destruct fuel2.
  - destruct s as [|c rest]; [by destruct fuel2|].
    simpl in Hlen. rewrite valid_loop_eq in Hvalid.
    rewrite appendString_loop_eq in Hf2 |- *.
    destruct (byte_val c <? utf8.RuneSelf) eqn:Hc.
    + rewrite DecodeRune_ascii in Hvalid by (by apply Z.ltb_lt).
      assert (Hne : ((byte_val c =? utf8.RuneError) && (1 =? 1)%nat) = false).
      { apply Z.ltb_lt in Hc. unfold utf8.RuneSelf, utf8.RuneError in *.
        destruct (Z.eqb_spec (byte_val c) 65533); [lia|done]. }
      rewrite Hne in Hvalid. simpl in Hvalid.
      destruct (json.htmlSafeSet (byte_val c)) eqn:Hsafe.
      * destruct (safe_byte_plain c Hsafe) as (E1 & E2 & E3 & E4).
        destruct fuel2 as [|fuel2]; [simpl in Hf2; lia|]. simpl in Hf2.
        rewrite unquote_loop_plain, E4 by done.
        rewrite IH by (done || lia). done.
      * assert (Hl : (2 <= length (json.escape_byte c))%nat).
        { unfold json.escape_byte. repeat case_match; simpl; lia. }
        rewrite length_app in Hf2.
        destruct fuel2 as [|fuel2]; [lia|].
        rewrite unquote_escape_byte by done.
        rewrite IH by (done || lia). done.
    + rewrite DecodeRune_take4 in Hf2 |- *.
      destruct (utf8.DecodeRune (c :: rest)) as [r size] eqn:Ed.
      destruct ((r =? utf8.RuneError) && (size =? 1)%nat) eqn:Herr; [done|].
      destruct (DecodeRune_decoded _ _ _ _ Ed) as [[-> ->]|Hd]; [done|].
      apply Z.ltb_ge in Hc.
      destruct (decoded_multibyte _ _ _ _ _ Hd eq_refl Hc) as (Hsz & Hszl & Hhigh & Hr).
      assert (Hdrop : (length (drop size (c :: rest)) <= fuel)%nat).
      { rewrite length_drop. simpl in *. lia. }
      pose proof (decoded_EncodeRune _ _ _ Hd) as Henc.
      destruct ((r =? 0x2028) || (r =? 0x2029)) eqn:Hls.
      * unfold str in Hf2 |- *. cbn [list_ascii_of_string app] in Hf2 |- *.
        destruct fuel2 as [|fuel2]; [simpl in Hf2; lia|]. simpl in Hf2.
        apply orb_true_iff in Hls as [Hr'|Hr']; apply Z.eqb_eq in Hr'; subst r.
        all: rewrite (unquote_loop_u_bmp _ _ _ _ _ _ _ eq_refl) by (vm_compute; done).
        all: rewrite (IH (drop size (c :: rest)) fuel2) by (done || lia).
        all: rewrite <- (take_drop size (c :: rest)) at 2; rewrite <- Henc; reflexivity.
      * assert (Htake : take size (c :: rest) = c :: take (size - 1) rest).
        { destruct size; [lia|]. simpl. by rewrite Nat.sub_0_r. }
        rewrite length_app in Hf2.
        assert (Hlt : length (take size (c :: rest)) = size) by (rewrite length_take; lia).
        destruct fuel2 as [|fuel2]; [lia|].
        pose proof (decoded_DecodeRune _ _ _
                      (decoded_prefix _ _ _ (json.appendString_loop fuel true (drop size (c :: rest))) Hd))
          as Hd'.
        destruct (high_byte_plain c Hc) as (E1 & E2 & E3 & E4).
        revert Hd'. rewrite Htake. cbn [app]. intros Hd'.
        rewrite unquote_loop_plain, E4, Hd' by done.
        rewrite app_comm_cons, <- Htake.
        rewrite drop_app_length' by done.
        rewrite IH by (done || lia). simpl.
        by rewrite Henc, take_drop.
Qed.

Lemma unquote_scan_eq fuel c rest :
  json.unquote_scan (S fuel) (c :: rest) =
    if Ascii.eqb c bslash || Ascii.eqb c dquote || (byte_val c <? 0x20) then O
    else if byte_val c <? utf8.RuneSelf then S (json.unquote_scan fuel rest)
    else
      let '(rr, size) := utf8.DecodeRune (c :: rest) in
      if (rr =? utf8.RuneError) && (size =? 1)%nat then O
      else (size + json.unquote_scan fuel (drop size (c :: rest)))%nat.
Proof. reflexivity. Qed.

Lemma fmap_app_nil (x : option bytes) : app [] <$> x = x.
Proof. by destruct x. Qed.

Lemma unquote_scan_loop fuel : ∀ s,
  (length s <= fuel)%nat →
  json.unquote_loop fuel s =
    app (take (json.unquote_scan fuel s) s)
      <$> json.unquote_loop fuel (drop (json.unquote_scan fuel s) s).
Proof.
  induction fuel as [|fuel IH]; intros s Hlen.
  - destruct s; [done|simpl in Hlen; lia].
  - destruct s as [|c rest]; [done|]. simpl in Hlen.
    rewrite unquote_scan_eq.
    destruct (Ascii.eqb c bslash || Ascii.eqb c dquote || (byte_val c <? 0x20)) eqn:Hstop.
    { cbn [take drop]. by rewrite fmap_app_nil. }
    apply orb_false_iff in Hstop as [Hstop E3].
    apply orb_false_iff in Hstop as [E1 E2].
    rewrite (unquote_loop_plain _ _ _ E1 E2 E3).
    destruct (byte_val c <? utf8.RuneSelf) eqn:Hc.
    + cbn [take drop]. rewrite (IH rest) by lia.
      rewrite (unquote_loop_fuel (S fuel) fuel) by (rewrite ?length_drop; lia).
      by destruct (json.unquote_loop fuel _).
    + destruct (utf8.DecodeRune (c :: rest)) as [rr size] eqn:Ed.
      destruct ((rr =? utf8.RuneError) && (size =? 1)%nat) eqn:Herr.
      { cbn [take drop]. rewrite fmap_app_nil.
        rewrite (unquote_loop_plain _ _ _ E1 E2 E3), Hc, Ed. done. }
      destruct (DecodeRune_decoded _ _ _ _ Ed) as [[-> ->]|Hd]; [done|].
      pose proof (DecodeRune_size _ _ _ _ Ed) as [Hsz Hszl]. simpl in Hszl.
      rewrite (IH (drop size (c :: rest))) by (rewrite length_drop; simpl; lia).
      rewrite (decoded_EncodeRune _ _ _ Hd).
      rewrite <- drop_drop, <- take_take_drop.
      rewrite (unquote_loop_fuel (S fuel) fuel) by (rewrite ?length_drop; simpl; lia).
      destruct (json.unquote_loop fuel _); [|done]. simpl. by rewrite app_assoc.
Qed.

Lemma unquoteBytes_loop s :
  json.unquoteBytes (dquote :: s ++ [dquote]) = json.unquote_loop (length s) s.
Proof.
  unfold json.unquoteBytes. cbn [length].
  rewrite length_app, Nat.add_1_r. cbn [Nat.ltb Nat.leb orb].
  change (Ascii.eqb dquote dquote) with true. cbn [negb orb].
  rewrite app_comm_cons, last_last.
  change (Ascii.eqb dquote dquote) with true. cbn [negb].
  cbn [Nat.sub]. rewrite Nat.sub_0_r, take_app_length.
  rewrite (unquote_scan_loop (length s) s) by done.
  destruct (Nat.eqb_spec (json.unquote_scan (length s) s) (length s)) as [->|Hne]; [|done].
  rewrite firstn_all, drop_all. destruct s; simpl; by rewrite ?app_nil_r.
Qed.

(** The string that a literal written by [appendString] denotes. *)
Lemma unquoteBytes_appendString s :
  utf8.ValidString s = true → json.unquoteBytes (json.appendString s true) = Some s.
Proof.
  intros Hv. unfold json.appendString. rewrite unquoteBytes_loop.
  by apply unquote_appendString_loop.
Qed.

Lemma escape_byte_body c l :
  (byte_val c <? utf8.RuneSelf) = true → string_body l → string_body (json.escape_byte c ++ l).
Proof.
  each_byte c; intros H1 Hl; try (vm_compute in H1; discriminate H1); clear H1;
    match goal with
    | |- context [json.escape_byte ?x] =>
      let y := eval vm_compute in (json.escape_byte x) in
      change (json.escape_byte x) with y
    end;
    cbn [app]; change (Ascii false false true true true false true false) with bslash;
    first [apply string_body_escape; [vm_compute; reflexivity | assumption]
          | apply string_body_u; first [assumption | vm_compute; reflexivity]].
Qed.

Lemma string_body_high a l :
  Forall (λ c, 0x80 <= byte_val c) a → string_body l → string_body (a ++ l).
Proof.
  induction 1 as [|c a Hc Ha IH]; intros Hl; [done|]. simpl.
  destruct (high_byte_plain c Hc) as (E1 & E2 & E3 & _).
  apply string_body_plain; auto.
Qed.

Lemma appendString_loop_body fuel : ∀ s, string_body (json.appendString_loop fuel true s).
Proof.
  induction fuel as [|fuel IH]; intros s; [constructor|].
  destruct s as [|c rest]; [constructor|].
  rewrite appendString_loop_eq.
  destruct (byte_val c <? utf8.RuneSelf) eqn:Hc.
  - destruct (json.htmlSafeSet (byte_val c)) eqn:Hsafe.
    + destruct (safe_byte_plain c Hsafe) as (E1 & E2 & E3 & E4).
      apply string_body_plain; auto.
    + by apply escape_byte_body.
  - rewrite DecodeRune_take4.
    destruct (utf8.DecodeRune (c :: rest)) as [r size] eqn:Ed.
    destruct ((r =? utf8.RuneError) && (size =? 1)%nat) eqn:Herr.
    { apply (string_body_u "f" "f" "f" "d"); auto. }
    destruct (DecodeRune_decoded _ _ _ _ Ed) as [[-> ->]|Hd]; [done|].
    apply Z.ltb_ge in Hc.
    destruct (decoded_multibyte _ _ _ _ _ Hd eq_refl Hc) as (Hsz & Hszl & Hhigh & Hr).
    destruct ((r =? 0x2028) || (r =? 0x2029)) eqn:Hls.
    + apply orb_true_iff in Hls as [Hr'|Hr']; apply Z.eqb_eq in Hr'; subst r;
        apply (string_body_u "2" "0" "2"); auto.
    + by apply string_body_high.
Qed.

Section scanner_runs.

Lemma cont_run_app s l1 s1 l2 s2 :
  cont_run s l1 s1 → cont_run s1 l2 s2 → cont_run s (l1 ++ l2) s2.
Proof. induction 1; intros; simpl; [done|]. econstructor; eauto. Qed.

Lemma cont_run_string_body l :
  string_body l →
  ∀ e ps er,
    cont_run (json.mkScanner json.stateInString e ps er) l
             (json.mkScanner json.stateInString e ps er).
Proof.
  induction 1 as [|c l H1 H2 H3 _ IH|c l H1 _ IH|h0 h1 h2 h3 l H0 H1 H2 H3 _ IH];
    intros e ps er.
  - constructor.
  - econstructor; [|apply IH].
    unfold json.scan_step, json.do_stateInString. simpl. by rewrite H1, H2, H3.
  - econstructor; [reflexivity|]. econstructor; [|apply IH].
    unfold json.scan_step, json.do_stateInStringEsc. simpl.
    unfold simple_escape in H1. by rewrite H1.
  - econstructor; [reflexivity|]. econstructor; [reflexivity|].
    econstructor; [unfold json.scan_step, json.do_hex; simpl; by rewrite H0|].
    econstructor; [unfold json.scan_step, json.do_hex; simpl; by rewrite H1|].
    econstructor; [unfold json.scan_step, json.do_hex; simpl; by rewrite H2|].
    econstructor; [unfold json.scan_step, json.do_hex; simpl; by rewrite H3|].
    apply IH.
Qed.

(** A string literal without its first quote. *)
Lemma cont_run_string_tail fuel s e ps er :
  cont_run (json.mkScanner json.stateInString e ps er)
           (json.appendString_loop fuel true s ++ [dquote])
           (json.mkScanner json.stateEndValue e ps er).
Proof.
  eapply cont_run_app; [apply cont_run_string_body, appendString_loop_body|].
  econstructor; [reflexivity|constructor].
Qed.

Lemma irun_app st l1 o1 st1 l2 o2 st2 :
  irun st l1 o1 st1 → irun st1 l2 o2 st2 → irun st (l1 ++ l2) (o1 ++ o2) st2.
Proof.
  induction 1; intros; simpl; [done|]. rewrite <- app_assoc. econstructor; eauto.
Qed.

Lemma irun_cont s l s' d :
  cont_run s l s' → irun (json.mkIndenter s false d) l l (json.mkIndenter s' false d).
Proof.
  induction 1 as [|s c s1 l s' Hstep _ IH]; [constructor|].
  change (c :: l) with ([c] ++ l) at 2. econstructor; [|exact IH].
  unfold json.appendIndent_byte. simpl. by rewrite Hstep.
Qed.

Lemma walk_app w l1 l2 :
  json.walk w (l1 ++ l2) = json.walk w l1 ≫= λ w1, json.walk w1 l2.
Proof.
  revert w. induction l1 as [|c l1 IH]; intros w; [done|]. simpl.
  destruct (json.walk_byte w c); simpl; [apply IH|done].
Qed.

Lemma walk_cont s l s' :
  cont_run s l s' →
  ∀ lit stk res,
    json.walk (json.mkWalker s (Some lit) stk res) l
    = Some (json.mkWalker s' (Some (lit ++ l)) stk res).
Proof.
  induction 1 as [|s c s1 l s' Hstep _ IH]; intros lit stk res.
  - by rewrite app_nil_r.
  - simpl. unfold json.walk_byte. simpl. rewrite Hstep. simpl.
    rewrite IH. by rewrite <- app_assoc.
Qed.

End scanner_runs.

Arguments json.appendString : simpl never.
Arguments json.stringEncoder : simpl never.

Section indent.

Lemma join_comma_more x xs : json.join_comma (x :: xs) = x ++ more xs.
Proof.
  revert x. induction xs as [|y xs IH]; intros x.
  - simpl. by rewrite app_nil_r.
  - change (json.join_comma (x :: y :: xs)) with (x ++ ","%char :: json.join_comma (y :: xs)).
    rewrite IH. reflexivity.
Qed.

Lemma lines_more d x xs : lines d (x :: xs) = nl d ++ x ++ more_lines d xs.
Proof.
  revert x. induction xs as [|y xs IH]; intros x.
  - simpl. by rewrite app_nil_r.
  - change (lines d (x :: y :: xs)) with (nl d ++ x ++ ","%char :: lines d (y :: xs)).
    rewrite IH.
    change (more_lines d (y :: xs)) with ((","%char :: nl d ++ y) ++ more_lines d xs).
    by rewrite <- app_comm_cons, <- app_assoc.
Qed.

Lemma irun_eq st src o o' st' : irun st src o st' → o = o' → irun st src o' st'.
Proof. by intros H <-. Qed.

Lemma irun_loop st src o st' :
  irun st src o st' → json.appendIndent_loop [] (str " ") st src = (o, st').
Proof.
  induction 1 as [|st c src out st1 out' st' Hb _ IH]; [done|].
  simpl. rewrite Hb, IH. done.
Qed.

Lemma irun_string f ps need d x :
  begins f →
  irun (Ind f ps need d) (json.stringEncoder x)
       ((if need then json.appendNewline [] (str " ") (d + 1) else []) ++ json.stringEncoder x)
       (Ind json.stateEndValue ps false (if need then d + 1 else d)).
Proof.
  intros Hf. unfold json.stringEncoder, json.appendString.
  eapply irun_eq.
  - eapply (irun_app _ [dquote] _ _ (json.appendString_loop (length x) true x ++ [dquote])).
    + eapply irun_cons; [|constructor].
      instantiate (2 := (if need then json.appendNewline [] (str " ") (d + 1) else []) ++ [dquote]).
      instantiate (1 := Ind json.stateInString ps false (if need then d + 1 else d)).
      destruct Hf as [-> | [-> | [-> | ->]]]; destruct need; reflexivity.
    + apply irun_cont, cont_run_string_tail.
  - rewrite app_nil_r, <- app_assoc. reflexivity.
Qed.

Ltac istep :=
  lazymatch goal with
  | |- irun ?st (?c :: ?src) _ _ =>
    let v := eval vm_compute in (json.appendIndent_byte [] (str " ") st c) in
    lazymatch v with
    | (?o, ?st1, false) =>
      eapply (irun_cons st c src o st1); [vm_compute; reflexivity|]
    end
  end.

(** The arguments after the first, and the closing bracket. *)
Lemma irun_more_Arguments xs :
  irun (Ind EV_ [A_; OV_; A_] false 3)
       (more (map json.stringEncoder xs) ++ ["]"%char])
       (more_lines 3 (map json.stringEncoder xs) ++ nl 2 ++ ["]"%char])
       (Ind EV_ [OV_; A_] false 2).
Proof.
  induction xs as [|x xs IH].
  - simpl. eapply irun_eq; [istep; constructor|reflexivity].
  - cbn [map].
    change (more (json.stringEncoder x :: map json.stringEncoder xs))
      with ((","%char :: json.stringEncoder x) ++ more (map json.stringEncoder xs)).
    rewrite <- app_assoc, <- app_comm_cons.
    eapply irun_eq.
    + istep. eapply irun_app; [apply (irun_string BV_ _ false); by left|]. exact IH.
    + cbn [map]. unfold more_lines. cbn [map concat].
      rewrite <- !app_assoc. reflexivity.
Qed.

(** The argument vector, where the value of a member begins. *)
Lemma irun_Arguments x xs :
  irun (Ind BV_ [OV_; A_] false 2)
       (json.arrayEncoder (map json.stringEncoder (x :: xs)))
       (layout_Arguments 2 (x :: xs))
       (Ind EV_ [OV_; A_] false 2).
Proof.
  unfold json.arrayEncoder, layout_Arguments. cbn [map].
  rewrite join_comma_more, lines_more, <- !app_assoc.
  eapply irun_eq.
  - istep. eapply irun_app; [apply (irun_string json.stateBeginValueOrEmpty _ true); right; by left|].
    apply irun_more_Arguments.
  - rewrite <- !app_assoc. reflexivity.
Qed.

Ltac norm_app :=
  repeat match goal with
         | |- context [json.appendNewline [] (str " ") ?z] =>
           let n := eval vm_compute in (Z.to_nat z) in
           change (json.appendNewline [] (str " ") z) with (nl n)
         end;
  repeat first [rewrite <- app_assoc | rewrite <- app_comm_cons | rewrite app_nil_r];
  cbn [app].

(** The first member of an object, and a later one, with a string as
    value. *)
Lemma irun_first_member k v :
  quoted k = json.stringEncoder (str k) →
  irun (Ind json.stateBeginStringOrEmpty [OK_; A_] true 1)
       (quoted k ++ ":"%char :: json.stringEncoder v)
       (nl 2 ++ member k (json.stringEncoder v))
       (Ind EV_ [OV_; A_] false 2).
Proof.
  intros Hq. eapply irun_eq.
  - rewrite Hq.
    eapply irun_app; [apply (irun_string json.stateBeginStringOrEmpty _ true); by do 3 right|].
    istep. apply (irun_string BV_ _ false). by left.
  - rewrite <- Hq. unfold member, quoted. norm_app. reflexivity.
Qed.

Lemma irun_next_member k v :
  quoted k = json.stringEncoder (str k) →
  irun (Ind EV_ [OV_; A_] false 2)
       (","%char :: quoted k ++ ":"%char :: json.stringEncoder v)
       (","%char :: nl 2 ++ member k (json.stringEncoder v))
       (Ind EV_ [OV_; A_] false 2).
Proof.
  intros Hq. eapply irun_eq.
  - rewrite Hq. istep.
    eapply irun_app; [apply (irun_string json.stateBeginString _ false); right; right; by left|].
    istep. apply (irun_string BV_ _ false). by left.
  - rewrite <- Hq. unfold member, quoted. norm_app. reflexivity.
Qed.

Lemma irun_member_Arguments x xs :
  irun (Ind EV_ [OV_; A_] false 2)
       (","%char :: quoted "arguments" ++ ":"%char
          :: json.arrayEncoder (map json.stringEncoder (x :: xs)))
       (","%char :: nl 2 ++ member "arguments" (layout_Arguments 2 (x :: xs)))
       (Ind EV_ [OV_; A_] false 2).
Proof.
  assert (Hq : quoted "arguments" = json.stringEncoder (str "arguments")) by (by vm_compute).
  eapply irun_eq.
  - rewrite Hq. istep.
    eapply irun_app; [apply (irun_string json.stateBeginString _ false); right; right; by left|].
    istep. apply irun_Arguments.
  - rewrite <- Hq. unfold member, quoted. norm_app. reflexivity.
Qed.

Lemma encode_Command_eq c :
  encode_Command c =
    "{"%char :: (quoted "directory" ++ ":"%char :: json.stringEncoder (Command.Directory c))
      ++ compact_command c ++ compact_arguments c
      ++ (","%char :: quoted "file" ++ ":"%char :: json.stringEncoder (Command.File c))
      ++ ["}"%char].
Proof.
  unfold encode_Command, compact_command, compact_arguments, json.structEncoder, Command_fields.
  cbn [json.structEncoder_loop json.omitEmpty json.isEmptyValue json.name json.encoded andb].
  change (json.appendString (str "directory") true) with (quoted "directory").
  change (json.appendString (str "command") true) with (quoted "command").
  change (json.appendString (str "arguments") true) with (quoted "arguments").
  change (json.appendString (str "file") true) with (quoted "file").
  destruct (bool_decide (Command.Command c = [])), (bool_decide (len (Command.Arguments c) = 0%nat));
    cbn [json.structEncoder_loop json.omitEmpty json.isEmptyValue json.name json.encoded andb];
    change (json.appendString (str "file") true) with (quoted "file");
    change (json.appendString (str "command") true) with (quoted "command");
    change (json.appendString (str "arguments") true) with (quoted "arguments");
    change (Ascii.eqb ","%char "{"%char) with false; cbv iota;
    norm_app; reflexivity.
Qed.

Lemma layout_Command_eq c :
  layout_Command 1 c =
    "{"%char :: (nl 2 ++ member "directory" (json.stringEncoder (Command.Directory c)))
      ++ layout_command c ++ layout_arguments c
      ++ (","%char :: nl 2 ++ member "file" (json.stringEncoder (Command.File c)))
      ++ nl 1 ++ ["}"%char].
Proof.
  unfold layout_Command, layout_command, layout_arguments.
  destruct (bool_decide (Command.Command c = [])), (bool_decide (len (Command.Arguments c) = 0%nat));
    cbn [app]; rewrite lines_more; unfold more_lines; cbn [map concat];
    norm_app; reflexivity.
Qed.

Lemma irun_compact_command c :
  irun (Ind EV_ [OV_; A_] false 2) (compact_command c) (layout_command c)
       (Ind EV_ [OV_; A_] false 2).
Proof.
  unfold compact_command, layout_command. case_bool_decide; [constructor|].
  apply irun_next_member. by vm_compute.
Qed.

Lemma irun_compact_arguments c :
  irun (Ind EV_ [OV_; A_] false 2) (compact_arguments c) (layout_arguments c)
       (Ind EV_ [OV_; A_] false 2).
Proof.
  unfold compact_arguments, layout_arguments. case_bool_decide as Hlen; [constructor|].
  destruct (Command.Arguments c) as [|[|x xs]]; [done|done|].
  apply irun_member_Arguments.
Qed.

(** An entry, as the first element of the array and as a later one. *)
Lemma irun_Command f need d c :
  (f = json.stateBeginValueOrEmpty ∧ need = true ∧ d = 0)
  ∨ (f = BV_ ∧ need = false ∧ d = 1) →
  irun (Ind f [A_] need d) (encode_Command c)
       ((if need then nl 1 else []) ++ layout_Command 1 c)
       (Ind EV_ [A_] false 1).
Proof.
  intros Hf. rewrite encode_Command_eq, layout_Command_eq.
  destruct Hf as [(-> & -> & ->)|(-> & -> & ->)].
  all: eapply irun_eq;
    [istep;
     (eapply irun_app; [apply irun_first_member; by vm_compute|]);
     (eapply irun_app; [apply irun_compact_command|]);
     (eapply irun_app; [apply irun_compact_arguments|]);
     (eapply irun_app; [apply irun_next_member; by vm_compute|]);
     istep; constructor
    |norm_app; reflexivity].
Qed.

Lemma irun_more_Commands cs :
  irun (Ind EV_ [A_] false 1)
       (more (map encode_Command cs) ++ ["]"%char])
       (more_lines 1 (map (layout_Command 1) cs) ++ nl 0 ++ ["]"%char])
       Ind_end.
Proof.
  induction cs as [|c cs IH].
  - simpl. eapply irun_eq; [istep; constructor|reflexivity].
  - cbn [map].
    change (more (encode_Command c :: map encode_Command cs))
      with ((","%char :: encode_Command c) ++ more (map encode_Command cs)).
    rewrite <- app_assoc, <- app_comm_cons.
    eapply irun_eq.
    + istep. eapply irun_app; [apply (irun_Command BV_ false 1); by right|]. exact IH.
    + unfold more_lines. cbn [map concat]. norm_app. reflexivity.
Qed.

Lemma irun_Contents l :
  irun (json.mkIndenter json.reset false 0)
       (json.sliceEncoder encode_Command (mk_slice l)) (layout_Contents l) Ind_end.
Proof.
  destruct l as [|c cs].
  - eapply irun_eq; [unfold json.sliceEncoder, json.arrayEncoder; simpl; istep; istep; constructor|].
    reflexivity.
  - unfold json.sliceEncoder, json.arrayEncoder, layout_Contents. cbn [map].
    rewrite join_comma_more, lines_more, <- !app_assoc.
    eapply irun_eq.
    + istep.
      eapply irun_app; [apply (irun_Command json.stateBeginValueOrEmpty true 0); by left|].
      apply irun_more_Commands.
    + norm_app. reflexivity.
Qed.

(** What [MarshalIndent] returns for contents that are not nil, and for
    nil. *)
Lemma MarshalIndent_layout l :
  MarshalIndent (mk_slice l) [] (str " ") = (layout_Contents l, None).
Proof.
  unfold MarshalIndent, Marshal, json.MarshalIndent_of, json.appendIndent.
  rewrite (irun_loop _ _ _ _ (irun_Contents l)). reflexivity.
Qed.

Lemma MarshalIndent_nil :
  MarshalIndent nil_slice [] (str " ") = (str "null", None).
Proof. by vm_compute. Qed.

End indent.

Arguments json.unquoteBytes : simpl never.

Section walk.

Lemma close_literal_scan w w' : json.close_literal w = Some w' → json.wscan w' = json.wscan w ∧ json.wlit w' = None.
Proof.
  unfold json.close_literal. destruct (json.wlit w) as [lit|] eqn:E.
  - destruct (json.literal_value lit); simpl; [|done].
    destruct (json.deliver _ _ _) as [[st res]|]; simpl; [|done].
    by intros [= <-].
  - by intros [= <-].
Qed.

Lemma close_literal_settled w : json.wlit w = None → json.close_literal w = Some w.
Proof. unfold json.close_literal. by intros ->. Qed.

Lemma walk_byte_close w c :
  snd (json.scan_step (json.wscan w) c) ≠ json.scanContinue →
  json.walk_byte w c = json.close_literal w ≫= λ w', json.walk_byte w' c.
Proof.
  intros Hv. destruct (json.close_literal w) as [w'|] eqn:Hc; simpl.
  - destruct (close_literal_scan _ _ Hc) as [Hs Hl].
    unfold json.walk_byte. rewrite Hs.
    destruct (json.scan_step (json.wscan w) c) as [scan v]. simpl in Hv.
    rewrite Hc, (close_literal_settled w' Hl). by destruct v.
  - unfold json.walk_byte.
    destruct (json.scan_step (json.wscan w) c) as [scan v]. simpl in Hv.
    rewrite Hc. by destruct v.
Qed.

Lemma wrun_nil w : json.wlit w = None → wrun w [] w.
Proof. intros H. exists w. split; [done|by apply close_literal_settled]. Qed.

Lemma wrun_cons w c w1 src w' :
  json.walk_byte w c = Some w1 → wrun w1 src w' → wrun w (c :: src) w'.
Proof. intros Hb (w2 & Hw & Hc). exists w2. split; [|done]. simpl. by rewrite Hb. Qed.

Lemma wrun_app w a w1 b w2 :
  wrun w a w1 → starts_nc (json.wscan w1) b → wrun w1 b w2 → wrun w (a ++ b) w2.
Proof.
  intros (wa & Ha & Hca) Hv (wb & Hb & Hcb).
  destruct (close_literal_scan _ _ Hca) as [Hs Hl].
  destruct b as [|c b].
  - rewrite app_nil_r. simpl in Hb. injection Hb as <-.
    rewrite (close_literal_settled _ Hl) in Hcb. injection Hcb as <-.
    by exists wa.
  - exists wb. split; [|done]. rewrite walk_app, Ha. simpl in *.
    rewrite walk_byte_close by (by rewrite <- Hs). rewrite Hca. exact Hb.
Qed.

Lemma wrun_eq w src w1 w2 : wrun w src w1 → w1 = w2 → wrun w src w2.
Proof. by intros H <-. Qed.

Lemma wrun_last w a w1 c w2 :
  wrun w a w1 →
  snd (json.scan_step (json.wscan w1) c) ≠ json.scanContinue →
  json.walk_byte w1 c = Some w2 →
  json.walk w (a ++ [c]) = Some w2.
Proof.
  intros (wa & Ha & Hca) Hv Hb. rewrite walk_app, Ha. simpl.
  destruct (close_literal_scan _ _ Hca) as [Hs Hl].
  rewrite walk_byte_close by (by rewrite <- Hs). rewrite Hca. simpl. by rewrite Hb.
Qed.

(** A string literal where a value or a key may begin. *)
Lemma wrun_string f ps stk res x stk' res' :
  begins f → utf8.ValidString x = true →
  json.deliver (json.JString x) stk res = Some (stk', res') →
  wrun (W f ps stk res) (json.stringEncoder x) (W EV_ ps stk' res').
Proof.
  intros Hf Hx Hd.
  exists (json.mkWalker (Sc EV_ ps) (Some (json.stringEncoder x)) stk res). split.
  - unfold json.stringEncoder, json.appendString.
    change (dquote :: ?l) with ([dquote] ++ l). rewrite walk_app.
    assert (Hq : json.walk (W f ps stk res) [dquote]
                 = Some (json.mkWalker (Sc json.stateInString ps) (Some [dquote]) stk res)).
    { destruct Hf as [-> | [-> | [-> | ->]]]; reflexivity. }
    rewrite Hq. simpl. 
    by rewrite (walk_cont _ _ _ (cont_run_string_tail (length x) x false ps false)).
  - unfold json.close_literal.
    cbn [json.wlit json.wscan json.wstack json.wresult].
    assert (Hl : json.literal_value (json.stringEncoder x) = Some (json.JString x)).
    { unfold json.literal_value, json.stringEncoder.
      rewrite (unquoteBytes_appendString x Hx). reflexivity. }
    rewrite Hl. simpl. by rewrite Hd.
Qed.

Ltac wstep :=
  lazymatch goal with
  | |- wrun ?w (?c :: ?src) _ =>
    let v := eval lazy in (json.walk_byte w c) in
    lazymatch v with
    | Some ?w1 => eapply (wrun_cons w c w1 src); [reflexivity|]
    end
  end.

Lemma starts_nc_cons f ps stk res c b :
  snd (json.scan_step (Sc f ps) c) ≠ json.scanContinue →
  starts_nc (json.wscan (W f ps stk res)) (c :: b).
Proof. done. Qed.

Ltac nc := apply starts_nc_cons; by vm_compute.

Lemma starts_nc_more_lines f ps d xs rest c :
  snd (json.scan_step (Sc f ps) ","%char) ≠ json.scanContinue →
  snd (json.scan_step (Sc f ps) c) ≠ json.scanContinue →
  starts_nc (Sc f ps) (more_lines d xs ++ c :: rest).
Proof. intros H1 H2. by destruct xs. Qed.

(** The arguments after the first, and the closing bracket. *)
Lemma wrun_more_Arguments xs :
  Forall (λ x, utf8.ValidString x = true) xs →
  ∀ done done' k stk res,
    wrun (W EV_ [A_; OV_; A_] (json.FArray done :: json.FObject done' (Some k) :: stk) res)
         (more_lines 3 (map json.stringEncoder xs) ++ nl 2 ++ ["]"%char])
         (W EV_ [OV_; A_]
            (json.FObject ((k, json.JArray (rev done ++ map json.JString xs)) :: done') None
               :: stk) res).
Proof.
  induction 1 as [|x xs Hx _ IH]; intros done done' k stk res.
  - simpl. eapply wrun_eq; [do 4 wstep; by apply wrun_nil|].
    by rewrite app_nil_r.
  - cbn [map].
    change (more_lines 3 (json.stringEncoder x :: map json.stringEncoder xs))
      with ((","%char :: nl 3 ++ json.stringEncoder x)
              ++ more_lines 3 (map json.stringEncoder xs)).
    cbn [nl replicate app]. rewrite <- !app_assoc. cbn [app].
    eapply wrun_eq.
    + do 5 wstep. eapply wrun_app; [by apply wrun_string; [by left|done|reflexivity]| |apply IH].
      apply (starts_nc_more_lines EV_ _ 3 _ _ newline); by vm_compute.
    + simpl. by rewrite <- app_assoc.
Qed.

(** The argument vector, where the value of a member begins. *)
Lemma wrun_Arguments x xs done' k stk res :
  Forall (λ x, utf8.ValidString x = true) (x :: xs) →
  wrun (W BV_ [OV_; A_] (json.FObject done' (Some k) :: stk) res)
       (layout_Arguments 2 (x :: xs))
       (W EV_ [OV_; A_]
          (json.FObject ((k, json.JArray (map json.JString (x :: xs))) :: done') None
             :: stk) res).
Proof.
  intros Hv. inversion Hv as [|? ? Hx Hxs]; subst.
  unfold layout_Arguments. cbn [map]. rewrite lines_more.
  cbn [nl replicate app]. rewrite <- !app_assoc. cbn [app].
  do 5 wstep.
  eapply wrun_app; [by apply wrun_string; [right; by left|done|reflexivity]| |].
  - apply (starts_nc_more_lines EV_ _ 3 _ _ newline); by vm_compute.
  - eapply wrun_eq; [by apply wrun_more_Arguments|reflexivity].
Qed.

Lemma member_quoted k v : member k v = quoted k ++ ":"%char :: " "%char :: v.
Proof. unfold member, quoted. cbn [app]. by rewrite <- app_assoc. Qed.

(** A member with a string as value, after the white space before its
    key. *)
Lemma wrun_member f k v done stk res :
  f = json.stateBeginStringOrEmpty ∨ f = json.stateBeginString →
  quoted k = json.stringEncoder (str k) → utf8.ValidString (str k) = true →
  utf8.ValidString v = true →
  wrun (W f [OK_; A_] (json.FObject done None :: stk) res)
       (member k (json.stringEncoder v))
       (W EV_ [OV_; A_] (json.FObject ((str k, json.JString v) :: done) None :: stk) res).
Proof.
  intros Hf Hq Hk Hv. rewrite member_quoted, Hq.
  eapply wrun_app; [apply wrun_string; [|exact Hk|reflexivity]|nc|].
  { destruct Hf as [-> | ->]; [by do 3 right|right; right; by left]. }
  do 2 wstep. apply wrun_string; [by left|done|reflexivity].
Qed.

Lemma wrun_member_Arguments x xs done stk res :
  Forall (λ x, utf8.ValidString x = true) (x :: xs) →
  wrun (W json.stateBeginString [OK_; A_] (json.FObject done None :: stk) res)
       (member "arguments" (layout_Arguments 2 (x :: xs)))
       (W EV_ [OV_; A_]
          (json.FObject ((str "arguments", json.JArray (map json.JString (x :: xs))) :: done)
             None :: stk) res).
Proof.
  intros Hv. rewrite member_quoted.
  change (quoted "arguments") with (json.stringEncoder (str "arguments")).
  eapply wrun_app;
    [apply wrun_string; [right; right; by left|by vm_compute|reflexivity]|nc|].
  do 2 wstep. by apply wrun_Arguments.
Qed.

Ltac wmember :=
  lazymatch goal with
  | |- wrun (json.mkWalker (json.mkScanner ?f _ _ _) _ (json.FObject ?done None :: ?stk) ?res)
            (member "arguments" (layout_Arguments 2 (?x :: ?xs)) ++ _) _ =>
    eapply wrun_app;
    [eapply (wrun_member_Arguments x xs done stk res); assumption|nc|]
  | |- wrun (json.mkWalker (json.mkScanner ?f _ _ _) _ (json.FObject ?done None :: ?stk) ?res)
            (member ?k (json.stringEncoder ?v) ++ _) _ =>
    eapply wrun_app;
    [eapply (wrun_member f k v done stk res);
     [first [by left | by right] | by vm_compute | by vm_compute | assumption]
    |nc|]
  end.

(** An entry, as the first element of the array and as a later one. *)
Lemma wrun_Command f acc c :
  f = json.stateBeginValueOrEmpty ∨ f = BV_ →
  valid_Command c →
  wrun (W f [A_] [json.FArray acc] None) (layout_Command 1 c)
       (W EV_ [A_] [json.FArray (value_of_Command c :: acc)] None).
Proof.
  intros Hf (Hdir & Hcmd & Hargs & Hfile).
  rewrite layout_Command_eq. unfold layout_command, layout_arguments, value_of_Command.
  destruct (bool_decide (Command.Command c = [])); case_bool_decide as Hlen.
  all: try (destruct (Command.Arguments c) as [|[|x xs]]; [done|done|]; cbn [elems] in * ).
  all: cbn [app nl replicate]; rewrite <- ?app_assoc; cbn [app].
  all: destruct Hf as [-> | ->].
  all: do 4 wstep; wmember.
  all: repeat (do 4 wstep; wmember).
  all: do 3 wstep; by apply wrun_nil.
Qed.

(** The entries after the first, up to the closing bracket. *)
Lemma wrun_more_Commands cs :
  Forall valid_Command cs →
  ∀ acc,
    wrun (W EV_ [A_] [json.FArray acc] None)
         (more_lines 1 (map (layout_Command 1) cs) ++ nl 0)
         (W EV_ [A_] [json.FArray (rev (map value_of_Command cs) ++ acc)] None).
Proof.
  induction 1 as [|c cs Hc _ IH]; intros acc.
  - unfold more_lines, nl. cbn [map concat app replicate rev]. wstep. by apply wrun_nil.
  - cbn [map].
    change (more_lines 1 (layout_Command 1 c :: map (layout_Command 1) cs))
      with ((","%char :: nl 1 ++ layout_Command 1 c)
              ++ more_lines 1 (map (layout_Command 1) cs)).
    cbn [nl replicate app]. rewrite <- !app_assoc. cbn [app].
    eapply wrun_eq.
    + do 3 wstep. eapply wrun_app; [apply wrun_Command; [by right|exact Hc]| |apply IH].
      apply (starts_nc_more_lines EV_ [A_] 1 _ _ newline); by vm_compute.
    + cbn [rev]. by rewrite <- app_assoc.
Qed.

Lemma walk_byte_end_top acc :
  json.walk_byte (W EV_ [A_] [json.FArray acc] None) "]"%char
  = Some (W_end (json.JArray (rev acc))).
Proof. reflexivity. Qed.

(** The decoder on the file that [SaveToFile] writes. *)
Lemma walk_layout_Contents l :
  Forall valid_Command l →
  json.walk (json.mkWalker json.reset None [] None) (layout_Contents l)
  = Some (W_end (json.JArray (map value_of_Command l))).
Proof.
  intros Hl. destruct Hl as [|c cs Hc Hcs]; [reflexivity|].
  unfold layout_Contents. cbn [map]. rewrite lines_more.
  change ("["%char :: (nl 1 ++ ?a ++ ?b) ++ nl 0 ++ ["]"%char])
    with (("["%char :: (nl 1 ++ a ++ b) ++ nl 0) ++ ["]"%char]) ||
  (rewrite app_comm_cons, (app_assoc _ (nl 0))).
  eapply (wrun_last _ _ (W EV_ [A_] [json.FArray (rev (map value_of_Command cs) ++ [value_of_Command c])] None)).
  - cbn [nl replicate app]. rewrite <- !app_assoc. cbn [app].
    do 3 wstep. eapply wrun_app; [apply wrun_Command; [by left|exact Hc]| |].
    + apply (starts_nc_more_lines EV_ [A_] 1 _ _ newline); by vm_compute.
    + change [newline] with (nl 0). by apply wrun_more_Commands.
  - by vm_compute.
  - etrans; [apply walk_byte_end_top|].
    rewrite rev_app_distr, rev_involutive. reflexivity.
Qed.

Lemma walk_checkValid_loop data : ∀ w w',
  json.walk w data = Some w' →
  json.checkValid_loop (json.wscan w) data = Some (json.wscan w').
Proof.
  induction data as [|c data IH]; intros w w' Hw; simpl in *.
  - by injection Hw as <-.
  - destruct (json.walk_byte w c) as [w1|] eqn:Hb; [|done]. simpl in Hw.
    assert (Hs : ∃ v, json.scan_step (json.wscan w) c = (json.wscan w1, v)
                      ∧ json.is_scanError v = false).
    { unfold json.walk_byte in Hb.
      destruct (json.scan_step (json.wscan w) c) as [scan v]. exists v.
      destruct v; simplify_option_eq; repeat case_match; simplify_option_eq; eauto.
      all: match goal with H : _ * _ |- _ => destruct H end; by simplify_eq. }
    destruct Hs as (v & -> & ->). by apply IH.
Qed.

Lemma parse_layout_Contents l :
  Forall valid_Command l →
  json.checkValid (layout_Contents l) = true
  ∧ json.parse (layout_Contents l) = Some (json.JArray (map value_of_Command l)).
Proof.
  intros Hl. pose proof (walk_layout_Contents l Hl) as Hw. split.
  - unfold json.checkValid.
    change json.reset with (json.wscan (json.mkWalker json.reset None [] None)).
    by rewrite (walk_checkValid_loop _ _ _ Hw).
  - unfold json.parse. by rewrite Hw.
Qed.

End walk.

Section store.

Lemma find_field_directory : json.find_field Command_names (str "directory") = Some fDirectory.
Proof. by vm_compute. Qed.
Lemma find_field_command : json.find_field Command_names (str "command") = Some fCommand.
Proof. by vm_compute. Qed.
Lemma find_field_arguments : json.find_field Command_names (str "arguments") = Some fArguments.
Proof. by vm_compute. Qed.
Lemma find_field_file : json.find_field Command_names (str "file") = Some fFile.
Proof. by vm_compute. Qed.

Lemma store_strings_JString l : ∀ backing saved,
  json.store_strings (map json.JString l) backing saved = (l, saved).
Proof.
  induction l as [|x l IH]; intros backing saved; [done|].
  simpl. by rewrite IH.
Qed.

Lemma store_member_directory c hidden saved x :
  store_member (c, hidden, saved) (str "directory", json.JString x)
  = (Command.mk x (Command.Command c) (Command.Arguments c) (Command.File c), hidden, saved).
Proof. unfold store_member. cbn [fst snd]. by rewrite find_field_directory. Qed.

Lemma store_member_command c hidden saved x :
  store_member (c, hidden, saved) (str "command", json.JString x)
  = (Command.mk (Command.Directory c) x (Command.Arguments c) (Command.File c), hidden, saved).
Proof. unfold store_member. cbn [fst snd]. by rewrite find_field_command. Qed.

Lemma store_member_file c hidden saved x :
  store_member (c, hidden, saved) (str "file", json.JString x)
  = (Command.mk (Command.Directory c) (Command.Command c) (Command.Arguments c) x, hidden, saved).
Proof. unfold store_member. cbn [fst snd]. by rewrite find_field_file. Qed.

Lemma store_member_arguments c saved x xs :
  Command.Arguments c = nil_slice →
  store_member (c, [], saved) (str "arguments", json.JArray (map json.JString (x :: xs)))
  = (Command.mk (Command.Directory c) (Command.Command c) (mk_slice (x :: xs)) (Command.File c),
     [], saved).
Proof.
  intros Hnil. unfold store_member. cbn [fst snd]. rewrite find_field_arguments, Hnil.
  unfold json.store_string_slice. cbn [map elems app].
  change (json.JString x :: map json.JString xs) with (map json.JString (x :: xs)).
  rewrite store_strings_JString. reflexivity.
Qed.

(** Decoding the value of an entry gives the entry back. *)
Lemma store_Command_value c :
  store_Command (value_of_Command c) Command.zero None = (reloaded c, None).
Proof.
  unfold store_Command, value_of_Command, reloaded.
  destruct c as [dir cmd args file].
  cbn [Command.Directory Command.Command Command.Arguments Command.File].
  case_bool_decide as Hcmd; case_bool_decide as Hlen.
  all: try (destruct args as [|[|x xs]]; [done|done|]).
  all: cbn [app fold_left elems]; unfold Command.zero;
    rewrite ?store_member_directory, ?store_member_command;
    rewrite ?store_member_arguments by done;
    rewrite ?store_member_file; subst; reflexivity.
Qed.

Lemma store_Commands_values l :
  store_Commands (map value_of_Command l) None = (map reloaded l, None).
Proof.
  induction l as [|c l IH]; [done|].
  cbn [map store_Commands]. by rewrite store_Command_value, IH.
Qed.

(** [json.Unmarshal] on the bytes that [json.MarshalIndent] returns. *)
Lemma Unmarshal_MarshalIndent v old :
  Forall valid_Command (elems v) →
  Unmarshal (MarshalIndent v [] (str " ")).1 old = Returns (reloaded_slice v, None).
Proof.
  intros Hv. destruct v as [|l].
  - by vm_compute.
  - rewrite MarshalIndent_layout. cbn [fst].
    destruct (parse_layout_Contents l Hv) as [Hc Hp].
    unfold Unmarshal. rewrite Hc, Hp. cbn [negb].
    unfold store_slice. by rewrite store_Commands_values.
Qed.

End store.

Section unquote_total.

Lemma string_body_app a b : string_body a → string_body b → string_body (a ++ b).
Proof.
  induction 1; intros Hb; simpl; [done| | |].
  - apply string_body_plain; auto.
  - apply string_body_escape; auto.
  - apply string_body_u; auto.
Qed.

Lemma string_body_drop_high n : ∀ p,
  Forall (λ c, 0x80 <= byte_val c) (take n p) → string_body p → string_body (drop n p).
Proof.
  induction n as [|n IH]; intros p Hhigh Hp; [done|].
  destruct p as [|c p]; [constructor|]. simpl in *.
  inversion Hhigh as [|? ? Hc Hrest]; subst.
  apply IH; [done|].
  inversion Hp; subst; [done| |]; vm_compute in Hc; by destruct Hc.
Qed.

Lemma string_body_drop_rune c l rr size :
  0x80 <= byte_val c → string_body (c :: l) →
  utf8.DecodeRune (c :: l) = (rr, size) → string_body (drop size (c :: l)).
Proof.
  intros Hc Hb Hd. apply string_body_drop_high; [|done].
  destruct (DecodeRune_decoded _ _ _ _ Hd) as [[_ ->]|Hdec].
  - simpl. rewrite take_0. by constructor.
  - by destruct (decoded_multibyte _ _ _ _ _ Hdec eq_refl Hc) as (_ & _ & H & _).
Qed.

Lemma hexval_isHex h : json.isHex h = true → ∃ v, json.hexval h = Some v ∧ 0 <= v < 16.
Proof.
  unfold json.isHex, json.isDigit, json.hexval. intros H.
  destruct (_ && _) eqn:E1.
  { eexists. split; [done|]. lia. }
  destruct ((0x61 <=? byte_val h) && _) eqn:E2.
  { eexists. split; [done|]. lia. }
  simpl in H. rewrite H. eexists. split; [done|]. lia.
Qed.

Lemma getu4_hex h0 h1 h2 h3 rest :
  json.isHex h0 = true → json.isHex h1 = true → json.isHex h2 = true →
  json.isHex h3 = true →
  0 <= json.getu4 (bslash :: "u"%char :: h0 :: h1 :: h2 :: h3 :: rest).
Proof.
  intros H0 H1 H2 H3.
  destruct (hexval_isHex _ H0) as (v0 & E0 & ?), (hexval_isHex _ H1) as (v1 & E1 & ?),
    (hexval_isHex _ H2) as (v2 & E2 & ?), (hexval_isHex _ H3) as (v3 & E3 & ?).
  unfold json.getu4.
  change (Ascii.eqb bslash bslash && Ascii.eqb "u" "u") with true. cbv iota.
  rewrite E0, E1, E2, E3. lia.
Qed.

Lemma getu4_shape s :
  0 <= json.getu4 s →
  ∃ h0 h1 h2 h3 t, s = bslash :: "u"%char :: h0 :: h1 :: h2 :: h3 :: t.
Proof.
  unfold json.getu4.
  destruct s as [|c0 [|c1 [|h0 [|h1 [|h2 [|h3 t]]]]]]; try lia.
  destruct (Ascii.eqb_spec c0 bslash) as [->|]; [|simpl; lia].
  destruct (Ascii.eqb_spec c1 "u"%char) as [->|]; [|simpl; lia].
  intros _. by eexists _, _, _, _, _.
Qed.

Lemma unquote_loop_total fuel : ∀ s,
  (length s <= fuel)%nat → string_body s → is_Some (json.unquote_loop fuel s).
Proof.
  induction fuel as [|fuel IH]; intros s Hlen Hb.
  { destruct s; [by eexists|simpl in Hlen; lia]. }
  destruct Hb as [|c l Hq Hs Hc Hl|e l He Hl|h0 h1 h2 h3 l H0 H1 H2 H3 Hl].
  - by eexists.
  - rewrite unquote_loop_plain by done. simpl in Hlen.
    destruct (byte_val c <? utf8.RuneSelf) eqn:Easc.
    + apply fmap_is_Some, IH; [lia|done].
    + destruct (utf8.DecodeRune (c :: l)) as [rr size] eqn:Ed.
      apply fmap_is_Some, IH.
      * apply DecodeRune_size in Ed. rewrite length_drop. simpl in *. lia.
      * eapply string_body_drop_rune; [|by constructor|done].
        apply Z.ltb_ge in Easc. exact Easc.
  - rewrite unquote_loop_bslash. simpl in Hlen.
    assert (Hrec : is_Some (json.unquote_loop fuel l)) by (apply IH; [lia|done]).
    unfold simple_escape in He.
    repeat (apply orb_prop in He as [He|He]); apply Ascii.eqb_eq in He; subst e;
      cbn; by apply fmap_is_Some.
  - rewrite unquote_loop_bslash. simpl in Hlen.
    change (Ascii.eqb "u" dquote || Ascii.eqb "u" bslash || Ascii.eqb "u" "/"
            || Ascii.eqb "u" "'") with false.
    cbv iota. change (Ascii.eqb "u" "b") with false. change (Ascii.eqb "u" "f") with false.
    change (Ascii.eqb "u" "n") with false. change (Ascii.eqb "u" "r") with false.
    change (Ascii.eqb "u" "t") with false. change (Ascii.eqb "u" "u") with true.
    cbv iota zeta.
    pose proof (getu4_hex h0 h1 h2 h3 l H0 H1 H2 H3) as Hu.
    destruct (Z.ltb_spec (json.getu4 (bslash :: "u"%char :: h0 :: h1 :: h2 :: h3 :: l)) 0)
      as [|_]; [lia|].
    change (drop 6 (bslash :: "u"%char :: h0 :: h1 :: h2 :: h3 :: l)) with l.
    assert (Hrec : is_Some (json.unquote_loop fuel l)) by (apply IH; [lia|done]).
    destruct (utf16.IsSurrogate _); [|by apply fmap_is_Some].
    destruct (negb _) eqn:Edec; [|by apply fmap_is_Some].
    apply fmap_is_Some, IH; [rewrite length_drop; lia|].
    unfold utf16.DecodeRune in Edec.
    destruct (_ && _) eqn:Econd; [|done].
    apply andb_prop in Econd as [Econd _]. apply andb_prop in Econd as [_ Econd].
    apply Z.leb_le in Econd. unfold utf16.surr2 in Econd.
    destruct (getu4_shape l) as (k0 & k1 & k2 & k3 & t & ->); [lia|].
    inversion Hl; subst; [done| |done].
    match goal with H : simple_escape _ = true |- _ => vm_compute in H; discriminate H end.
Qed.

Lemma literal_value_string body :
  string_body body → is_Some (json.literal_value (dquote :: body ++ [dquote])).
Proof.
  intros Hb. unfold json.literal_value.
  change (Ascii.eqb dquote "n") with false. change (Ascii.eqb dquote "t") with false.
  change (Ascii.eqb dquote "f") with false. change (Ascii.eqb dquote dquote) with true.
  cbv iota. apply fmap_is_Some. rewrite unquoteBytes_loop.
  by apply unquote_loop_total.
Qed.

End unquote_total.

Section walker_total.

Lemma deliver_before_value v stk ps res :
  before_value stk ps →
  ∃ stk' res', json.deliver v stk res = Some (stk', res') ∧ after_value stk' ps res'.
Proof.
  intros H. destruct H as [|fr k stk' ps' Hw H].
  - eexists _, _. split; [reflexivity|]. simpl. by eexists.
  - destruct fr as [d|d [key|]], k; simpl in Hw; try done;
      eexists _, _; (split; [reflexivity|]); simpl; done.
Qed.

Lemma deliver_before_key k stk ps res :
  before_key stk ps →
  ∃ stk' res', json.deliver (json.JString k) stk res = Some (stk', res')
               ∧ after_value stk' ps res'.
Proof.
  destruct stk as [|[d|d [key|]] stk'], ps as [|[] ps']; simpl; try done.
  intros H. eexists _, _. split; [reflexivity|]. done.
Qed.

Lemma close_atom w c l ps :
  json.wlit w = Some (c :: l) → Ascii.eqb c dquote = false →
  before_value (json.wstack w) ps →
  ∃ w0, json.close_literal w = Some w0
        ∧ after_value (json.wstack w0) ps (json.wresult w0).
Proof.
  intros Hlit Hq Hb. unfold json.close_literal. rewrite Hlit.
  assert (∃ v, json.literal_value (c :: l) = Some v) as [v ->].
  { unfold json.literal_value. rewrite Hq. repeat case_match; by eexists. }
  destruct (deliver_before_value v _ _ (json.wresult w) Hb) as (stk' & res' & Hd & Ha).
  cbn [mbind option_bind]. rewrite Hd. eexists. split; [reflexivity|]. done.
Qed.

Lemma close_string w body ps :
  json.wlit w = Some (dquote :: body ++ [dquote]) → string_body body →
  before_value (json.wstack w) ps ∨ before_key (json.wstack w) ps →
  ∃ w0, json.close_literal w = Some w0
        ∧ after_value (json.wstack w0) ps (json.wresult w0).
Proof.
  intros Hlit Hbody Hb. unfold json.close_literal. rewrite Hlit.
  destruct (literal_value_string body Hbody) as [v Hv].
  assert (∃ x, v = json.JString x) as [x ->].
  { unfold json.literal_value in Hv.
    change (Ascii.eqb dquote "n") with false in Hv.
    change (Ascii.eqb dquote "t") with false in Hv.
    change (Ascii.eqb dquote "f") with false in Hv.
    change (Ascii.eqb dquote dquote) with true in Hv. cbv iota in Hv.
    destruct (json.unquoteBytes _); [|done]. injection Hv as <-. by eexists. }
  rewrite Hv. cbn [mbind option_bind].
  destruct Hb as [Hb|Hb].
  - destruct (deliver_before_value (json.JString x) _ _ (json.wresult w) Hb)
      as (stk' & res' & Hd & Ha).
    rewrite Hd. eexists. split; [reflexivity|]. done.
  - destruct (deliver_before_key x _ _ (json.wresult w) Hb) as (stk' & res' & Hd & Ha).
    rewrite Hd. eexists. split; [reflexivity|]. done.
Qed.

End walker_total.

Section walker_steps.

Lemma walk_byte_EndValue w c s0 s' v w0 :
  json.scan_step (json.wscan w) c = (s', v) →
  json.do_stateEndValue s0 c = (s', v) →
  v ≠ json.scanError →
  json.close_literal w = Some w0 →
  after_value (json.wstack w0) (json.parseState s0) (json.wresult w0) →
  json.endTop s0 = false →
  ∃ w', json.walk_byte w c = Some w' ∧ walker_ok w'.
Proof.
  intros Hstep Hdo Hv Hclose Hafter Het.
  unfold json.walk_byte. rewrite Hstep. clear Hstep.
  destruct w0 as [sc0 lit0 stk res]. destruct s0 as [f et ps er].
  cbn [json.wstack json.wresult json.parseState json.endTop] in *. subst et.
  unfold json.do_stateEndValue, json.do_stateEndTop, json.error_, json.popParseState,
    json.set_step, json.replace_top in Hdo.
  cbn [json.wstack json.wresult json.parseState json.endTop json.step json.err fst tail] in Hdo.
  destruct ps as [|k ps].
  - destruct stk; [|done]. cbn in Hafter.
    destruct (json.isSpace c); injection Hdo as <- <-;
      rewrite Hclose; cbn; (eexists; split; [reflexivity|]);
      unfold walker_ok; cbn; auto.
  - destruct stk as [|fr stk]; [done|]. destruct Hafter as [Hset Hbelow].
    destruct (json.isSpace c).
    { injection Hdo as <- <-. rewrite Hclose. cbn.
      eexists; split; [reflexivity|]. unfold walker_ok; cbn.
      split; [done|]. eexists. split; [reflexivity|]. done. }
    destruct k, fr as [d|d [key|]]; cbn in Hset; try done.
    + (* a key, then the colon *)
      destruct (Ascii.eqb c ":"); injection Hdo as <- <-; [|done].
      rewrite Hclose. cbn. eexists; split; [reflexivity|]. unfold walker_ok; cbn.
      split; [done|]. split; [done|]. by constructor.
    + (* a member, then a comma or the end of the object *)
      destruct (Ascii.eqb c ",").
      { injection Hdo as <- <-. rewrite Hclose. cbn.
        eexists; split; [reflexivity|]. unfold walker_ok; cbn. done. }
      destruct (Ascii.eqb c "}"); [|by injection Hdo as <- <-].
      destruct (deliver_before_value (json.JObject (rev d)) stk ps res Hbelow)
        as (stk' & res' & Hd & Ha).
      destruct ps as [|k ps]; injection Hdo as <- <-; rewrite Hclose; cbn; rewrite Hd; cbn;
        (eexists; split; [reflexivity|]); unfold walker_ok; cbn.
      * inversion Hbelow; subst. cbn in Hd. injection Hd as <- <-. auto.
      * split; [done|]. eexists. split; [reflexivity|]. done.
    + (* an element, then a comma or the end of the array *)
      destruct (Ascii.eqb c ",").
      { injection Hdo as <- <-. rewrite Hclose. cbn.
        eexists; split; [reflexivity|]. unfold walker_ok; cbn.
        split; [done|]. split; [done|]. by constructor. }
      destruct (Ascii.eqb c "]"); [|by injection Hdo as <- <-].
      destruct (deliver_before_value (json.JArray (rev d)) stk ps res Hbelow)
        as (stk' & res' & Hd & Ha).
      destruct ps as [|k ps]; injection Hdo as <- <-; rewrite Hclose; cbn; rewrite Hd; cbn;
        (eexists; split; [reflexivity|]); unfold walker_ok; cbn.
      * inversion Hbelow; subst. cbn in Hd. injection Hd as <- <-. auto.
      * split; [done|]. eexists. split; [reflexivity|]. done.
Qed.

Lemma walk_byte_BeginValue w c s' v :
  json.scan_step (json.wscan w) c = (s', v) →
  json.do_stateBeginValue (json.wscan w) c = (s', v) →
  v ≠ json.scanError →
  walker_ok w →
  json.wlit w = None →
  before_value (json.wstack w) (json.parseState (json.wscan w)) →
  json.endTop (json.wscan w) = false →
  ∃ w', json.walk_byte w c = Some w' ∧ walker_ok w'.
Proof.
  intros Hstep Hdo Hv Hok Hlit Hb Het.
  unfold json.walk_byte. rewrite Hstep. clear Hstep.
  unfold json.close_literal. rewrite Hlit.
  destruct w as [[f et ps er] lit stk res].
  cbn [json.wscan json.wlit json.wstack json.wresult json.parseState json.endTop] in *.
  subst et lit.
  unfold json.do_stateBeginValue, json.pushParseState, json.error_, json.set_step in Hdo.
  cbn [json.parseState json.endTop json.step json.err] in Hdo.
  repeat case_match; simplify_eq; try done; cbn;
    (eexists; split; [reflexivity|]); try exact Hok; unfold walker_ok; cbn;
    (split; [done|]); try done.
  - split; [done|]. split; [by constructor|]. by eexists.
  - match goal with H : Ascii.eqb c dquote = true |- _ => apply Ascii.eqb_eq in H as -> end.
    eexists []. split; [done|]. split; [|by left].
    exists [], []. split; [done|]. split; [constructor|done].
  - eexists _, _. split; [done|]. done.
  - eexists _, _. split; [done|]. done.
  - eexists _, _. split; [done|]. done.
  - eexists _, _. split; [done|]. done.
  - eexists _, _. split; [done|]. done.
  - eexists _, _. split; [done|]. done.
Qed.

Lemma before_value_after_array stk ps res :
  before_value stk (json.parseArrayValue :: ps) →
  after_value stk (json.parseArrayValue :: ps) res.
Proof.
  intros H. inversion H as [|fr k stk' ps' Hw Hrest]; subst.
  destruct fr as [d|d [key|]]; cbn in Hw; try done.
Qed.

Lemma before_key_after_object stk ps res :
  before_key stk ps →
  after_value stk (json.parseObjectValue :: tail ps) res.
Proof.
  destruct stk as [|[d|d [key|]] stk'], ps as [|[] ps']; cbn; try done.
Qed.

(** The literal grows by the byte [c] when the scanner continues. *)
Lemma walk_byte_continue w c s' lit :
  json.scan_step (json.wscan w) c = (s', json.scanContinue) →
  json.wlit w = Some lit →
  json.walk_byte w c
  = Some (json.mkWalker s' (Some (lit ++ [c])) (json.wstack w) (json.wresult w)).
Proof. intros Hstep Hlit. unfold json.walk_byte. by rewrite Hstep, Hlit. Qed.

Lemma walk_byte_BeginString w c s' v :
  json.scan_step (json.wscan w) c = (s', v) →
  json.do_stateBeginString (json.wscan w) c = (s', v) →
  v ≠ json.scanError →
  walker_ok w →
  json.wlit w = None →
  before_key (json.wstack w) (json.parseState (json.wscan w)) →
  json.endTop (json.wscan w) = false →
  ∃ w', json.walk_byte w c = Some w' ∧ walker_ok w'.
Proof.
  intros Hstep Hdo Hv Hok Hlit Hb Het.
  unfold json.walk_byte. rewrite Hstep. clear Hstep.
  unfold json.close_literal. rewrite Hlit.
  destruct w as [[f et ps er] lit stk res].
  cbn [json.wscan json.wlit json.wstack json.wresult json.parseState json.endTop] in *.
  subst et lit.
  unfold json.do_stateBeginString, json.error_, json.set_step in Hdo.
  cbn [json.parseState json.endTop json.step json.err] in Hdo.
  repeat case_match; simplify_eq; try done; cbn;
    (eexists; split; [reflexivity|]); try exact Hok; unfold walker_ok; cbn;
    (split; [done|]); try done.
  match goal with H : Ascii.eqb c dquote = true |- _ => apply Ascii.eqb_eq in H as -> end.
  eexists []. split; [done|]. split; [|by right].
  exists [], []. split; [done|]. split; [constructor|done].
Qed.

(** A byte inside [true], [false], [null] or a number. *)
Lemma walk_byte_atom w c s' v :
  json.scan_step (json.wscan w) c = (s', v) →
  v ≠ json.scanError →
  json.endTop (json.wscan w) = false →
  (∃ c0 l, json.wlit w = Some (c0 :: l) ∧ Ascii.eqb c0 dquote = false
           ∧ before_value (json.wstack w) (json.parseState (json.wscan w))) →
  (v = json.scanContinue ∧ json.endTop s' = false
     ∧ json.parseState s' = json.parseState (json.wscan w)
     ∧ match json.step s' with
       | json.stateNeg | json.state1 | json.state0 | json.stateDot | json.stateDot0
       | json.stateE | json.stateESign | json.stateE0
       | json.stateT | json.stateTr | json.stateTru | json.stateF | json.stateFa
       | json.stateFal | json.stateFals | json.stateN | json.stateNu | json.stateNul
       | json.stateEndValue => True
       | _ => False
       end)
  ∨ json.do_stateEndValue (json.wscan w) c = (s', v) →
  ∃ w', json.walk_byte w c = Some w' ∧ walker_ok w'.
Proof.
  intros Hstep Hv Het (c0 & l & Hlit & Hq & Hb) [(-> & Het' & Hps & Hst)|Hdo].
  - rewrite (walk_byte_continue _ _ _ _ Hstep Hlit). eexists. split; [reflexivity|].
    destruct s' as [f' et' ps' er']. cbn in Het', Hps, Hst. subst et' ps'.
    unfold walker_ok. cbn [json.wscan json.step json.endTop json.parseState json.wlit
                             json.wstack json.wresult].
    split; [done|].
    destruct f'; try done; try (by eexists _, _; split; [reflexivity|]).
    eapply close_atom; [reflexivity|exact Hq|exact Hb].
  - destruct (close_atom w c0 l _ Hlit Hq Hb) as (w0 & Hclose & Ha).
    by eapply walk_byte_EndValue.
Qed.

Ltac string_step Hstep Hlit :=
  rewrite (walk_byte_continue (json.mkWalker _ _ _ _) _ _ _ Hstep Hlit); eexists; split; [reflexivity|];
  unfold walker_ok;
  cbn [json.wscan json.step json.endTop json.parseState json.wlit json.wstack
       json.wresult json.set_step];
  (split; [done|]).

(** A byte inside a string literal. *)
Lemma walk_byte_string w c s' v body :
  json.scan_step (json.wscan w) c = (s', v) →
  v ≠ json.scanError →
  json.endTop (json.wscan w) = false →
  json.wlit w = Some (dquote :: body) →
  in_string (json.step (json.wscan w)) body →
  before_value (json.wstack w) (json.parseState (json.wscan w))
  ∨ before_key (json.wstack w) (json.parseState (json.wscan w)) →
  ∃ w', json.walk_byte w c = Some w' ∧ walker_ok w'.
Proof.
  intros Hstep Hv Het Hlit (b0 & tl & -> & Hb0 & Htl) Hb.
  destruct w as [[f et ps er] lit stk res].
  cbn [json.wscan json.wlit json.wstack json.wresult json.parseState json.endTop
       json.step] in *.
  subst et lit. pose proof Hstep as Hdo. unfold json.scan_step in Hdo.
  cbn [json.step] in Hdo.
  destruct f; try done;
    unfold json.do_stateInString, json.do_stateInStringEsc, json.do_hex, json.error_,
      json.set_step in Hdo;
    cbn [json.parseState json.endTop json.step json.err] in Hdo;
    repeat case_match; simplify_eq; try done.
  - (* the closing quote *)
    match goal with H : Ascii.eqb c dquote = true |- _ => apply Ascii.eqb_eq in H as -> end.
    string_step Hstep (eq_refl (Some (dquote :: b0 ++ []))).
    rewrite app_nil_r.
    apply (close_string (json.mkWalker _ (Some (dquote :: b0 ++ [dquote])) stk res) b0 ps);
      done.
  - match goal with H : Ascii.eqb c bslash = true |- _ => apply Ascii.eqb_eq in H as -> end.
    string_step Hstep (eq_refl (Some (dquote :: b0 ++ []))).
    exists (b0 ++ [bslash]). split; [by rewrite app_nil_r|]. split; [|done].
    by exists b0, [bslash].
  - string_step Hstep (eq_refl (Some (dquote :: b0 ++ []))).
    exists (b0 ++ [c]). split; [by rewrite app_nil_r|]. split; [|done].
    exists (b0 ++ [c]), []. split; [by rewrite app_nil_r|]. split; [|done].
    apply string_body_app; [done|]. apply string_body_plain; [done..|constructor].
  - (* after a backslash *)
    string_step Hstep (eq_refl (Some (dquote :: b0 ++ [bslash]))).
    exists (b0 ++ [bslash; c]). split; [simpl; by rewrite <- app_assoc|]. split; [|done].
    exists (b0 ++ [bslash; c]), []. split; [by rewrite app_nil_r|]. split; [|done].
    apply string_body_app; [done|]. apply string_body_escape; [done|constructor].
  - match goal with H : Ascii.eqb c "u" = true |- _ => apply Ascii.eqb_eq in H as -> end.
    string_step Hstep (eq_refl (Some (dquote :: b0 ++ [bslash]))).
    exists (b0 ++ [bslash; "u"%char]). split; [simpl; by rewrite <- app_assoc|]. split; [|done].
    by exists b0, [bslash; "u"%char].
  - string_step Hstep (eq_refl (Some (dquote :: b0 ++ [bslash; "u"%char]))).
    exists (b0 ++ [bslash; "u"%char; c]). split; [simpl; by rewrite <- app_assoc|]. split; [|done].
    exists b0, [bslash; "u"%char; c]. split; [done|]. split; [done|]. by exists c.
  - destruct Htl as (h0 & -> & H0).
    string_step Hstep (eq_refl (Some (dquote :: b0 ++ [bslash; "u"%char; h0]))).
    exists (b0 ++ [bslash; "u"%char; h0; c]). split; [simpl; by rewrite <- app_assoc|].
    split; [|done].
    exists b0, [bslash; "u"%char; h0; c]. split; [done|]. split; [done|]. by exists h0, c.
  - destruct Htl as (h0 & h1 & -> & H0 & H1).
    string_step Hstep (eq_refl (Some (dquote :: b0 ++ [bslash; "u"%char; h0; h1]))).
    exists (b0 ++ [bslash; "u"%char; h0; h1; c]). split; [simpl; by rewrite <- app_assoc|].
    split; [|done].
    exists b0, [bslash; "u"%char; h0; h1; c]. split; [done|]. split; [done|].
    by exists h0, h1, c.
  - destruct Htl as (h0 & h1 & h2 & -> & H0 & H1 & H2).
    string_step Hstep (eq_refl (Some (dquote :: b0 ++ [bslash; "u"%char; h0; h1; h2]))).
    exists (b0 ++ [bslash; "u"%char; h0; h1; h2; c]). split; [simpl; by rewrite <- app_assoc|].
    split; [|done].
    exists (b0 ++ [bslash; "u"%char; h0; h1; h2; c]), [].
    split; [by rewrite app_nil_r|]. split; [|done].
    apply string_body_app; [done|]. apply string_body_u; [done..|constructor].
Qed.

Ltac atom_step Hstep Hok :=
  eapply walk_byte_atom; [exact Hstep|done|done|exact Hok|];
  let Hdo := fresh "Hdo" in
  pose proof Hstep as Hdo; unfold json.scan_step in Hdo; cbn [json.step json.wscan] in Hdo;
  unfold json.do_stateNeg, json.do_state1, json.do_state0, json.do_stateDot,
    json.do_stateDot0, json.do_stateE, json.do_stateESign, json.do_stateE0, json.do_lit,
    json.error_, json.set_step in Hdo;
  cbn [json.parseState json.endTop json.step json.err] in Hdo;
  repeat case_match; simplify_eq; try done;
  first [by right | by left].

(** The decoder takes every byte that the scanner accepts. *)
Lemma walk_byte_ok w c s' v :
  walker_ok w →
  json.scan_step (json.wscan w) c = (s', v) →
  v ≠ json.scanError →
  ∃ w', json.walk_byte w c = Some w' ∧ walker_ok w'.
Proof.
  intros Hw Hstep Hv. pose proof Hw as [Hg Hok].
  destruct w as [[f et ps er] lit stk res].
  cbn [json.wscan json.wlit json.wstack json.wresult json.parseState json.endTop
       json.step] in Hg, Hok.
  destruct f;
    try (destruct et; [by destruct Hg|]; clear Hg);
    try (atom_step Hstep Hok).
  - (* stateBeginValueOrEmpty *)
    destruct Hok as (-> & Hb & ps' & ->).
    pose proof Hstep as Hdo. unfold json.scan_step in Hdo. cbn [json.step json.wscan] in Hdo.
    unfold json.do_stateBeginValueOrEmpty in Hdo.
    destruct (json.isSpace c) eqn:Esp.
    { injection Hdo as <- <-. unfold json.walk_byte. rewrite Hstep. cbn.
      eexists. split; [reflexivity|]. exact Hw. }
    destruct (Ascii.eqb c "]").
    + eapply walk_byte_EndValue; [exact Hstep|exact Hdo|done|reflexivity| |done].
      by apply before_value_after_array.
    + by eapply walk_byte_BeginValue.
  - (* stateBeginValue *)
    destruct Hok as (-> & Hb). by eapply walk_byte_BeginValue.
  - (* stateBeginStringOrEmpty *)
    destruct Hok as (-> & Hb).
    pose proof Hstep as Hdo. unfold json.scan_step in Hdo. cbn [json.step json.wscan] in Hdo.
    unfold json.do_stateBeginStringOrEmpty in Hdo.
    destruct (json.isSpace c) eqn:Esp.
    { injection Hdo as <- <-. unfold json.walk_byte. rewrite Hstep. cbn.
      eexists. split; [reflexivity|]. exact Hw. }
    destruct (Ascii.eqb c "}").
    + eapply walk_byte_EndValue; [exact Hstep|exact Hdo|done|reflexivity| |done].
      by apply before_key_after_object.
    + by eapply walk_byte_BeginString.
  - (* stateBeginString *)
    destruct Hok as (-> & Hb). by eapply walk_byte_BeginString.
  - (* stateEndValue *)
    destruct Hok as (w0 & Hclose & Ha).
    eapply (walk_byte_EndValue _ _ (json.mkScanner json.stateEndValue false ps er));
      [exact Hstep|exact Hstep|done|exact Hclose|exact Ha|done].
  - (* stateEndTop *)
    destruct Hok as (-> & -> & Hres).
    pose proof Hstep as Hdo. unfold json.scan_step in Hdo. cbn [json.step json.wscan] in Hdo.
    unfold json.do_stateEndTop, json.error_ in Hdo.
    destruct (json.isSpace c); injection Hdo as <- <-;
      unfold json.walk_byte; rewrite Hstep; cbn;
      (eexists; split; [reflexivity|]); [exact Hw|].
    unfold walker_ok. cbn. auto.
  - destruct Hok as (body & -> & Hin & Hb). by eapply walk_byte_string.
  - destruct Hok as (body & -> & Hin & Hb). by eapply walk_byte_string.
  - destruct Hok as (body & -> & Hin & Hb). by eapply walk_byte_string.
  - destruct Hok as (body & -> & Hin & Hb). by eapply walk_byte_string.
  - destruct Hok as (body & -> & Hin & Hb). by eapply walk_byte_string.
  - destruct Hok as (body & -> & Hin & Hb). by eapply walk_byte_string.
  - (* stateError *)
    unfold json.scan_step in Hstep. cbn in Hstep. by injection Hstep as <- <-.
Qed.

End walker_steps.

Section parse_total.

Lemma walk_byte_scan w c w' :
  json.walk_byte w c = Some w' → json.wscan w' = fst (json.scan_step (json.wscan w) c).
Proof.
  unfold json.walk_byte. destruct (json.scan_step (json.wscan w) c) as [s v].
  intros H. destruct v; simplify_option_eq; repeat case_match; simplify_option_eq; try done;
    match goal with H : (let '(_, _) := ?p in _) = _ |- _ => destruct p; by simplify_eq end.
Qed.

Lemma scan_step_error s c s' :
  json.scan_step s c = (s', json.scanError) → json.endTop s' = json.endTop s.
Proof.
  destruct s as [f et ps er]. unfold json.scan_step. cbn [json.step].
  destruct f;
    unfold json.do_stateBeginValueOrEmpty, json.do_stateBeginStringOrEmpty,
      json.do_stateBeginString, json.do_stateBeginValue,
      json.do_stateInString, json.do_stateInStringEsc, json.do_hex,
      json.do_stateNeg, json.do_state1, json.do_state0, json.do_stateDot,
      json.do_stateDot0, json.do_stateE, json.do_stateESign, json.do_stateE0, json.do_lit,
      json.do_stateEndValue, json.do_stateEndTop, json.pushParseState, json.popParseState,
      json.replace_top, json.error_, json.set_step;
    cbn [json.parseState json.endTop json.step json.err fst tail];
    intros H; repeat case_match; simplify_eq; done.
Qed.

Lemma walker_ok_result w :
  walker_ok w → json.endTop (json.wscan w) = true → is_Some (json.wresult w).
Proof.
  intros [Hg Hok] Het. destruct (Hg Het) as [E|E]; rewrite E in Hok.
  - by destruct Hok as (_ & _ & ?).
  - by apply Hok.
Qed.

Lemma walk_ok data : ∀ w s',
  walker_ok w →
  json.checkValid_loop (json.wscan w) data = Some s' →
  ∃ w', json.walk w data = Some w' ∧ walker_ok w' ∧ json.wscan w' = s'.
Proof.
  induction data as [|c data IH]; intros w s' Hw Hloop.
  - injection Hloop as <-. by exists w.
  - cbn [json.checkValid_loop] in Hloop.
    destruct (json.scan_step (json.wscan w) c) as [s1 v] eqn:Estep.
    destruct (json.is_scanError v) eqn:Ev; [done|].
    destruct (walk_byte_ok w c s1 v Hw Estep) as (w1 & Hbyte & Hw1).
    { intros ->. done. }
    pose proof (walk_byte_scan _ _ _ Hbyte) as Hscan. rewrite Estep in Hscan.
    cbn [fst] in Hscan. rewrite <- Hscan in Hloop.
    destruct (IH w1 s' Hw1 Hloop) as (w' & Hwalk & Hw' & Hs').
    exists w'. split; [|done]. cbn [json.walk]. rewrite Hbyte. exact Hwalk.
Qed.

Lemma walker_ok_reset : walker_ok (json.mkWalker json.reset None [] None).
Proof. split; [done|]. cbn. split; [done|]. constructor. Qed.

(** The decoder does not reach [panic(phasePanicMsg)] on an input that
    [checkValid] accepts. *)
Lemma parse_total data :
  json.checkValid data = true → is_Some (json.parse data).
Proof.
  unfold json.checkValid, json.parse. intros Hvalid.
  destruct (json.checkValid_loop json.reset data) as [s|] eqn:Eloop; [|done].
  destruct (walk_ok data (json.mkWalker json.reset None [] None) s walker_ok_reset Eloop)
    as (w & -> & Hw & <-).
  cbn [mbind option_bind].
  unfold json.eof in Hvalid.
  destruct (json.err (json.wscan w)); [done|].
  destruct (json.endTop (json.wscan w)) eqn:Et.
  - cbn [mbind option_bind]. by apply walker_ok_result.
  - destruct (json.scan_step (json.wscan w) " ") as [s1 v] eqn:Estep. cbn [fst] in Hvalid.
    destruct (json.endTop s1) eqn:Et1; [|done].
    destruct (walk_byte_ok w " "%char s1 v Hw Estep) as (w1 & Hbyte & Hw1).
    { intros ->. apply scan_step_error in Estep. congruence. }
    rewrite Hbyte. cbn [mbind option_bind].
    apply walker_ok_result; [done|].
    rewrite (walk_byte_scan _ _ _ Hbyte), Estep. exact Et1.
Qed.

End parse_total.

Section store_errors.

Lemma saveError_spec saved e :
  json.saveError saved e ≠ None ∧
  (type_error_or_none saved → type_error_or_none (Some e) →
   type_error_or_none (json.saveError saved e)).
Proof. destruct saved; simpl; auto. Qed.

Lemma store_string_error v old saved :
  ((json.store_string v old saved).2 = None ↔ saved = None ∧ fits_string v = true)
  ∧ (type_error_or_none saved → type_error_or_none (json.store_string v old saved).2).
Proof.
  destruct v; simpl; try (split; [naive_solver|done]);
    (split; [|by destruct saved]); destruct saved; simpl; naive_solver.
Qed.

Lemma store_strings_error l : ∀ backing saved,
  ((json.store_strings l backing saved).2 = None
   ↔ saved = None ∧ forallb fits_string l = true)
  ∧ (type_error_or_none saved → type_error_or_none (json.store_strings l backing saved).2).
Proof.
  induction l as [|v l IH]; intros backing saved; simpl; [naive_solver|].
  pose proof (store_string_error v (hd [] backing) saved) as [H1 H2].
  destruct (json.store_string v (hd [] backing) saved) as [x saved1]. simpl in *.
  specialize (IH (tl backing) saved1) as [H3 H4].
  destruct (json.store_strings l (tl backing) saved1) as [xs saved2]. simpl in *.
  rewrite andb_true_iff. naive_solver.
Qed.

Lemma store_string_slice_error v old hidden saved :
  ((json.store_string_slice v old hidden saved).2 = None
   ↔ saved = None ∧ fits_strings v = true)
  ∧ (type_error_or_none saved →
     type_error_or_none (json.store_string_slice v old hidden saved).2).
Proof.
  destruct v as [| | | |l|]; simpl; try (split; [naive_solver|done]);
    try ((split; [|by destruct saved]); destruct saved; simpl; naive_solver).
  destruct l as [|v l]; [simpl; naive_solver|].
  pose proof (store_strings_error (v :: l) (elems old ++ hidden) saved) as [H1 H2].
  destruct (json.store_strings (v :: l) (elems old ++ hidden) saved) as [xs saved1].
  done.
Qed.

Lemma store_member_error acc kv :
  ((store_member acc kv).2 = None ↔ acc.2 = None ∧ fits_member kv = true)
  ∧ (type_error_or_none acc.2 → type_error_or_none (store_member acc kv).2).
Proof.
  destruct acc as [[c hidden] saved]. unfold store_member, fits_member.
  destruct (json.find_field Command_names kv.1) as [[]|]; [| | | |simpl; naive_solver].
  - pose proof (store_string_error kv.2 (Command.Directory c) saved) as [H1 H2].
    by destruct (json.store_string kv.2 (Command.Directory c) saved).
  - pose proof (store_string_error kv.2 (Command.Command c) saved) as [H1 H2].
    by destruct (json.store_string kv.2 (Command.Command c) saved).
  - pose proof (store_string_slice_error kv.2 (Command.Arguments c) hidden saved) as [H1 H2].
    by destruct (json.store_string_slice kv.2 (Command.Arguments c) hidden saved) as [[] ?].
  - pose proof (store_string_error kv.2 (Command.File c) saved) as [H1 H2].
    by destruct (json.store_string kv.2 (Command.File c) saved).
Qed.

Lemma store_members_error members : ∀ acc,
  ((fold_left store_member members acc).2 = None
   ↔ acc.2 = None ∧ forallb fits_member members = true)
  ∧ (type_error_or_none acc.2 → type_error_or_none (fold_left store_member members acc).2).
Proof.
  induction members as [|kv members IH]; intros acc; simpl; [naive_solver|].
  pose proof (store_member_error acc kv) as [H1 H2].
  specialize (IH (store_member acc kv)) as [H3 H4].
  rewrite andb_true_iff. naive_solver.
Qed.

Lemma store_Command_error v old saved :
  ((store_Command v old saved).2 = None ↔ saved = None ∧ fits_Command v = true)
  ∧ (type_error_or_none saved → type_error_or_none (store_Command v old saved).2).
Proof.
  destruct v as [| | | | |members]; simpl; try (split; [naive_solver|done]);
    try ((split; [|by destruct saved]); destruct saved; simpl; naive_solver).
  pose proof (store_members_error members (old, [], saved)) as [H1 H2].
  by destruct (fold_left store_member members (old, [], saved)) as [[] ?].
Qed.

Lemma store_Commands_error l : ∀ saved,
  ((store_Commands l saved).2 = None ↔ saved = None ∧ forallb fits_Command l = true)
  ∧ (type_error_or_none saved → type_error_or_none (store_Commands l saved).2).
Proof.
  induction l as [|v l IH]; intros saved; simpl; [naive_solver|].
  pose proof (store_Command_error v Command.zero saved) as [H1 H2].
  destruct (store_Command v Command.zero saved) as [c saved1]. simpl in *.
  specialize (IH saved1) as [H3 H4].
  destruct (store_Commands l saved1) as [cs saved2]. simpl in *.
  rewrite andb_true_iff. naive_solver.
Qed.

Lemma store_slice_error v old :
  ((store_slice v old).2 = None ↔ fits_Commands v = true)
  ∧ type_error_or_none (store_slice v old).2.
Proof.
  destruct v as [| | | |l|]; simpl; try done.
  pose proof (store_Commands_error l None) as [H1 H2].
  destruct (store_Commands l None) as [cs saved]. simpl in *. naive_solver.
Qed.

(** [Unmarshal] returns. *)
Lemma Unmarshal_returns data old :
  ∃ c e,
    Unmarshal data old = Returns (c, e)
    ∧ (json.checkValid data = false → c = old ∧ e = Some SyntaxError)
    ∧ (json.checkValid data = true →
       ∃ v, json.parse data = Some v ∧ (c, e) = store_slice v old).
Proof.
  unfold Unmarshal. destruct (json.checkValid data) eqn:Ev; simpl.
  - destruct (parse_total data Ev) as [v ->].
    destruct (store_slice v old) as [c e] eqn:Es. exists c, e.
    split; [done|]. split; [done|]. intros _. by exists v.
  - exists old, (Some SyntaxError). done.
Qed.

End store_errors.

Section run.

Lemma length_insert_sorted x l :
  length (compile.insert_sorted x l) = S (length l).
Proof. induction l as [|y l IH]; simpl; [done|]. destruct (compile.string_lt x y); simpl; lia. Qed.

Lemma length_sort_Strings a : length (compile.sort_Strings a) = length a.
Proof.
  induction a as [|x a IH]; [done|].
  unfold compile.sort_Strings in *. cbn [foldr]. rewrite length_insert_sorted, IH. done.
Qed.

Lemma index_last_panics {A} (a : list A) :
  compile.index a (Z.of_nat (length a) - 1) = Panics ↔ a = [].
Proof.
  unfold compile.index. destruct a as [|x a]; [done|].
  cbn [length]. split; [|done].
  destruct (Z.ltb_spec (Z.of_nat (S (length a)) - 1) 0); [lia|].
  destruct (Z.leb_spec (Z.of_nat (S (length a))) (Z.of_nat (S (length a)) - 1)); [lia|].
  cbn [orb].
  destruct (lookup_lt_is_Some_2 (x :: a) (Z.to_nat (Z.of_nat (S (length a)) - 1)))
    as [y ->]; [cbn [length]; lia|done].
Qed.

End run.

(** ** The operations *)

Section Add.

Lemma Getwd_world_after_Add w command :
  os.Getwd (world_after_Add w command) = os.Getwd w.
Proof.
  unfold world_after_Add. case_bool_decide; [|done].
  destruct (os.Getwd w) as [dir [e|]] eqn:E; simpl; [|done].
  unfold os.Getwd in *. simpl. done.
Qed.

Lemma entry_of_world_after_Add w command target command' :
  entry_of (world_after_Add w command) target command' = entry_of w target command'.
Proof. unfold entry_of. by rewrite Getwd_world_after_Add. Qed.

(** What a call of [Add] does to the state. *)
Lemma Add_run s db d target command :
  heap s !! db = Some d →
  Add db target command s =
    Returns (tt, mkState
      (<[db := mkDatabase (append (Contents d) (entry_of (world s) target command)) (File d)]>
         (heap s))
      (world_after_Add (world s) command)).
Proof.
  intros Hd. unfold Add, entry_of, world_after_Add, bind.
  case_bool_decide as Hdir.
  - unfold Getwd. destruct (os.Getwd (world s)) as [dir [e|]] eqn:E; simpl.
    + unfold Println, ret, load, store_Contents. simpl. rewrite Hd. simpl. by rewrite Hd.
    + unfold ret, load, store_Contents. rewrite Hd. simpl. rewrite Hd. by destruct s.
  - unfold ret, load, store_Contents. rewrite Hd. simpl. rewrite Hd. by destruct s.
Qed.

Lemma Add_all_run calls : ∀ s db d,
  heap s !! db = Some d →
  ∃ s' d',
    Add_all db calls s = Returns (tt, s') ∧
    heap s' !! db = Some d' ∧
    elems (Contents d') =
      elems (Contents d) ++ map (λ call, entry_of (world s) call.1 call.2) calls ∧
    File d' = File d ∧
    length (heap s') = length (heap s) ∧
    (∀ db', db' ≠ db → heap s' !! db' = heap s !! db').
Proof.
  induction calls as [|[target command] calls IH]; intros s db d Hd.
  - exists s, d. simpl. rewrite app_nil_r. done.
  - simpl. unfold bind. rewrite (Add_run _ _ _ _ _ Hd).
    pose proof (lookup_lt_Some _ _ _ Hd) as Hlt.
    edestruct (IH (mkState
      (<[db := mkDatabase (append (Contents d) (entry_of (world s) target command)) (File d)]>
         (heap s)) (world_after_Add (world s) command)) db) as (s' & d' & Hrun & Hd' & Hel & Hf & Hlen & Hother).
    { simpl. by apply list_lookup_insert_eq. }
    exists s', d'. split; [done|]. split; [done|]. simpl in *.
    split.
    { rewrite Hel. rewrite <- app_assoc. simpl. f_equal. f_equal.
      apply map_ext. intros [t c]. apply entry_of_world_after_Add. }
    split; [done|]. split.
    { rewrite Hlen. by rewrite length_insert. }
    intros db' Hne. rewrite Hother by done. by apply list_lookup_insert_ne.
Qed.

End Add.

Section SaveToFile.

(** What a call of [SaveToFile] does to the state. *)
Lemma SaveToFile_with_run marshalIndent s db d :
  heap s !! db = Some d →
  SaveToFile_with marshalIndent db s =
    Returns (tt, mkState (heap s)
      match marshalIndent (Contents d) [] (str " ") with
      | (_, Some e) =>
        os.Println (world s) (str "Error serializing compilation database: %s") e
      | (jsonContents, None) =>
        match os.WriteFile (world s) (File d) jsonContents with
        | (w, Some e) => os.Println w (str "Error writing compilation database: %s") e
        | (w, None) => w
        end
      end).
Proof.
  intros Hd. unfold SaveToFile_with, bind, load. rewrite Hd.
  destruct (marshalIndent (Contents d) [] (str " ")) as [b [e|]]; [done|].
  unfold WriteFile. simpl.
  destruct (os.WriteFile (world s) (File d) b) as [w [e|]]; done.
Qed.

End SaveToFile.

Section LoadDatabase.

Lemma LoadDatabase_unreadable s file :
  os.files (world s) !! file = None →
  LoadDatabase file s = Returns ((None, Some ErrReadFile), s).
Proof.
  intros Hf. unfold LoadDatabase, bind, ReadFile, os.ReadFile, paths.Path in *. by rewrite Hf.
Qed.

Lemma LoadDatabase_run s file data c e :
  os.files (world s) !! file = Some data →
  Unmarshal data (mk_slice []) = Returns (c, e) →
  LoadDatabase file s =
    Returns ((Some (length (heap s)), e),
             mkState (heap s ++ [mkDatabase c file]) (world s)).
Proof.
  intros Hf Hu. unfold LoadDatabase, bind, ReadFile, os.ReadFile, paths.Path in *. rewrite Hf.
  assert (Hd : ∀ x : Database, (heap s ++ [x]) !! length (heap s) = Some x).
  { intros x. rewrite lookup_app_r by lia. by rewrite Nat.sub_diag. }
  unfold NewDatabase, new, load, store_Contents, ret. cbn [heap world].
  rewrite Hd. cbn [Contents File heap world]. rewrite Hu.
  cbn beta iota. cbn [heap world]. rewrite Hd. cbn [Contents File heap world].
  rewrite insert_app_r_alt by lia. rewrite Nat.sub_diag. done.
Qed.

End LoadDatabase.

Section round_trip.

Lemma same_fields_reloaded c : same_fields c (reloaded c).
Proof.
  unfold same_fields, reloaded. simpl. repeat split.
  case_bool_decide as H; [|done].
  unfold len in H. by destruct (elems (Command.Arguments c)).
Qed.

Lemma same_fields_reloaded_slice v :
  Forall2 same_fields (elems v) (elems (reloaded_slice v)).
Proof.
  destruct v as [|l]; simpl; [constructor|].
  induction l; simpl; constructor; auto using same_fields_reloaded.
Qed.

Lemma well_formed_reloaded c : well_formed c → well_formed (reloaded c).
Proof.
  unfold well_formed, reloaded. simpl.
  intros [[H1 H2]|[H1 H2]].
  - left. split; [done|]. by rewrite bool_decide_true.
  - right. split; [done|]. by rewrite bool_decide_false.
Qed.

Lemma SaveToFile_run s db d :
  heap s !! db = Some d →
  os.fault (world s) = os.WriteOK →
  SaveToFile db s =
    Returns (tt, mkState (heap s)
      (os.mkWorld (<[File d := (MarshalIndent (Contents d) [] (str " ")).1]> (os.files (world s)))
         (os.cwd (world s)) (os.fault (world s)) (os.stdout (world s)))).
Proof.
  intros Hd Hfault. unfold SaveToFile. rewrite (SaveToFile_with_run _ _ _ _ Hd).
  destruct (Contents d) as [|l].
  - rewrite MarshalIndent_nil. unfold os.WriteFile. by rewrite Hfault.
  - rewrite MarshalIndent_layout. unfold os.WriteFile. by rewrite Hfault.
Qed.

End round_trip.

Section SaveToFile_facts.

Lemma MarshalIndent_serialized v : MarshalIndent v [] (str " ") = (serialized v, None).
Proof. destruct v; [apply MarshalIndent_nil | apply MarshalIndent_layout]. Qed.

End SaveToFile_facts.

Section well_formed.

Lemma well_formed_entry_of w target command :
  well_formed (entry_of w target command) ↔ len (paths.GetArgs command) ≠ 0%nat.
Proof.
  unfold well_formed, entry_of. simpl. split.
  - intros [[H _]|[_ H]]; [by destruct H | done].
  - intros H. by right.
Qed.

End well_formed.

(** ** The claims *)

(** C1, as it is stated, fails: a directory whose name is the byte [0xFF]
    is written as [�] and read back as the three bytes of U+FFFD. *)
Lemma round_trip_fails_without_utf8 : ¬ round_trip_of_well_formed.
Proof.
  intros H.
  destruct (H ex_state_not_utf8 0%nat (mkDatabase (mk_slice [ex_entry_not_utf8]) ex_path))
    as (s1 & db' & s2 & d' & Hsave & Hload & Hd' & Hsame).
  - reflexivity.
  - constructor; [|constructor]. right. split; [reflexivity|]. simpl. discriminate.
  - reflexivity.
  - vm_compute in Hsave. injection Hsave as <-.
    vm_compute in Hload. injection Hload as <- <-.
    vm_compute in Hd'. injection Hd' as <-.
    simpl in Hsame. inversion Hsame as [|? ? ? ? [Hdir _] _]; subst.
    vm_compute in Hdir. discriminate Hdir.
Qed.

(** C1, with the condition that it needs. For a database whose strings are
    all valid UTF-8, [SaveToFile] and then, when the write met no failure,
    [LoadDatabase] on the same path return without error a new database
    with the same entries: as many, in the same order, each field with the
    value that was saved. (An argument vector that is empty is read back as
    nil.) *)
Theorem SaveToFile_then_LoadDatabase s db d :
  heap s !! db = Some d →
  Forall valid_Command (elems (Contents d)) →
  os.fault (world s) = os.WriteOK →
  ∃ s1 s2,
    SaveToFile db s = Returns (tt, s1) ∧
    LoadDatabase (File d) s1 = Returns ((Some (length (heap s)), None), s2) ∧
    heap s2 = heap s ++ [mkDatabase (reloaded_slice (Contents d)) (File d)] ∧
    len (reloaded_slice (Contents d)) = len (Contents d) ∧
    Forall2 same_fields (elems (Contents d)) (elems (reloaded_slice (Contents d))).
Proof.
  intros Hd Hvalid Hfault. eexists _, _.
  split; [by apply SaveToFile_run|].
  split.
  { erewrite LoadDatabase_run; [reflexivity| |].
    - simpl. apply lookup_insert_eq.
    - by apply Unmarshal_MarshalIndent. }
  simpl. split; [done|].
  pose proof (same_fields_reloaded_slice (Contents d)) as Hsame.
  split; [|done]. unfold len. symmetry. by eapply Forall2_length.
Qed.

Lemma SaveToFile_then_LoadDatabase_witness :
  heap ex_state_one !! 0%nat = Some (mkDatabase (mk_slice [ex_entry]) ex_path) ∧
  ∃ s1 s2,
    SaveToFile 0%nat ex_state_one = Returns (tt, s1) ∧
    LoadDatabase ex_path s1 = Returns ((Some 1%nat, None), s2) ∧
    heap s2 = heap ex_state_one ++ [mkDatabase (mk_slice [ex_entry]) ex_path].
Proof.
  split; [reflexivity|].
  destruct (SaveToFile_then_LoadDatabase ex_state_one 0%nat
              (mkDatabase (mk_slice [ex_entry]) ex_path) eq_refl)
    as (s1 & s2 & Hsave & Hload & Hheap & _).
  - constructor; [|constructor].
    split; [reflexivity|]. split; [reflexivity|]. split; [|reflexivity].
    simpl. repeat (constructor; [reflexivity|]). constructor.
  - reflexivity.
  - exists s1, s2. split; [exact Hsave|]. split; [exact Hload|]. exact Hheap.
Defined.

(** C2. A call of [Add] appends exactly one entry at the end of the
    contents of its database: the entries that were there are the same, at
    the same positions, and no other database changes. After any sequence
    of calls of [Add], the new entries are those of the calls, in the order
    of the calls. *)
Theorem Add_appends_in_call_order s db d target command calls :
  heap s !! db = Some d →
  (∃ s',
     Add db target command s = Returns (tt, s') ∧
     heap s' !! db =
       Some (mkDatabase
               (mk_slice (elems (Contents d) ++ [entry_of (world s) target command]))
               (File d)) ∧
     len (append (Contents d) (entry_of (world s) target command))
       = S (len (Contents d)) ∧
     (∀ i x, elems (Contents d) !! i = Some x →
             (elems (Contents d) ++ [entry_of (world s) target command]) !! i = Some x) ∧
     (∀ db', db' ≠ db → heap s' !! db' = heap s !! db')) ∧
  (∃ s' d',
     Add_all db calls s = Returns (tt, s') ∧
     heap s' !! db = Some d' ∧
     elems (Contents d') =
       elems (Contents d) ++ map (λ call, entry_of (world s) call.1 call.2) calls ∧
     map Command.File (drop (len (Contents d)) (elems (Contents d')))
       = map (λ call, paths.String call.1) calls).
Proof.
  intros Hd. split.
  - eexists. split; [by apply Add_run|]. simpl.
    pose proof (lookup_lt_Some _ _ _ Hd) as Hlt.
    split; [by apply list_lookup_insert_eq|].
    split; [unfold len, append; simpl; rewrite length_app; simpl; lia|].
    split; [intros i x Hx; by apply lookup_app_l_Some|].
    intros db' Hne. by apply list_lookup_insert_ne.
  - destruct (Add_all_run calls s db d Hd) as (s' & d' & Hrun & Hd' & Hel & _).
    exists s', d'. repeat split; try done.
    rewrite Hel. unfold len. rewrite drop_app_length.
    rewrite map_map. by apply map_ext.
Qed.

Lemma Add_appends_in_call_order_witness :
  heap ex_state !! 0%nat = Some (mkDatabase (mk_slice []) ex_path) ∧
  ∃ s' d',
    Add_all 0%nat [(str "/src/a.c", ex_process); (str "/src/b.c", ex_process)] ex_state
      = Returns (tt, s') ∧
    heap s' !! 0%nat = Some d' ∧
    map Command.File (elems (Contents d')) = [str "/src/a.c"; str "/src/b.c"].
Proof.
  split; [reflexivity|].
  destruct (Add_appends_in_call_order ex_state 0%nat (mkDatabase (mk_slice []) ex_path)
              (str "/src/main.c") ex_process
              [(str "/src/a.c", ex_process); (str "/src/b.c", ex_process)] eq_refl)
    as [_ (s' & d' & Hrun & Hd' & Hel & Hfiles)].
  exists s', d'. split; [exact Hrun|]. split; [exact Hd'|]. exact Hfiles.
Defined.

(** C3. The entry that [Add] appends has the directory of the command when
    the command has one, and otherwise the working directory of the process
    at the call. *)
Theorem Add_records_directory s db d target command :
  heap s !! db = Some d →
  ∃ s' entry,
    Add db target command s = Returns (tt, s') ∧
    heap s' !! db =
      Some (mkDatabase (mk_slice (elems (Contents d) ++ [entry])) (File d)) ∧
    (paths.GetDir command ≠ [] → Command.Directory entry = paths.GetDir command) ∧
    (paths.GetDir command = [] →
     ∀ dir, os.cwd (world s) = Some dir → Command.Directory entry = dir).
Proof.
  intros Hd. exists (mkState
    (<[db := mkDatabase (append (Contents d) (entry_of (world s) target command)) (File d)]>
       (heap s)) (world_after_Add (world s) command)), (entry_of (world s) target command).
  split; [by apply Add_run|].
  pose proof (lookup_lt_Some _ _ _ Hd) as Hlt.
  split; [simpl; by apply list_lookup_insert_eq|].
  unfold entry_of. simpl. split.
  - intros Hne. by rewrite bool_decide_false.
  - intros He dir Hcwd. rewrite bool_decide_true by done.
    unfold os.Getwd. by rewrite Hcwd.
Qed.

Lemma Add_records_directory_witness :
  heap ex_state !! 0%nat = Some (mkDatabase (mk_slice []) ex_path) ∧
  ∃ s' entry,
    Add 0%nat (str "/src/main.c") ex_process ex_state = Returns (tt, s') ∧
    heap s' !! 0%nat = Some (mkDatabase (mk_slice [entry]) ex_path) ∧
    Command.Directory entry = str "/work".
Proof.
  split; [reflexivity|].
  destruct (Add_records_directory ex_state 0%nat (mkDatabase (mk_slice []) ex_path)
              (str "/src/main.c") ex_process eq_refl)
    as (s' & entry & Hrun & Hd' & _ & Hcwd).
  exists s', entry. split; [exact Hrun|]. split; [exact Hd'|].
  exact (Hcwd eq_refl (str "/work") eq_refl).
Defined.

(** C4, as it is stated, fails: a file that holds [null] is not a JSON
    array, and [LoadDatabase] returns no error for it. *)
Lemma LoadDatabase_accepts_null : ¬ LoadDatabase_error_exactly.
Proof.
  intros H.
  destruct (H ex_state_null ex_path (Some 0%nat, None) _ ltac:(vm_compute; reflexivity))
    as [_ Herr].
  apply Herr; [|reflexivity].
  right. exists (str "null"). split; vm_compute; reflexivity.
Qed.

(** C4, as the code has it. [LoadDatabase] returns for every file. When
    the file cannot be read, it returns no database and the read error, and
    the state is as it was. Otherwise it returns a new database bound to
    the path, after the databases that were there, and with it:
    [SyntaxError] and no entries when the content is not valid JSON; an
    [UnmarshalTypeError] when the content is valid JSON and some value has
    a type that its place does not take; no error when every value fits,
    whatever keys the objects have. *)
Theorem LoadDatabase_errors s file :
  match os.files (world s) !! file with
  | None => LoadDatabase file s = Returns ((None, Some ErrReadFile), s)
  | Some data =>
    ∃ c e,
      LoadDatabase file s =
        Returns ((Some (length (heap s)), e),
                 mkState (heap s ++ [mkDatabase c file]) (world s))
      ∧ (json.checkValid data = false → e = Some SyntaxError ∧ c = mk_slice [])
      ∧ (json.checkValid data = true →
         ∃ v, json.parse data = Some v
              ∧ (fits_Commands v = true → e = None)
              ∧ (fits_Commands v = false → ∃ k, e = Some (UnmarshalTypeError k)))
  end.
Proof.
  destruct (os.files (world s) !! file) as [data|] eqn:Efile.
  - destruct (Unmarshal_returns data (mk_slice [])) as (c & e & Hu & Hbad & Hgood).
    exists c, e. split; [by apply LoadDatabase_run with data|].
    split; [naive_solver|].
    intros Hv. destruct (Hgood Hv) as (v & Hparse & Hstore). exists v.
    split; [done|].
    pose proof (store_slice_error v (mk_slice [])) as [H1 H2].
    rewrite <- Hstore in H1, H2. simpl in H1, H2.
    split; [naive_solver|].
    intros Hfits. destruct e as [[]|]; try done; [by eexists|].
    destruct H1 as [H1 _]. rewrite H1 in Hfits; done.
  - by apply LoadDatabase_unreadable.
Qed.

(** C5. [SaveToFile] and [Add] return to their caller whatever fails in
    them. [SaveToFile] returns when the serialization fails and when the
    write fails, and prints the error; [Add] returns when the working
    directory cannot be determined, prints the error and appends the entry
    all the same. The serialization is any function here, so one that
    fails is covered. *)
Theorem Add_and_SaveToFile_never_fail marshalIndent s db d target command :
  heap s !! db = Some d →
  (∃ s',
     SaveToFile_with marshalIndent db s = Returns (tt, s') ∧
     heap s' = heap s ∧
     (∀ b e, marshalIndent (Contents d) [] (str " ") = (b, Some e) →
        world s' =
          os.Println (world s) (str "Error serializing compilation database: %s") e) ∧
     (∀ b, marshalIndent (Contents d) [] (str " ") = (b, None) →
        os.fault (world s) ≠ os.WriteOK →
        ∃ e, os.stdout (world s') =
               os.stdout (world s) ++ [(str "Error writing compilation database: %s", e)])) ∧
  (∃ s', SaveToFile db s = Returns (tt, s') ∧ heap s' = heap s) ∧
  (∃ s',
     Add db target command s = Returns (tt, s') ∧
     heap s' !! db =
       Some (mkDatabase
               (mk_slice (elems (Contents d) ++ [entry_of (world s) target command]))
               (File d)) ∧
     (paths.GetDir command = [] → os.cwd (world s) = None →
        Command.Directory (entry_of (world s) target command) = [] ∧
        os.stdout (world s') =
          os.stdout (world s)
            ++ [(str "Error getting current directory for compilation database: %s",
                 ErrGetwd)])).
Proof.
  intros Hd. split; [|split].
  - eexists. split; [by apply SaveToFile_with_run|]. simpl. split; [done|]. split.
    + intros b e ->. done.
    + intros b -> Hfault. unfold os.WriteFile.
      destruct (os.fault (world s)); [done| |]; eexists; reflexivity.
  - eexists. split; [by apply SaveToFile_with_run|]. done.
  - eexists. split; [by apply Add_run|].
    pose proof (lookup_lt_Some _ _ _ Hd) as Hlt.
    split; [simpl; by apply list_lookup_insert_eq|].
    intros Hdir Hcwd. unfold entry_of, world_after_Add, os.Getwd.
    rewrite !bool_decide_true by done. rewrite Hcwd. done.
Qed.

Lemma Add_and_SaveToFile_never_fail_witness :
  heap ex_state_no_cwd !! 0%nat = Some (mkDatabase (mk_slice []) ex_path) ∧
  (∃ s', SaveToFile 0%nat ex_state_no_cwd = Returns (tt, s')) ∧
  (∃ s', Add 0%nat (str "/src/main.c") ex_process ex_state_no_cwd = Returns (tt, s') ∧
         heap s' !! 0%nat =
           Some (mkDatabase
                   (mk_slice [Command.mk [] [] (paths.Args ex_process) (str "/src/main.c")])
                   ex_path)).
Proof.
  split; [reflexivity|].
  destruct (Add_and_SaveToFile_never_fail MarshalIndent ex_state_no_cwd 0%nat
              (mkDatabase (mk_slice []) ex_path) (str "/src/main.c") ex_process eq_refl)
    as (_ & (s1 & Hsave & _) & (s2 & Hadd & Hd' & _)).
  split; [exists s1; exact Hsave|]. exists s2. split; [exact Hadd|]. exact Hd'.
Defined.

(** C6, as it is stated, fails: a write that fails after five bytes leaves
    the file with the first five bytes of the serialization, which is
    neither the whole serialization nor what the file held before. *)
Lemma SaveToFile_not_atomic : ¬ SaveToFile_is_atomic.
Proof.
  intros H.
  destruct (H ex_state_short_write 0%nat (mkDatabase (mk_slice [ex_entry]) ex_path)
              _ eq_refl ltac:(vm_compute; reflexivity)) as [Hfull | Hsame].
  - vm_compute in Hfull. discriminate Hfull.
  - vm_compute in Hsame. discriminate Hsame.
Qed.

(** C6, as the code has it. After [SaveToFile] the file of the database
    holds the whole serialization when the write meets no failure; what it
    held before when it cannot be opened; and the first [n] bytes of the
    serialization, and no more, when the write fails after [n] bytes. No
    other file changes. *)
Theorem SaveToFile_file_after s db d :
  heap s !! db = Some d →
  ∃ s',
    SaveToFile db s = Returns (tt, s') ∧
    match os.fault (world s) with
    | os.WriteOK => os.files (world s') !! File d = Some (serialized (Contents d))
    | os.OpenFails => os.files (world s') = os.files (world s)
    | os.WriteFails n =>
      os.files (world s') !! File d = Some (take n (serialized (Contents d)))
    end ∧
    (∀ p, p ≠ File d → os.files (world s') !! p = os.files (world s) !! p).
Proof.
  intros Hd. eexists. split.
  { unfold SaveToFile. by apply SaveToFile_with_run. }
  rewrite MarshalIndent_serialized. unfold os.WriteFile.
  destruct (os.fault (world s)) as [| |n]; simpl.
  - split; [apply lookup_insert_eq|]. intros p Hp. by apply lookup_insert_ne.
  - done.
  - split; [apply lookup_insert_eq|]. intros p Hp. by apply lookup_insert_ne.
Qed.

Lemma SaveToFile_file_after_witness :
  heap ex_state_short_write !! 0%nat = Some (mkDatabase (mk_slice [ex_entry]) ex_path) ∧
  ∃ s',
    SaveToFile 0%nat ex_state_short_write = Returns (tt, s') ∧
    os.files (world s') !! ex_path = Some ["["%char; newline; " "%char; "{"%char; newline].
Proof.
  split; [reflexivity|].
  destruct (SaveToFile_file_after ex_state_short_write 0%nat
              (mkDatabase (mk_slice [ex_entry]) ex_path) eq_refl)
    as (s' & Hsave & Hfile & _).
  exists s'. split; [exact Hsave|]. exact Hfile.
Defined.

(** C7, as it is stated, fails: [LoadDatabase] on a file that holds [null]
    returns a database whose contents are nil, and [SaveToFile] writes it as
    [null], which is not an array. *)
Lemma SaveToFile_writes_null : ¬ SaveToFile_writes_an_array.
Proof.
  intros H.
  destruct (H (mkState [mkDatabase nil_slice ex_path] ex_world) 0%nat
              (mkDatabase nil_slice ex_path) _ eq_refl eq_refl
              ltac:(vm_compute; reflexivity)) as (data & l & Hdata & Hparse).
  vm_compute in Hdata. injection Hdata as <-.
  vm_compute in Hparse. discriminate Hparse.
Qed.

(** The database with nil contents is the one that [LoadDatabase] returns
    for a file that holds [null]. *)
Example LoadDatabase_null :
  ∃ s', LoadDatabase ex_path ex_state_null = Returns ((Some 0%nat, None), s')
        ∧ heap s' = [mkDatabase nil_slice ex_path].
Proof. eexists. split; vm_compute; reflexivity. Qed.

(** C7, with the condition that it needs. After a write that meets no
    failure the file holds [serialized (Contents d)]: for contents that are
    not nil the layout [layout_Contents], an array with one object per
    entry, the keys [directory], [command], [arguments], [file] in this
    order, [command] left out when it is empty and [arguments] when there
    are none, every item on a line of its own, one space deeper per level;
    for nil contents the text [null]. When the strings are valid UTF-8 the
    layout is valid JSON and reads back as the array of the entries. *)
Theorem SaveToFile_serialization s db d :
  heap s !! db = Some d →
  os.fault (world s) = os.WriteOK →
  ∃ s',
    SaveToFile db s = Returns (tt, s') ∧
    MarshalIndent (Contents d) [] (str " ") = (serialized (Contents d), None) ∧
    os.files (world s') !! File d = Some (serialized (Contents d)) ∧
    (∀ l, Contents d = mk_slice l → Forall valid_Command l →
       json.checkValid (serialized (Contents d)) = true ∧
       json.parse (serialized (Contents d)) = Some (json.JArray (map value_of_Command l))).
Proof.
  intros Hd Hfault. eexists. split; [by apply SaveToFile_run|].
  split; [apply MarshalIndent_serialized|].
  rewrite MarshalIndent_serialized. simpl.
  split; [apply lookup_insert_eq|].
  intros l -> Hvalid. by apply parse_layout_Contents.
Qed.

Lemma SaveToFile_serialization_witness :
  heap ex_state_one !! 0%nat = Some (mkDatabase (mk_slice [ex_entry]) ex_path) ∧
  os.fault (world ex_state_one) = os.WriteOK ∧
  ∃ s',
    SaveToFile 0%nat ex_state_one = Returns (tt, s') ∧
    os.files (world s') !! ex_path = Some (layout_Contents [ex_entry]) ∧
    json.parse (layout_Contents [ex_entry]) = Some (json.JArray [value_of_Command ex_entry]).
Proof.
  split; [reflexivity|]. split; [reflexivity|].
  destruct (SaveToFile_serialization ex_state_one 0%nat
              (mkDatabase (mk_slice [ex_entry]) ex_path) eq_refl eq_refl)
    as (s' & Hsave & _ & Hfile & Hparse).
  exists s'. split; [exact Hsave|]. split; [exact Hfile|].
  refine (proj2 (Hparse [ex_entry] eq_refl _)).
  constructor; [|constructor].
  split; [reflexivity|]. split; [reflexivity|]. split; [|reflexivity].
  simpl. repeat (constructor; [reflexivity|]). constructor.
Defined.

(** C8. [NewDatabase] returns a database with no entries and leaves the
    world as it is; [SaveToFile] on it serializes the contents as [[]],
    which is valid JSON, an empty array, and is the content of the file
    after a write that meets no failure. *)
Theorem SaveToFile_of_NewDatabase s filename :
  os.fault (world s) = os.WriteOK →
  ∃ db s1 s2,
    NewDatabase filename s = Returns (db, s1) ∧
    world s1 = world s ∧
    heap s1 !! db = Some (mkDatabase (mk_slice []) filename) ∧
    MarshalIndent (mk_slice []) [] (str " ") = (str "[]", None) ∧
    SaveToFile db s1 = Returns (tt, s2) ∧
    os.files (world s2) !! filename = Some (str "[]") ∧
    json.checkValid (str "[]") = true ∧
    json.parse (str "[]") = Some (json.JArray []).
Proof.
  intros Hfault.
  assert (Hd : (heap s ++ [mkDatabase (mk_slice []) filename]) !! length (heap s)
               = Some (mkDatabase (mk_slice []) filename)).
  { rewrite lookup_app_r by lia. by rewrite Nat.sub_diag. }
  eexists _, _, _. split; [reflexivity|]. simpl.
  split; [done|]. split; [exact Hd|]. split; [by vm_compute|].
  split.
  { unfold SaveToFile. erewrite SaveToFile_with_run by exact Hd. reflexivity. }
  simpl. change (MarshalIndent (mk_slice []) [] (str " ")) with (str "[]", @None error).
  unfold os.WriteFile. simpl. rewrite Hfault. simpl.
  split; [by rewrite lookup_insert_eq|]. split; by vm_compute.
Qed.

Lemma SaveToFile_of_NewDatabase_witness :
  os.fault (world ex_state) = os.WriteOK ∧
  ∃ db s1 s2,
    NewDatabase (str "/out/new.json") ex_state = Returns (db, s1) ∧
    SaveToFile db s1 = Returns (tt, s2) ∧
    os.files (world s2) !! str "/out/new.json" = Some (str "[]").
Proof.
  split; [reflexivity|].
  destruct (SaveToFile_of_NewDatabase ex_state (str "/out/new.json") eq_refl)
    as (db & s1 & s2 & Hnew & _ & _ & _ & Hsave & Hfile & _).
  exists db, s1, s2. split; [exact Hnew|]. split; [exact Hsave|]. exact Hfile.
Defined.

(** C9, as it is stated, fails: [LoadDatabase] on a file that holds an
    array with an empty object returns a database with an entry that has
    neither a command string nor arguments. *)
Lemma LoadDatabase_breaks_well_formed : ¬ LoadDatabase_keeps_well_formed.
Proof.
  intros H.
  specialize (H ex_state_empty_object ex_path 0%nat None _
                (mkDatabase (mk_slice [Command.zero]) ex_path)
                ltac:(vm_compute; reflexivity) ltac:(vm_compute; reflexivity)).
  inversion H as [|? ? [[Hcmd _]|[_ Hargs]] _]; subst.
  - by apply Hcmd.
  - by apply Hargs.
Qed.

(** C9, as the code has it. The entry that [Add] appends has no command
    string, so exactly one representation is populated in it when, and only
    when, the argument vector is not empty. From a state where every entry
    of every database is well formed, the same holds after [NewDatabase],
    after [Add] with an argument vector that is not empty (and only then),
    after [SaveToFile], and after [LoadDatabase] on a file that holds the
    serialization of well-formed entries with valid UTF-8. *)
Theorem well_formed_kept s :
  all_well_formed s →
  (∀ filename, ∃ db s',
     NewDatabase filename s = Returns (db, s') ∧ all_well_formed s') ∧
  (∀ db d target command,
     heap s !! db = Some d →
     Command.Command (entry_of (world s) target command) = [] ∧
     (well_formed (entry_of (world s) target command)
      ↔ len (paths.GetArgs command) ≠ 0%nat) ∧
     ∃ s',
       Add db target command s = Returns (tt, s') ∧
       (all_well_formed s' ↔ len (paths.GetArgs command) ≠ 0%nat)) ∧
  (∀ db d, heap s !! db = Some d →
     ∃ s', SaveToFile db s = Returns (tt, s') ∧ all_well_formed s') ∧
  (∀ file l,
     os.files (world s) !! file = Some (serialized (mk_slice l)) →
     Forall valid_Command l → Forall well_formed l →
     ∃ db s', LoadDatabase file s = Returns ((Some db, None), s') ∧ all_well_formed s').
Proof.
  unfold all_well_formed. intros Hs. split; [|split; [|split]].
  - intros filename. eexists _, _. split; [reflexivity|]. simpl.
    apply Forall_app. split; [done|]. constructor; [|constructor]. simpl. constructor.
  - intros db d target command Hd. split; [reflexivity|].
    split; [apply well_formed_entry_of|].
    eexists. split; [by apply Add_run|]. simpl.
    pose proof (lookup_lt_Some _ _ _ Hd) as Hlt.
    rewrite <- well_formed_entry_of. split.
    + intros Hall. rewrite Forall_lookup in Hall.
      specialize (Hall db _ (list_lookup_insert_eq _ _ _ Hlt)). simpl in Hall.
      apply Forall_app in Hall as [_ Hall]. by inversion Hall.
    + intros Hwf. apply Forall_insert; [done|]. simpl.
      apply Forall_app. split; [|by constructor].
      rewrite Forall_lookup in Hs. by apply (Hs db).
  - intros db d Hd. eexists. split; [unfold SaveToFile; by apply SaveToFile_with_run|].
    done.
  - intros file l Hfile Hvalid Hwf. eexists _, _. split.
    + eapply LoadDatabase_run; [exact Hfile|].
      pose proof (Unmarshal_MarshalIndent (mk_slice l) (mk_slice []) Hvalid) as Hu.
      rewrite MarshalIndent_serialized in Hu. exact Hu.
    + simpl. apply Forall_app. split; [done|]. constructor; [|constructor]. simpl.
      apply Forall_map. eapply Forall_impl; [exact Hwf|]. apply well_formed_reloaded.
Qed.

Lemma well_formed_kept_witness :
  all_well_formed ex_state_one ∧
  heap ex_state_one !! 0%nat = Some (mkDatabase (mk_slice [ex_entry]) ex_path) ∧
  ∃ s', Add 0%nat (str "/src/main.c") ex_process ex_state_one = Returns (tt, s')
        ∧ all_well_formed s'.
Proof.
  assert (H : all_well_formed ex_state_one).
  { constructor; [|constructor]. constructor; [|constructor].
    right. split; [reflexivity|]. simpl. discriminate. }
  split; [exact H|]. split; [reflexivity|].
  destruct (well_formed_kept ex_state_one H) as (_ & Hadd & _).
  destruct (Hadd 0%nat (mkDatabase (mk_slice [ex_entry]) ex_path)
              (str "/src/main.c") ex_process eq_refl) as (_ & _ & s' & Hrun & Hall).
  exists s'. split; [exact Hrun|]. apply Hall. simpl. discriminate.
Defined.

(** C10. [run] panics at [pathVariants[len(pathVariants)-1]] exactly when
    no key under [last.ide] ends in [.hardwarepath]. The preferences of a
    machine where no IDE has run, and empty preferences, load without error
    and are such: the index is out of range. *)
Theorem run_ide_lookup_panics ideProperties :
  (compile.run_ide_lookup (ideProperties, None) = Panics
   ↔ List.filter (λ k, compile.HasSuffix k (str ".hardwarepath"))
       (compile.keys
          (properties.SubTree (properties.SubTree ideProperties (str "last")) (str "ide")))
     = [])
  ∧ compile.run_ide_lookup (ex_preferences, None) = Panics
  ∧ compile.run_ide_lookup (∅, None) = Panics.
Proof.
  split; [|split; vm_compute; reflexivity].
  unfold compile.run_ide_lookup. cbv zeta.
  set (l := List.filter _ _).
  pose proof (index_last_panics (compile.sort_Strings l)) as Hi.
  destruct (compile.index _ _) as [k|].
  - split; [done|]. intros Hl. destruct Hi as [_ Hi]. rewrite Hl in Hi. by specialize (Hi eq_refl).
  - split; [|done]. intros _. destruct Hi as [Hi _]. specialize (Hi eq_refl).
    apply (f_equal length) in Hi. rewrite length_sort_Strings in Hi. by destruct l.
Qed.
